(** * castle-query: Gmail ingestion pipeline and Qdrant query engine

    A shallow embedding of [src/get_gmail.py] and [src/query_qdrant.py],
    and the properties of the specification proved (or refuted) on it.

    Conventions of the embedding.
    - A Python [str] is a list of characters ([str]); a character is a code
      point below 256, so the classes used by [str.split], [str.strip] and
      [str.lower] are the ones Python has on that range.
    - Code that can raise returns a [result]; [try ... except Exception]
      is [try_except], and the exceptions are the subclasses of
      [Exception].
    - The third-party libraries (PyPDF2, python-docx, EmailReplyParser,
      base64, the embedding model) are not code of this repository: they
      are the fields of the class [Libraries], deterministic functions
      that may raise; the Gmail service and the Qdrant client are records
      of requests, passed as the code passes [service] and [client].
    - The [print]s that only report progress are left out; what
      [query_all_points] prints is its result and is modelled. *)

From Stdlib Require Import Ascii String DecimalString.
From Stdlib Require Import List ZArith NArith Bool Arith Lia Sorted.
Import ListNotations.

Set Implicit Arguments.
Set Warnings "-register-all,-abstract-large-number".

(* ===================================================================== *)
(** * Python strings *)
(* ===================================================================== *)

Definition str : Type := list ascii.

(** A literal; the line feed, the double quote and the empty string are
    written out by their code point. *)
Definition lit (s : string) : str := list_ascii_of_string s.
Arguments lit s%_string.
Definition NL : ascii := ascii_of_N 10.
Definition DQ : ascii := ascii_of_N 34.
Definition SP : ascii := ascii_of_N 32.

Definition ascii_eqb (a b : ascii) : bool := Ascii.eqb a b.

Fixpoint str_eqb (a b : str) : bool :=
  match a, b with
  | [], [] => true
  | x :: a', y :: b' => ascii_eqb x y && str_eqb a' b'
  | _, _ => false
  end.

(** [str.isspace] on one character: TAB, LF, VT, FF, CR, FS, GS, RS, US,
    SPACE, NEL and NBSP. *)
Definition isspace (c : ascii) : bool :=
  let n := N_of_ascii c in
  (((9 <=? n) && (n <=? 13)) || ((28 <=? n) && (n <=? 32))
   || (n =? 133) || (n =? 160))%N.

(** [str.lower] on one character. *)
Definition lower_char (c : ascii) : ascii :=
  let n := N_of_ascii c in
  if (((65 <=? n) && (n <=? 90))
      || ((192 <=? n) && (n <=? 222) && negb (n =? 215)))%N
  then ascii_of_N (n + 32) else c.

Definition lower (s : str) : str := map lower_char s.

(** [sep.join(l)] *)
Fixpoint join (sep : str) (l : list str) : str :=
  match l with
  | [] => []
  | x :: rest =>
      match rest with
      | [] => x
      | _ :: _ => x ++ sep ++ join sep rest
      end
  end.

(** [s.split()]: the maximal runs of characters that are not white space. *)
Fixpoint split (s : str) : list str :=
  match s with
  | [] => []
  | c :: s' =>
      if isspace c then split s'
      else match s' with
           | [] => [[c]]
           | d :: _ =>
               if isspace d then [c] :: split s'
               else match split s' with
                    | w :: ws => (c :: w) :: ws
                    | [] => [[c]]
                    end
           end
  end.

(** [s.lstrip()], [s.rstrip()], [s.strip()] *)
Fixpoint lstrip (s : str) : str :=
  match s with
  | [] => []
  | c :: s' => if isspace c then lstrip s' else s
  end.

Definition rstrip (s : str) : str := rev (lstrip (rev s)).
Definition strip (s : str) : str := rstrip (lstrip s).

(** [s.startswith(p)] *)
Fixpoint startswith (p s : str) : bool :=
  match p, s with
  | [], _ => true
  | _ :: _, [] => false
  | x :: p', y :: s' => ascii_eqb x y && startswith p' s'
  end.

(** [s.endswith(p)] *)
Definition endswith (p s : str) : bool := startswith (rev p) (rev s).

(** [s.find(p)]: the index of the first occurrence of [p] in [s]. *)
Fixpoint str_find (p s : str) : option nat :=
  if startswith p s then Some 0
  else match s with
       | [] => None
       | _ :: s' => option_map S (str_find p s')
       end.

(** [p in s] *)
Definition contains (p s : str) : bool :=
  match str_find p s with Some _ => true | None => false end.

(** [s[:n]] and [l[i:j]] for [0 <= i <= j]. *)
Definition slice_to (A : Type) (n : nat) (l : list A) : list A := firstn n l.
Definition slice (A : Type) (i j : nat) (l : list A) : list A :=
  firstn (j - i) (skipn i l).

(** [len(s)] as a Python integer. *)
Definition len (A : Type) (l : list A) : Z := Z.of_nat (length l).

(** Truth value of an optional string: [None] and the empty string are
    false. *)
Definition truthy (o : option str) : bool :=
  match o with
  | Some (_ :: _) => true
  | _ => false
  end.

(** [s.split(p)[0]]: what precedes the first occurrence of [p] (all of [s]
    when there is none). *)
Definition split_head (p s : str) : str :=
  match str_find p s with
  | Some i => slice_to i s
  | None => s
  end.

(** [s.replace(a, b)] for a one-character [a]. *)
Fixpoint replace_char (a : ascii) (b : str) (s : str) : str :=
  match s with
  | [] => []
  | c :: s' => (if ascii_eqb c a then b else [c]) ++ replace_char a b s'
  end.

(** [str(n)] for an integer. *)
Definition str_of_Z (z : Z) : str := lit (NilZero.string_of_int (Z.to_int z)).

(** The order of [sorted] on strings: lexicographic on the code points. *)
Fixpoint str_ltb (a b : str) : bool :=
  match a, b with
  | _, [] => false
  | [], _ :: _ => true
  | x :: a', y :: b' =>
      if (N_of_ascii x <? N_of_ascii y)%N then true
      else if (N_of_ascii y <? N_of_ascii x)%N then false
      else str_ltb a' b'
  end.

(* ===================================================================== *)
(** * Exceptions *)
(* ===================================================================== *)

(** The subclasses of [Exception] that the code can meet, with [str(e)]. *)
Inductive exn_kind : Type :=
| KeyError | AttributeError | ValueError | IndexError | LibraryError.

Record exn : Type := Exc { exn_kind_of : exn_kind; exn_str : str }.

Inductive result (A : Type) : Type :=
| Ok (a : A)
| Raise (e : exn).
Arguments Ok {A} a.
Arguments Raise {A} e.

Definition bind {A B : Type} (m : result A) (k : A -> result B) : result B :=
  match m with
  | Ok a => k a
  | Raise e => Raise e
  end.

Notation "x <- m ;; k" := (bind m (fun x => k))
  (at level 61, m at next level, right associativity).

(** [try: m  except Exception as e: h e] *)
Definition try_except {A : Type} (m : result A) (h : exn -> result A)
  : result A :=
  match m with
  | Ok a => Ok a
  | Raise e => h e
  end.

Definition raises {A : Type} (m : result A) : Prop :=
  exists e, m = Raise e.

Definition returns {A : Type} (m : result A) (a : A) : Prop := m = Ok a.

(** [d[k]] on an optional entry of a dictionary. *)
Definition getitem {A : Type} (key : string) (o : option A) : result A :=
  match o with
  | Some a => Ok a
  | None => Raise (Exc KeyError (lit key))
  end.

(* ===================================================================== *)
(** * Chunker: [chunk_text] *)
(* ===================================================================== *)

Module Chunker.

(** [range(0, n, k)] for [k > 0]. *)
Definition range_step (n k : nat) : list nat :=
  map (fun j => j * k) (seq 0 ((n + k - 1) / k)).

(** [chunk_text(text, chunk_size)], the generator run to its end.  A zero
    step makes [range] raise, a negative one makes it empty. *)
Definition chunk_text (text : str) (chunk_size : Z) : result (list str) :=
  let words := split text in
  if (chunk_size =? 0)%Z then
    Raise (Exc ValueError (lit "range() arg 3 must not be zero"))
  else if (chunk_size <? 0)%Z then Ok []
  else
    let k := Z.to_nat chunk_size in
    Ok (map (fun i => join [SP] (slice i (i + k) words))
            (range_step (length words) k)).

Definition default_chunk_size : Z := 500.

End Chunker.

(* ===================================================================== *)
(** * The libraries and the services the program calls *)
(* ===================================================================== *)

Definition bytes : Type := list ascii.

(** One fragment of [EmailReplyParser.read(body).fragments]. *)
Record fragment : Type := Fragment { content : str; quoted : bool }.

(** What [reader.pages[i].extract_text()] does for one page: it returns a
    text (possibly [None] or empty) or raises. *)
Inductive page_outcome : Type :=
| PageText (t : option str)
| PageRaises (e : exn).

(** A [PdfReader] object: [reader.metadata] (the values already turned
    into text) and [reader.pages], either of which may raise. *)
Record pdf_reader : Type := Reader {
  pdf_metadata : result (option (list (str * str)));
  pdf_pages : result (list page_outcome)
}.

Class Libraries : Type := {
  (** [base64.urlsafe_b64decode] *)
  urlsafe_b64decode : str -> result bytes;
  (** [bytes.decode(errors="ignore")] *)
  decode_ignore : bytes -> str;
  (** [EmailReplyParser.read(body).fragments] *)
  reply_fragments : str -> list fragment;
  (** [PdfReader(io.BytesIO(data))] *)
  PdfReader : bytes -> result pdf_reader;
  (** [docx.Document(data).paragraphs], each paragraph's [text] *)
  docx_paragraphs : bytes -> result (list str);
  (** the embedding vectors, [model.encode(chunk).tolist()] and
      [model.get_sentence_embedding_dimension()] *)
  vector : Type;
  encode : str -> result vector;
  embedding_dimension : Z
}.

(** ** Messages as the Gmail API returns them *)

(** [part["body"]] *)
Record part_body : Type := Body {
  b_data : option str;
  b_attachmentId : option str
}.

(** A MIME part: [mimeType], [filename], [body] and [parts] are the keys
    the code reads; each may be absent. *)
Inductive part : Type :=
| Part (mimeType : option str) (filename : option str)
       (body : option part_body) (parts : option (list part)).

Definition p_mimeType (p : part) : option str :=
  match p with Part m _ _ _ => m end.
Definition p_filename (p : part) : option str :=
  match p with Part _ f _ _ => f end.
Definition p_body (p : part) : option part_body :=
  match p with Part _ _ b _ => b end.
Definition p_parts (p : part) : option (list part) :=
  match p with Part _ _ _ ps => ps end.

Record payload : Type := Payload {
  pl_headers : list (str * str);
  pl_parts : option (list part);
  pl_body : option part_body
}.

Record message : Type := Message {
  m_threadId : option str;
  m_payload : payload
}.

(** An entry [{"id": ...}] of a listing. *)
Record msg_ref : Type := MsgRef { ref_id : option str }.
Record history_record : Type := History { h_messages : option (list msg_ref) }.
Record history_response : Type :=
  HistoryResponse { hr_history : option (list history_record) }.
Record list_response : Type :=
  ListResponse { lr_messages : option (list msg_ref) }.
Record profile : Type := Profile { pr_historyId : option str }.
Record attachment : Type := Attachment { att_data : option str }.

(** The Gmail [service]: each field is one request, [.execute()]d. *)
Record Service : Type := {
  (** [users().messages().get(userId="me", id=msg_id, format="full")] *)
  messages_get : str -> result message;
  (** [users().messages().attachments().get(messageId=msg_id, id=attach_id)] *)
  attachments_get : str -> str -> result attachment;
  (** [users().history().list(startHistoryId=..., historyTypes=["messageAdded"])] *)
  history_list : str -> result history_response;
  (** [users().messages().list(userId="me", maxResults=n)] *)
  messages_list : Z -> result list_response;
  (** [users().getProfile(userId="me")] *)
  getProfile : result profile
}.

(* ===================================================================== *)
(** * Text Normalizer: [strip_quoted_and_signature] *)
(* ===================================================================== *)

Module Normalizer.
Section Defs.
Context {L : Libraries}.

Definition markers : list str :=
  [ NL :: lit "--"; NL :: lit "Thanks"; NL :: lit "Best regards";
    NL :: lit "Sent from my" ].

(** One turn of the loop over the markers. *)
Definition cut_at (cleaned marker : str) : str :=
  if contains marker cleaned then split_head marker cleaned else cleaned.

(** Line 45: the fragments that are not quoted, joined by line feeds. *)
Definition unquoted (parsed : list fragment) : str :=
  join [NL] (map content (filter (fun f => negb (quoted f)) parsed)).

Definition strip_quoted_and_signature (body : str) : str :=
  let parsed := reply_fragments body in
  let cleaned := unquoted parsed in
  let cleaned := fold_left cut_at markers cleaned in
  strip cleaned.

End Defs.
End Normalizer.

(* ===================================================================== *)
(** * Attachment Extractor: [extract_attachment_text] *)
(* ===================================================================== *)

Module Extractor.
Section Defs.
Context {L : Libraries}.

Definition PAGE_LIMIT : nat := 50.
Definition TEXT_LIMIT : Z := 100000.
Definition TRUNCATION_MARKER : str :=
  NL :: lit "[Content truncated due to size limit]".

(** The loop [for i in range(max_pages)] over the pages of a reader, from
    the accumulated [text].  It returns the text and, next to it, the
    indices of the pages it has asked for, in order.  A page that raises
    (or an index out of range) is caught inside the loop, which goes on. *)
Fixpoint pages_loop (pages : list page_outcome) (todo : list nat)
    (text : str) (seen : list nat) : str * list nat :=
  match todo with
  | [] => (text, seen)
  | i :: rest =>
      match nth_error pages i with
      | Some (PageText page_text) =>
          let text1 :=
            match page_text with
            | Some ((_ :: _) as t) => text ++ t ++ [NL]
            | _ => text
            end in
          if (TEXT_LIMIT <? len text1)%Z
          then (slice_to (Z.to_nat TEXT_LIMIT) text1 ++ TRUNCATION_MARKER,
                seen ++ [i])
          else pages_loop pages rest text1 (seen ++ [i])
      | Some (PageRaises _) => pages_loop pages rest text (seen ++ [i])
      | None => pages_loop pages rest text (seen ++ [i])
      end
  end.

(** [text = ""; max_pages = min(50, len(reader.pages)); for ...] *)
Definition extract_pages (reader : pdf_reader) : result (str * list nat) :=
  pages <- pdf_pages reader ;;
  let max_pages := Nat.min PAGE_LIMIT (length pages) in
  Ok (pages_loop pages (seq 0 max_pages) [] []).

(** The metadata kept by the standalone extractor (it is not used after). *)
Definition safe_metadata (md : option (list (str * str))) : list (str * str) :=
  match md with
  | Some ((_ :: _) as d) =>
      flat_map (fun key =>
                  match List.find (fun kv => str_eqb (fst kv) key) d with
                  | Some kv => [(key, slice_to 100 (snd kv))]
                  | None => []
                  end)
               [lit "/Title"; lit "/Author"; lit "/Subject"]
  | _ => []
  end.

Definition pdf_failed (e : exn) : str :=
  lit "[PDF processing failed: " ++ slice_to 100 (exn_str e) ++ lit "]".
Definition docx_failed (e : exn) : str :=
  lit "[DOCX processing failed: " ++ slice_to 100 (exn_str e) ++ lit "]".

Definition is_pdf (filename : str) : bool :=
  endswith (lit ".pdf") (lower filename).
Definition is_docx (filename : str) : bool :=
  endswith (lit ".docx") (lower filename).

(** The PDF branch, with what it returns and the pages it has read. *)
Definition extract_pdf (data : bytes) : result (str * list nat) :=
  try_except
    (reader <- PdfReader data ;;
     md <- pdf_metadata reader ;;
     let _safe := safe_metadata md in
     extract_pages reader)
    (fun e => Ok (pdf_failed e, [])).

Definition extract_docx (data : bytes) : result str :=
  try_except
    (paragraphs <- docx_paragraphs data ;; Ok (join [NL] paragraphs))
    (fun e => Ok (docx_failed e)).

(** Lines 55-96: the dispatch on the file name, once [data] is decoded. *)
Definition extract_data (data : bytes) (filename : str) : result str :=
  if is_pdf filename then
    r <- extract_pdf data ;; Ok (fst r)
  else if is_docx filename then extract_docx data
  else Ok [].

(** [extract_attachment_text(part, filename)] *)
Definition extract_attachment_text (p : part) (filename : str) : result str :=
  body <- getitem "body" (p_body p) ;;
  attachment_id <- getitem "attachmentId" (b_attachmentId body) ;;
  data <- urlsafe_b64decode attachment_id ;;
  extract_data data filename.

(** The pages the PDF branch reads for [data]. *)
Definition pages_read (data : bytes) : list nat :=
  match extract_pdf data with
  | Ok r => snd r
  | Raise _ => []
  end.

End Defs.
End Extractor.

(* ===================================================================== *)
(** * MIME Walker: [get_email_details] *)
(* ===================================================================== *)

Module Walker.
Section Defs.
Context {L : Libraries}.
Variable service : Service.

(** The dictionary [get_email_details] returns, the payload of a point. *)
Record details : Type := Details {
  d_id : str;
  d_thread_id : option str;
  d_subject : str;
  d_sender : str;
  d_to : str;
  d_date : str;
  d_text : str
}.

(** [{h["name"]: h["value"] for h in headers}.get(name, "")]: the last
    header of that name wins. *)
Definition headers_get (headers : list (str * str)) (name : str) : str :=
  match List.find (fun h => str_eqb (fst h) name) (rev headers) with
  | Some h => snd h
  | None => []
  end.

Definition PDF_MIME : str := lit "application/pdf".
Definition DOCX_MIME : str :=
  lit "application/vnd.openxmlformats-officedocument.wordprocessingml.document".
Definition TEXT_MIME : str := lit "text/plain".

(** [body_text] and [attachments_text], the two variables [walk_parts]
    updates. *)
Definition walk_state : Type := (str * list str)%type.

(** [filename.lower()] on what [part.get("filename")] returned. *)
Definition filename_lower (filename : option str) : result str :=
  match filename with
  | Some f => Ok (lower f)
  | None =>
      Raise (Exc AttributeError
                 (lit "'NoneType' object has no attribute 'lower'"))
  end.

(** Lines 183-207: the PDF branch written out inside [walk_parts] (it has
    no metadata step). *)
Definition inline_pdf (file_data : bytes) : result str :=
  try_except
    (reader <- PdfReader file_data ;;
     r <- Extractor.extract_pages reader ;;
     Ok (fst r))
    (fun e => Ok (Extractor.pdf_failed e)).

(** Lines 172-214: what is done once [attach_id] is there. *)
Definition fetch_and_extract (msg_id attach_id : str)
    (filename : option str) (st : walk_state) : result walk_state :=
  att <- attachments_get service msg_id attach_id ;;
  data <- getitem "data" (att_data att) ;;
  file_data <- urlsafe_b64decode data ;;
  name <- filename_lower filename ;;
  if endswith (lit ".pdf") name then
    text <- inline_pdf file_data ;;
    Ok (fst st, snd st ++ [text])
  else
    name' <- filename_lower filename ;;
    if endswith (lit ".docx") name' then
      text <- Extractor.extract_docx file_data ;;
      Ok (fst st, snd st ++ [text])
    else Ok st.

(** Lines 159-214: one part, its sub-parts left aside. *)
Definition visit (msg_id : str) (p : part) (st : walk_state)
  : result walk_state :=
  let mime_type := match p_mimeType p with Some m => m | None => [] end in
  if str_eqb mime_type TEXT_MIME then
    body <- getitem "body" (p_body p) ;;
    match b_data body with
    | Some ((_ :: _) as data) =>
        raw <- urlsafe_b64decode data ;;
        Ok (fst st ++ decode_ignore raw, snd st)
    | _ => Ok st
    end
  else if str_eqb mime_type PDF_MIME || str_eqb mime_type DOCX_MIME then
    let filename := p_filename p in
    body <- getitem "body" (p_body p) ;;
    match b_attachmentId body with
    | Some ((_ :: _) as attach_id) =>
        fetch_and_extract msg_id attach_id filename st
    | _ => Ok st
    end
  else Ok st.

(** [walk_parts(parts)]: [walk_part] is one turn of its loop. *)
Fixpoint walk_part (msg_id : str) (p : part) (st : walk_state)
  {struct p} : result walk_state :=
  st1 <- visit msg_id p st ;;
  match p with
  | Part _ _ _ (Some sub) =>
      (fix walk_list (ps : list part) (st : walk_state) {struct ps}
         : result walk_state :=
         match ps with
         | [] => Ok st
         | q :: qs => st' <- walk_part msg_id q st ;; walk_list qs st'
         end) sub st1
  | Part _ _ _ None => Ok st1
  end.

Fixpoint walk_parts (msg_id : str) (ps : list part) (st : walk_state)
  : result walk_state :=
  match ps with
  | [] => Ok st
  | q :: qs => st' <- walk_part msg_id q st ;; walk_parts msg_id qs st'
  end.

Definition header_block (subject sender to date : str) : str :=
  lit "Subject: " ++ subject ++ [NL] ++ lit "From: " ++ sender ++ [NL]
  ++ lit "To: " ++ to ++ [NL] ++ lit "Date: " ++ date ++ [NL; NL].

Definition attachments_section (attachments_text : list str) : str :=
  [NL; NL] ++ lit "Attachments:" ++ [NL] ++ join [NL] attachments_text.

(** Lines 225-228. *)
Definition compose (subject sender to date body_text : str)
    (attachments_text : list str) : str :=
  let body_text := Normalizer.strip_quoted_and_signature body_text in
  let full_text := header_block subject sender to date ++ body_text in
  match attachments_text with
  | _ :: _ => full_text ++ attachments_section attachments_text
  | [] => full_text
  end.

(** Lines 218-223: the traversal, from empty texts. *)
Definition collect (msg_id : str) (pl : payload) : result walk_state :=
  match pl_parts pl with
  | Some ps => walk_parts msg_id ps ([], [])
  | None =>
      body <- getitem "body" (pl_body pl) ;;
      match b_data body with
      | Some ((_ :: _) as data) =>
          raw <- urlsafe_b64decode data ;;
          Ok (decode_ignore raw, [])
      | _ => Ok ([], [])
      end
  end.

Definition get_email_details (msg_id : str) : result details :=
  msg <- messages_get service msg_id ;;
  let headers := pl_headers (m_payload msg) in
  let subject := headers_get headers (lit "Subject") in
  let sender := headers_get headers (lit "From") in
  let to := headers_get headers (lit "To") in
  let date := headers_get headers (lit "Date") in
  let thread_id := m_threadId msg in
  st <- collect msg_id (m_payload msg) ;;
  Ok {| d_id := msg_id; d_thread_id := thread_id; d_subject := subject;
        d_sender := sender; d_to := to; d_date := date;
        d_text := compose subject sender to date (fst st) (snd st) |}.

End Defs.
End Walker.

(* ===================================================================== *)
(** * Sync Tracker: [fetch_new_messages] *)
(* ===================================================================== *)

Module Sync.
Section Defs.
Variable service : Service.

(** The requests the tracker sends, in order. *)
Inductive api_call : Type :=
| CallHistoryList (startHistoryId : str)
| CallMessagesList (maxResults : Z)
| CallGetProfile.

(** What the tracker reads and changes: the content of [HISTORY_FILE]
    ([None] when the file does not exist) and the requests sent so far. *)
Record world : Type := World {
  history_file : option str;
  calls : list api_call
}.

Definition log (c : api_call) (w : world) : world :=
  {| history_file := history_file w; calls := calls w ++ [c] |}.

(** [[m["id"] for m in refs]] *)
Fixpoint ids_of (refs : list msg_ref) : result (list str) :=
  match refs with
  | [] => Ok []
  | m :: rest =>
      i <- getitem "id" (ref_id m) ;;
      others <- ids_of rest ;;
      Ok (i :: others)
  end.

Definition get_messages (o : option (list msg_ref)) : list msg_ref :=
  match o with Some ms => ms | None => [] end.

(** The two nested loops over [history["history"]]. *)
Fixpoint history_ids (hs : list history_record) : result (list str) :=
  match hs with
  | [] => Ok []
  | h :: rest =>
      a <- ids_of (get_messages (h_messages h)) ;;
      b <- history_ids rest ;;
      Ok (a ++ b)
  end.

(** Lines 107-127: [message_ids] after the incremental step; [None] is the
    Python [None]. *)
Definition incremental (w : world) : option (list str) * world :=
  match history_file w with
  | Some contents =>
      let last_history_id := strip contents in
      let attempt :=
        try_except
          (history <- history_list service last_history_id ;;
           message_ids <-
             match hr_history history with
             | Some hs => history_ids hs
             | None => Ok []
             end ;;
           Ok (Some message_ids))
          (fun _ => Ok None) in
      (match attempt with Ok m => m | Raise _ => None end,
       log (CallHistoryList last_history_id) w)
  | None => (None, w)
  end.

(** [not message_ids]: true of [None] and of the empty list. *)
Definition not_ (message_ids : option (list str)) : bool :=
  match message_ids with
  | Some (_ :: _) => false
  | _ => true
  end.

(** Lines 129-132. *)
Definition listing (max_results : Z) (message_ids : option (list str))
    (w : world) : result (list str) * world :=
  if not_ message_ids then
    (results <- messages_list service max_results ;;
     ids_of (get_messages (lr_messages results)),
     log (CallMessagesList max_results) w)
  else (Ok (match message_ids with Some ids => ids | None => [] end), w).

(** Lines 134-138: the new cursor.  The file is opened for writing (and
    emptied) before [profile["historyId"]] is read. *)
Definition save_cursor (w : world) : result unit * world :=
  let w1 := log CallGetProfile w in
  match getProfile service with
  | Raise e => (Raise e, w1)
  | Ok profile =>
      match pr_historyId profile with
      | Some h => (Ok tt, {| history_file := Some h; calls := calls w1 |})
      | None =>
          (Raise (Exc KeyError (lit "historyId")),
           {| history_file := Some []; calls := calls w1 |})
      end
  end.

Definition fetch_new_messages (max_results : Z) (w : world)
  : result (list str) * world :=
  let (message_ids, w1) := incremental w in
  let (listed, w2) := listing max_results message_ids w1 in
  match listed with
  | Raise e => (Raise e, w2)
  | Ok ids =>
      let (saved, w3) := save_cursor w2 in
      match saved with
      | Raise e => (Raise e, w3)
      | Ok _ => (Ok ids, w3)
      end
  end.

(** The fallback listing has been sent. *)
Definition fallback_invoked (w : world) : bool :=
  existsb (fun c => match c with CallMessagesList _ => true | _ => false end)
          (calls w).

End Defs.
End Sync.

(* ===================================================================== *)
(** * Ingestion Pipeline: the loop of [main] *)
(* ===================================================================== *)

Module Pipeline.
Section Defs.
Context {L : Libraries}.
Variable service : Service.

Record PointStruct : Type := Point {
  pt_id : Z;
  pt_vector : vector;
  pt_payload : Walker.details
}.

(** The Qdrant client of [main]. *)
Record Qdrant : Type := {
  get_collections : result (list str);
  create_collection : str -> Z -> result unit;
  upsert : str -> list PointStruct -> result unit
}.

Definition COLLECTION_NAME : str := lit "gmail_embeddings_full".
Definition INGEST_CHUNK_SIZE : Z := 200.

(** Lines 270-273: the inner loop, over the chunks of one message. *)
Fixpoint embed_chunks (details : Walker.details) (chunks : list str)
    (points : list PointStruct) (point_id_counter : Z)
  : result (list PointStruct * Z) :=
  match chunks with
  | [] => Ok (points, point_id_counter)
  | chunk :: rest =>
      vec <- encode chunk ;;
      embed_chunks details rest
        (points ++ [Point point_id_counter vec details])
        (point_id_counter + 1)%Z
  end.

(** Lines 269-273: one message. *)
Definition ingest_message (msg_id : str)
    (points : list PointStruct) (point_id_counter : Z)
  : result (list PointStruct * Z) :=
  details <- Walker.get_email_details service msg_id ;;
  chunks <- Chunker.chunk_text (Walker.d_text details) INGEST_CHUNK_SIZE ;;
  embed_chunks details chunks points point_id_counter.

(** Lines 265-273: the outer loop. *)
Fixpoint build_points (message_ids : list str)
    (points : list PointStruct) (point_id_counter : Z)
  : result (list PointStruct * Z) :=
  match message_ids with
  | [] => Ok (points, point_id_counter)
  | msg_id :: rest =>
      r <- ingest_message msg_id points point_id_counter ;;
      build_points rest (fst r) (snd r)
  end.

(** [main], from the built service on: what it returns is the batch it
    has written. *)
Definition main (qdrant : Qdrant) (w : Sync.world)
  : result (list PointStruct) * Sync.world :=
  let (fetched, w1) := Sync.fetch_new_messages service 50 w in
  (message_ids <- fetched ;;
   names <- get_collections qdrant ;;
   _ <- (if existsb (str_eqb COLLECTION_NAME) names then Ok tt
         else create_collection qdrant COLLECTION_NAME embedding_dimension) ;;
   r <- build_points message_ids [] 0%Z ;;
   match fst r with
   | (_ :: _) as points =>
       _ <- upsert qdrant COLLECTION_NAME points ;; Ok points
   | [] => Ok []
   end,
   w1).

End Defs.
End Pipeline.

(* ===================================================================== *)
(** * Query Engine: [query_all_points] *)
(* ===================================================================== *)

Module Query.

(** A payload value: a string, or a value of another type, for which the
    code only takes [str(value)] and compares with a string. *)
Inductive value : Type :=
| VStr (s : str)
| VInt (z : Z)
| VBool (b : bool)
| VNone
| VOther (repr : str).

(** A payload: the dictionary in insertion order, one binding per key. *)
Definition dict : Type := list (str * value).

Inductive point_id : Type :=
| IdInt (z : Z)
| IdStr (s : str).

Record point : Type := Record_ { id : point_id; payload : dict }.

(** The client: [client.scroll(collection_name, limit, offset,
    with_payload=True, with_vectors=False)[0]], and [json.dumps] of the
    results (indent 2, [default=str]). *)
Record Client : Type := {
  scroll : str -> Z -> Z -> result (list point);
  json_dumps : list point -> str
}.

(** [payload.get(key, default)] *)
Fixpoint get (d : dict) (key : str) (default : value) : value :=
  match d with
  | [] => default
  | (k, v) :: d' => if str_eqb k key then v else get d' key default
  end.

Definition keys (d : dict) : list str := map fst d.

(** [str(value)] *)
Definition str_of (v : value) : str :=
  match v with
  | VStr s => s
  | VInt z => str_of_Z z
  | VBool true => lit "True"
  | VBool false => lit "False"
  | VNone => lit "None"
  | VOther repr => repr
  end.

Definition str_of_id (i : point_id) : str :=
  match i with
  | IdInt z => str_of_Z z
  | IdStr s => s
  end.

(** A [FieldCondition]: its key and its [match.value]. *)
Definition condition : Type := (str * str)%type.

Definition condition_of (key : string) (filter : option str) : list condition :=
  match filter with
  | Some ((_ :: _) as v) => [(lit key, v)]
  | _ => []
  end.

(** Lines 69-77. *)
Definition filter_conditions
    (filter_subject filter_sender filter_url filter_category : option str)
  : list condition :=
  condition_of "subject" filter_subject ++ condition_of "sender" filter_sender
  ++ condition_of "url" filter_url ++ condition_of "category" filter_category.

(** [actual_value == expected_value] for a string [expected_value]. *)
Definition value_eqb (actual : value) (expected : str) : bool :=
  match actual with
  | VStr a => str_eqb a expected
  | _ => false
  end.

(** Lines 96-108: one condition on one point; [false] is the [break]. *)
Definition condition_holds (p : point) (c : condition) : bool :=
  let key := fst c in
  let expected_value := snd c in
  let actual_value := get (payload p) key (VStr []) in
  match actual_value with
  | VStr a => contains (lower expected_value) (lower a)
  | _ => value_eqb actual_value expected_value
  end.

(** Lines 94-110: the inner loop, [matches] at its end. *)
Definition matches (conds : list condition) (p : point) : bool :=
  forallb (condition_holds p) conds.

(** Lines 91-113. *)
Definition apply_filters (conds : list condition) (points : list point)
  : list point :=
  match conds with
  | _ :: _ => filter (matches conds) points
  | [] => points
  end.

(** [sorted(all_keys)] for the set of the keys: [insert_key] puts one key
    in a sorted list without repetition. *)
Fixpoint insert_key (k : str) (l : list str) : list str :=
  match l with
  | [] => [k]
  | x :: l' =>
      if str_ltb k x then k :: l
      else if str_eqb k x then l
      else x :: insert_key k l'
  end.

Definition sorted_keys (points : list point) : list str :=
  fold_right insert_key [] (flat_map (fun p => keys (payload p)) points).

Definition quote (s : str) : str := [DQ] ++ s ++ [DQ].

(** Lines 162-170: the list [row] of one point. *)
Definition csv_field (p : point) (key : str) : str :=
  match get (payload p) key (VStr []) with
  | VStr s => quote (replace_char DQ [DQ; DQ] s)
  | v => quote (str_of v)
  end.

Definition csv_row (ks : list str) (p : point) : list str :=
  str_of_id (id p) :: map (csv_field p) ks.

Definition csv_header (ks : list str) : str :=
  lit "id," ++ join (lit ",") (map quote ks).

(** Lines 146-171: the lines the CSV encoding prints. *)
Definition csv_lines (points : list point) : list str :=
  match points with
  | [] => []
  | _ :: _ =>
      let ks := sorted_keys points in
      csv_header ks :: map (fun p => join (lit ",") (csv_row ks p)) points
  end.

(** Lines 130-144: the table encoding. *)
Definition display_value (v : value) : str :=
  match v with
  | VStr s => if (200 <? len s)%Z then slice_to 200 s ++ lit "..." else s
  | _ => str_of v
  end.

Definition table_block (i : nat) (p : point) : list str :=
  (lit "Point " ++ str_of_Z (Z.of_nat i) ++ lit " (ID: "
   ++ str_of_id (id p) ++ lit "):")
  :: map (fun kv => lit "  " ++ fst kv ++ lit ": " ++ display_value (snd kv))
         (payload p)
  ++ [repeat "-"%char 40].

Definition table_lines (points : list point) : list str :=
  flat_map (fun ip => table_block (fst ip) (snd ip))
           (combine (seq 1 (length points)) points).

(** What a run prints, and whether it ends by [sys.exit(1)]. *)
Inductive outcome : Type :=
| Printed (lines : list str)
| Exited (lines : list str) (status : Z).

Definition found_line (n : nat) (limit offset : Z) : str :=
  lit "Found " ++ str_of_Z (Z.of_nat n) ++ lit " points (limit: "
  ++ str_of_Z limit ++ lit ", offset: " ++ str_of_Z offset ++ lit ")".

(** The points left after the filters, or the exception of the store. *)
Definition selected (client : Client) (collection_name : str)
    (limit offset : Z)
    (filter_subject filter_sender filter_url filter_category : option str)
  : result (list point) :=
  let conds :=
    filter_conditions filter_subject filter_sender filter_url
                      filter_category in
  points <- scroll client collection_name limit offset ;;
  Ok (apply_filters conds points).

Definition render (client : Client) (output_format : str)
    (points : list point) : list str :=
  if str_eqb output_format (lit "json") then [json_dumps client points]
  else if str_eqb output_format (lit "table") then table_lines points
  else if str_eqb output_format (lit "csv") then csv_lines points
  else [].

Definition query_all_points (client : Client) (collection_name : str)
    (limit offset : Z)
    (filter_subject filter_sender filter_url filter_category : option str)
    (output_format : str) : outcome :=
  match selected client collection_name limit offset
          filter_subject filter_sender filter_url filter_category with
  | Raise e => Exited [lit "Error querying collection: " ++ exn_str e] 1
  | Ok [] => Printed [lit "No points found in the collection."]
  | Ok ((_ :: _) as points) =>
      Printed (found_line (length points) limit offset
               :: repeat "-"%char 80
               :: render client output_format points)
  end.

End Query.

(* ===================================================================== *)
(** * Vocabulary of the statements *)
(* ===================================================================== *)

(** A word: not empty, no white space in it. *)
Definition is_word (w : str) : bool :=
  match w with
  | [] => false
  | _ :: _ => forallb (fun c => negb (isspace c)) w
  end.

(** [p] occurs in [s] at index [i]. *)
Definition occurs_at (p s : str) (i : nat) : Prop :=
  startswith p (skipn i s) = true /\ i <= length s.

(** The smaller of two optional indices. *)
Definition min_opt (a b : option nat) : option nat :=
  match a, b with
  | Some x, Some y => Some (Nat.min x y)
  | Some x, None => Some x
  | None, _ => b
  end.

(** The first index at which one of the patterns [ps] occurs in [s]. *)
Fixpoint earliest (ps : list str) (s : str) : option nat :=
  match ps with
  | [] => None
  | p :: ps' => min_opt (str_find p s) (earliest ps' s)
  end.

Definition truncate_at (o : option nat) (s : str) : str :=
  match o with
  | Some i => firstn i s
  | None => s
  end.

(** A marker of the normalizer: a line feed, then no other line feed. *)
Definition nl_headed (m : str) : Prop :=
  exists r, m = NL :: r /\ ~ In NL r.

(** A cut of [s] at index [i] falls on a line feed or at the end. *)
Definition cut_ok (i : nat) (s : str) : Prop :=
  skipn i s = [] \/ exists r, skipn i s = NL :: r.

(** The invariant of the loop over the markers: the text has been cut at
    a line feed, if at all. *)
Definition cut_inv (o : option nat) (s : str) : Prop :=
  match o with
  | Some i => cut_ok i s
  | None => True
  end.

(** A page whose extraction raises, seen as a page without text. *)
Definition skip_failed (o : page_outcome) : page_outcome :=
  match o with
  | PageRaises _ => PageText None
  | PageText t => PageText t
  end.

(** What one page adds to the text. *)
Definition page_chunk (o : page_outcome) : str :=
  match o with
  | PageText (Some ((_ :: _) as t)) => t ++ [NL]
  | _ => []
  end.

(** Libraries for the examples: every decoder is the identity, the reply
    parser returns the body as one fragment that is not quoted, a PDF has
    one page per line of its data, a DOCX one paragraph, and the embedding
    of a chunk is its length. *)
Definition example_pages (data : bytes) : list page_outcome :=
  map (fun line => PageText (Some line)) (split data).

#[local] Instance example_libraries : Libraries := {|
  urlsafe_b64decode := fun s => Ok s;
  decode_ignore := fun b => b;
  reply_fragments := fun body => [Fragment body false];
  PdfReader := fun data =>
    Ok (Reader (Ok None) (Ok (example_pages data)));
  docx_paragraphs := fun data => Ok [data];
  vector := nat;
  encode := fun chunk => Ok (length chunk);
  embedding_dimension := 1
|}.

(** The parts of a tree in the order of a depth-first traversal: a part,
    then the parts below it, then its next sibling. *)
Fixpoint preorder (p : part) : list part :=
  p :: match p with
       | Part _ _ _ (Some sub) =>
           (fix below (ps : list part) : list part :=
              match ps with
              | [] => []
              | q :: qs => preorder q ++ below qs
              end) sub
       | Part _ _ _ None => []
       end.

Definition preorder_list (ps : list part) : list part :=
  flat_map preorder ps.

(** [Walker.visit] on a flat list of parts, one after the other. *)
Fixpoint visit_all {L : Libraries} (service : Service) (msg_id : str)
    (ps : list part) (st : Walker.walk_state) : result Walker.walk_state :=
  match ps with
  | [] => Ok st
  | p :: rest =>
      st' <- Walker.visit service msg_id p st ;;
      visit_all service msg_id rest st'
  end.

(** [p] is one of the parts of the trees [ps], at any depth. *)
Inductive reaches (p : part) : list part -> Prop :=
| reaches_here (ps : list part) : reaches p (p :: ps)
| reaches_below (q : part) (ps sub : list part) :
    p_parts q = Some sub -> reaches p sub -> reaches p (q :: ps)
| reaches_next (q : part) (ps : list part) :
    reaches p ps -> reaches p (q :: ps).

(** A part declared as PDF or DOCX that carries an attachment id and has no
    [filename]. *)
Definition nameless_attachment (p : part) : Prop :=
  (p_mimeType p = Some Walker.PDF_MIME \/ p_mimeType p = Some Walker.DOCX_MIME)
  /\ p_filename p = None
  /\ exists b c aid,
       p_body p = Some b /\ b_attachmentId b = Some (c :: aid).

(** The Composite Document as the specification words it: the section of
    the attachments is there only if some attachment text is not empty. *)
Definition composite_as_claimed {L : Libraries}
    (subject sender to date body_text : str) (attachments_text : list str)
  : str :=
  Walker.header_block subject sender to date
  ++ Normalizer.strip_quoted_and_signature body_text
  ++ (if existsb (fun t => negb (str_eqb t [])) attachments_text
      then Walker.attachments_section attachments_text
      else []).

(** What the visit of one part adds to the attachment texts and to the
    body text (nothing when the visit raises). *)
Definition texts_of {L : Libraries} (service : Service) (msg_id : str)
    (p : part) : list str :=
  match Walker.visit service msg_id p ([], []) with
  | Ok st => snd st
  | Raise _ => []
  end.

Definition body_of {L : Libraries} (service : Service) (msg_id : str)
    (p : part) : str :=
  match Walker.visit service msg_id p ([], []) with
  | Ok st => fst st
  | Raise _ => []
  end.

(** The claim on the Composite Document, as the specification words it. *)
Definition composite_claim : Prop :=
  forall (L : Libraries) (service : Service) (msg_id : str) (msg : message)
         (st : Walker.walk_state) (details : Walker.details),
    messages_get service msg_id = Ok msg ->
    Walker.collect service msg_id (m_payload msg) = Ok st ->
    Walker.get_email_details service msg_id = Ok details ->
    Walker.d_text details
    = composite_as_claimed (Walker.d_subject details) (Walker.d_sender details)
        (Walker.d_to details) (Walker.d_date details) (fst st) (snd st).

(** [needle] is a substring of [s]. *)
Definition substring_of (needle s : str) : Prop :=
  exists pre post, s = pre ++ needle ++ post.

Definition str_lt (a b : str) : Prop := str_ltb a b = true.

(** A CSV field wrapped in double quotes. *)
Definition wrapped (field : str) : Prop :=
  exists inner, field = [DQ] ++ inner ++ [DQ].

(** The claim on the CSV rows, as the specification words it: every field
    of every row is wrapped in double quotes. *)
Definition csv_claim : Prop :=
  forall (points : list Query.point) (p : Query.point),
    In p points ->
    Forall wrapped (Query.csv_row (Query.sorted_keys points) p).

(** The three points of the scenario on the sender filter, and the two
    points of the scenario on the CSV encoding. *)
Definition sender_point (n : Z) (sender : string) : Query.point :=
  Query.Record_ (Query.IdInt n) [(lit "sender", Query.VStr (lit sender))].

Definition scenario_points : list Query.point :=
  [ sender_point 1 "John Doe <john@example.com>";
    sender_point 2 "Jane <jane@example.com>";
    sender_point 3 "J <JOHN@EXAMPLE.COM>" ].

Definition csv_scenario_points : list Query.point :=
  [ Query.Record_ (Query.IdInt 1)
      [(lit "subject", Query.VStr (lit "Hi")); (lit "sender", Query.VStr (lit "a@x"))];
    Query.Record_ (Query.IdInt 2)
      [(lit "subject", Query.VStr ([DQ] ++ lit "B" ++ [DQ]))] ].

Definition example_client : Query.Client := {|
  Query.scroll := fun _ limit offset =>
    Ok (firstn (Z.to_nat limit) (skipn (Z.to_nat offset) scenario_points));
  Query.json_dumps := fun _ => lit "[]"
|}.

(** A mailbox for the examples.  Message [m1] has one PDF attachment with
    no page; [m2] has a PDF part without file name below a multipart
    part; [m3] has a text part, a PDF of two pages and, nested, a DOCX. *)
Definition example_headers : list (str * str) :=
  [(lit "Subject", lit "Hi"); (lit "From", lit "a@x"); (lit "To", lit "b@x");
   (lit "Date", lit "today")].

Definition example_message (msg_id : str) : message :=
  if str_eqb msg_id (lit "m1") then
    Message (Some (lit "t1"))
      (Payload example_headers
         (Some [Part (Some (lit "application/pdf")) (Some (lit "empty.pdf"))
                     (Some (Body None (Some (lit "none")))) None])
         None)
  else if str_eqb msg_id (lit "m2") then
    Message (Some (lit "t2"))
      (Payload example_headers
         (Some [Part (Some (lit "multipart/mixed")) (Some [])
                     (Some (Body None None))
                     (Some [Part (Some (lit "application/pdf")) None
                                 (Some (Body None (Some (lit "two")))) None])])
         None)
  else
    Message (Some (lit "t3"))
      (Payload example_headers
         (Some [Part (Some (lit "text/plain")) (Some [])
                     (Some (Body (Some (lit "Hello")) None)) None;
                Part (Some (lit "application/pdf")) (Some (lit "A.PDF"))
                     (Some (Body None (Some (lit "two")))) None;
                Part (Some (lit "multipart/mixed")) (Some [])
                     (Some (Body None None))
                     (Some [Part (Some Walker.DOCX_MIME) (Some (lit "b.docx"))
                                 (Some (Body None (Some (lit "doc")))) None])])
         None).

Definition example_attachment (attach_id : str) : attachment :=
  if str_eqb attach_id (lit "none") then Attachment (Some [])
  else if str_eqb attach_id (lit "two") then Attachment (Some (lit "p1 p2"))
  else Attachment (Some (lit "paragraph")).

Definition example_service : Service := {|
  messages_get := fun msg_id => Ok (example_message msg_id);
  attachments_get := fun _ attach_id => Ok (example_attachment attach_id);
  history_list := fun _ => Ok (HistoryResponse None);
  messages_list := fun _ =>
    Ok (ListResponse (Some [MsgRef (Some (lit "m3"))]));
  getProfile := Ok (Profile (Some (lit "101")))
|}.

(* ===================================================================== *)
(** * Further vocabulary *)
(* ===================================================================== *)

(** A text cut as the page loop cuts it: whole when within the limit, its
    first 100,000 characters and the marker otherwise. *)
Definition assemble (text : str) : str :=
  if (Extractor.TEXT_LIMIT <? len text)%Z
  then slice_to (Z.to_nat Extractor.TEXT_LIMIT) text
       ++ Extractor.TRUNCATION_MARKER
  else text.

(** What the pages the loop may read add to the text, page by page: the
    first 50 pages of the document. *)
Definition page_chunks (pages : list page_outcome) : list str :=
  map page_chunk (firstn Extractor.PAGE_LIMIT pages).

(** The number of pages the loop reads when the text gathered so far has
    [text_len] characters: it stops after the first page with which the
    text exceeds the limit. *)
Fixpoint pages_until (chunks : list str) (text_len : Z) : nat :=
  match chunks with
  | [] => 0
  | c :: rest =>
      if (Extractor.TEXT_LIMIT <? text_len + len c)%Z then 1
      else S (pages_until rest (text_len + len c))
  end.

Definition read_count (pages : list page_outcome) : nat :=
  pages_until (page_chunks pages) 0.

(** A history record that names the messages [ids]. *)
Definition record_of (ids : list str) : history_record :=
  History (Some (map (fun i => MsgRef (Some i)) ids)).

(** A mailbox whose change log names [m1], then [m3] and [m1] again. *)
Definition history_service : Service := {|
  messages_get := fun msg_id => Ok (example_message msg_id);
  attachments_get := fun _ attach_id => Ok (example_attachment attach_id);
  history_list := fun _ =>
    Ok (HistoryResponse
          (Some [record_of [lit "m1"]; History None;
                 record_of [lit "m3"; lit "m1"]]));
  messages_list := fun _ =>
    Ok (ListResponse (Some [MsgRef (Some (lit "m3"))]));
  getProfile := Ok (Profile (Some (lit "202")))
|}.

(** A mailbox whose change log refuses the cursor. *)
Definition expired_service : Service := {|
  messages_get := fun msg_id => Ok (example_message msg_id);
  attachments_get := fun _ attach_id => Ok (example_attachment attach_id);
  history_list := fun _ => Raise (Exc LibraryError (lit "404"));
  messages_list := fun _ =>
    Ok (ListResponse (Some [MsgRef (Some (lit "m3"))]));
  getProfile := Ok (Profile (Some (lit "303")))
|}.

(** A mailbox whose messages have a single part. *)
Definition single_part_service : Service := {|
  messages_get := fun _ =>
    Ok (Message (Some (lit "t9"))
          (Payload example_headers None
             (Some (Body (Some (lit " Hello again ")) None))));
  attachments_get := fun _ attach_id => Ok (example_attachment attach_id);
  history_list := fun _ => Ok (HistoryResponse None);
  messages_list := fun _ => Ok (ListResponse None);
  getProfile := Ok (Profile (Some (lit "1")))
|}.

(** A mailbox whose messages have one part, a body of 400 words: with
    the eight words of the header block, three chunks of at most 200
    words. *)
Definition long_body : str := concat (repeat (lit "w ") 400).

Definition long_service : Service := {|
  messages_get := fun _ =>
    Ok (Message (Some (lit "t4"))
          (Payload example_headers None (Some (Body (Some long_body) None))));
  attachments_get := fun _ attach_id => Ok (example_attachment attach_id);
  history_list := fun _ => Ok (HistoryResponse None);
  messages_list := fun _ => Ok (ListResponse None);
  getProfile := Ok (Profile (Some (lit "1")))
|}.

(** The points of the message [m4] of that mailbox, made when the counter
    is at 7. *)
Definition long_points : list Pipeline.PointStruct * Z :=
  match Pipeline.ingest_message long_service (lit "m4") [] 7 with
  | Ok r => r
  | Raise _ => ([], 0%Z)
  end.

(** The profile request is among the requests sent between the worlds
    [w] and [w']. *)
Definition profile_sent (w w' : Sync.world) : bool :=
  existsb (fun c => match c with Sync.CallGetProfile => true | _ => false end)
          (skipn (length (Sync.calls w)) (Sync.calls w')).

(** Lines 230-238 of [get_gmail.py]: the dictionary [get_email_details]
    returns, with its keys, as a payload of the store. *)
Definition payload_of_details (d : Walker.details) : Query.dict :=
  [ (lit "id", Query.VStr (Walker.d_id d));
    (lit "thread_id",
     match Walker.d_thread_id d with
     | Some t => Query.VStr t
     | None => Query.VNone
     end);
    (lit "subject", Query.VStr (Walker.d_subject d));
    (lit "sender", Query.VStr (Walker.d_sender d));
    (lit "to", Query.VStr (Walker.d_to d));
    (lit "date", Query.VStr (Walker.d_date d));
    (lit "text", Query.VStr (Walker.d_text d)) ].

(** [mime_type]: the declared type of a part, empty when the part has no
    [mimeType]. *)
Definition mime_of (p : part) : str :=
  match p_mimeType p with Some m => m | None => [] end.

(** What a part gives to the body text: the decoded data of a part
    declared [text/plain], nothing for any other part. *)
Definition plain_text {L : Libraries} (p : part) : str :=
  if str_eqb (mime_of p) Walker.TEXT_MIME then
    match p_body p with
    | Some b =>
        match b_data b with
        | Some ((_ :: _) as data) =>
            match urlsafe_b64decode data with
            | Ok raw => decode_ignore raw
            | Raise _ => []
            end
        | _ => []
        end
    | None => []
    end
  else [].

(** A part declared as PDF or DOCX. *)
Definition declared_attachment (p : part) : bool :=
  str_eqb (mime_of p) Walker.PDF_MIME || str_eqb (mime_of p) Walker.DOCX_MIME.

(** A part of a type the walker does not read. *)
Definition other_part (p : part) : bool :=
  negb (str_eqb (mime_of p) Walker.TEXT_MIME) && negb (declared_attachment p).

(** A part from which an attachment text is taken: declared as PDF or
    DOCX, with an attachment id, and with a file name in [.pdf] or
    [.docx], whatever the case of its letters. *)
Definition extracted (p : part) : bool :=
  declared_attachment p
  && match p_body p with
     | Some b => truthy (b_attachmentId b)
     | None => false
     end
  && match p_filename p with
     | Some f => Extractor.is_pdf f || Extractor.is_docx f
     | None => false
     end.

(** The parts of a payload, in depth-first order. *)
Definition parts_of (pl : payload) : list part :=
  match pl_parts pl with
  | Some ps => preorder_list ps
  | None => []
  end.

(** A mailbox whose attachments cannot be downloaded. *)
Definition broken_attachment_service : Service := {|
  messages_get := fun msg_id => Ok (example_message msg_id);
  attachments_get := fun _ _ => Raise (Exc LibraryError (lit "503"));
  history_list := fun _ => Ok (HistoryResponse None);
  messages_list := fun _ =>
    Ok (ListResponse (Some [MsgRef (Some (lit "m3"))]));
  getProfile := Ok (Profile (Some (lit "101")))
|}.

(** The parts of a message in HTML only, below a multipart part that has
    no body. *)
Definition html_parts : list part :=
  [Part (Some (lit "multipart/alternative")) None None
        (Some [Part (Some (lit "text/html")) (Some [])
                    (Some (Body (Some (lit "<p>Hello</p>")) None)) None;
               Part None None None None])].

(** A store for the examples: it has no collection yet and accepts every
    request. *)
Definition example_qdrant {L : Libraries} : Pipeline.Qdrant := {|
  Pipeline.get_collections := Ok [];
  Pipeline.create_collection := fun _ _ => Ok tt;
  Pipeline.upsert := fun _ _ => Ok tt
|}.

(** The message a point was made from: [payload["id"]]. *)
Definition message_of {L : Libraries} (pt : Pipeline.PointStruct) : str :=
  Walker.d_id (Pipeline.pt_payload pt).

(** The points of one message: there is at least one, all of them have
    the dictionary of the message as payload, and there is one for each
    run of 200 words of its Composite Document. *)
Definition group_of {L : Libraries} (service : Service) (msg_id : str)
    (group : list Pipeline.PointStruct) : Prop :=
  exists d,
    Walker.get_email_details service msg_id = Ok d /\
    Forall (fun pt => Pipeline.pt_payload pt = d) group /\
    Forall (fun pt => message_of pt = msg_id) group /\
    group <> [] /\
    length group = (length (split (Walker.d_text d)) + 199) / 200.

(** The batch of a run over the messages [m3] and [m1] of the example
    mailbox, and the batch that a first run of [main] writes. *)
Definition example_batch : list Pipeline.PointStruct * Z :=
  match Pipeline.build_points example_service [lit "m3"; lit "m1"] [] 0 with
  | Ok r => r
  | Raise _ => ([], 0%Z)
  end.

Definition example_run_batch : list Pipeline.PointStruct :=
  match fst (Pipeline.main example_service example_qdrant
               (Sync.World None [])) with
  | Ok batch => batch
  | Raise _ => []
  end.

(** A point as the ingestion pipeline stores it: its payload is the
    dictionary of a message. *)
Definition ingested (p : Query.point) : Prop :=
  exists d : Walker.details, Query.payload p = payload_of_details d.

(** A store that holds the two points of one message, as the ingestion
    pipeline writes them. *)
Definition example_details : Walker.details :=
  Walker.Details (lit "m3") (Some (lit "t3")) (lit "Hi") (lit "a@x")
    (lit "b@x") (lit "today") (lit "Subject: Hi").

Definition ingested_page : list Query.point :=
  [Query.Record_ (Query.IdInt 0) (payload_of_details example_details);
   Query.Record_ (Query.IdInt 1) (payload_of_details example_details)].

Definition ingested_client : Query.Client := {|
  Query.scroll := fun _ _ _ => Ok ingested_page;
  Query.json_dumps := fun _ => lit "[]"
|}.

(* ===================================================================== *)
(** * Authentication: [gmail_authenticate] *)
(* ===================================================================== *)

Module Auth.

(** A credentials object: the attributes the code reads, with the values
    they have when one call of [gmail_authenticate] reads them.  In
    google-auth [valid] and [expired] are computed from the expiry of the
    token and the clock: an object stored at one time may read
    differently at another, so nothing is stated across two calls. *)
Record credentials : Type := Credentials {
  valid : bool;
  expired : bool;
  refresh_token : option str
}.

(** The two ways of renewing the credentials. *)
Inductive step : Type :=
| Refresh
| Flow.

(** The file [token.pickle] ([None] when it does not exist) and the
    renewal steps taken so far. *)
Record world : Type := World {
  token_pickle : option bytes;
  steps : list step
}.

Section Defs.
(** [pickle.load] and [pickle.dump] on the credentials, where [None]
    stands for an object that is not true; [creds.refresh(Request())],
    which gives the object as it is after the call; and the flow in the
    browser, [InstalledAppFlow.from_client_secrets_file("credentials.json",
    SCOPES).run_local_server(port=0)]. *)
Variable pickle_load : bytes -> result (option credentials).
Variable pickle_dump : credentials -> bytes.
Variable refresh : credentials -> result credentials.
Variable run_local_server : result credentials.

Definition log (s : step) (w : world) : world :=
  {| token_pickle := token_pickle w; steps := steps w ++ [s] |}.

(** Lines 23-27: [creds] after the file has been read. *)
Definition load (w : world) : result (option credentials) :=
  match token_pickle w with
  | Some content => pickle_load content
  | None => Ok None
  end.

(** [not creds or not creds.valid] *)
Definition stale (creds : option credentials) : bool :=
  match creds with
  | Some c => negb (valid c)
  | None => true
  end.

(** Lines 29-35: [creds] after the refresh or after the flow. *)
Definition renew (creds : option credentials) (w : world)
  : result credentials * world :=
  match creds with
  | Some c =>
      if expired c && truthy (refresh_token c)
      then (refresh c, log Refresh w)
      else (run_local_server, log Flow w)
  | None => (run_local_server, log Flow w)
  end.

Definition gmail_authenticate (w : world)
  : result (option credentials) * world :=
  match load w with
  | Raise e => (Raise e, w)
  | Ok creds =>
      if stale creds then
        let (renewed, w1) := renew creds w in
        match renewed with
        | Raise e => (Raise e, w1)
        | Ok c =>
            (Ok (Some c),
             {| token_pickle := Some (pickle_dump c); steps := steps w1 |})
        end
      else (Ok creds, w)
  end.

End Defs.
End Auth.

(** A pickle for the examples: one character for [valid], one for
    [expired], then the refresh token, if any, after a [T]. *)
Definition example_dump (c : Auth.credentials) : bytes :=
  (if Auth.valid c then "1"%char else "0"%char)
  :: (if Auth.expired c then "1"%char else "0"%char)
  :: match Auth.refresh_token c with
     | Some t => "T"%char :: t
     | None => []
     end.

Definition example_load (content : bytes) : result (option Auth.credentials) :=
  match content with
  | v :: e :: rest =>
      Ok (Some (Auth.Credentials (ascii_eqb v "1"%char) (ascii_eqb e "1"%char)
                  (match rest with
                   | [] => None
                   | _ :: t => Some t
                   end)))
  | _ => Raise (Exc LibraryError (lit "pickle data was truncated"))
  end.

(** A refresh that succeeds: the credentials are valid again. *)
Definition example_refresh (c : Auth.credentials) : result Auth.credentials :=
  Ok (Auth.Credentials true false (Auth.refresh_token c)).

(* ===================================================================== *)
(** * Strings: lemmas *)
(* ===================================================================== *)

Arguments ascii_eqb : simpl never.
Unset Implicit Arguments.

Lemma str_eqb_spec (a b : str) : str_eqb a b = true <-> a = b.
Proof.
  revert b; induction a as [|x a IH]; intros [|y b]; simpl; split;
    try congruence; try reflexivity.
  - rewrite andb_true_iff. intros [H1 H2].
    apply Ascii.eqb_eq in H1. apply IH in H2. congruence.
  - intros H; inversion H; subst. rewrite andb_true_iff. split.
    + apply Ascii.eqb_refl.
    + apply IH; reflexivity.
Qed.

Lemma str_eqb_refl (a : str) : str_eqb a a = true.
Proof. apply str_eqb_spec; reflexivity. Qed.

Lemma split_cons (c : ascii) (s : str) :
  split (c :: s) =
  if isspace c then split s
  else match s with
       | [] => [[c]]
       | d :: _ =>
           if isspace d then [c] :: split s
           else match split s with
                | w :: ws => (c :: w) :: ws
                | [] => [[c]]
                end
       end.
Proof. destruct s; reflexivity. Qed.

Lemma is_word_cons (c : ascii) (w : str) :
  isspace c = false -> (w = [] \/ is_word w = true) -> is_word (c :: w) = true.
Proof.
  intros Hc [-> | Hw]; simpl; rewrite Hc; simpl; [reflexivity|].
  destruct w; [discriminate | exact Hw].
Qed.

Lemma split_words (s : str) : Forall (fun w => is_word w = true) (split s).
Proof.
  induction s as [|c s IH]; [constructor|].
  rewrite split_cons.
  destruct (isspace c) eqn:Hc; [exact IH|].
  destruct s as [|d s'].
  - repeat constructor. apply is_word_cons; auto.
  - destruct (isspace d) eqn:Hd.
    + constructor; [apply is_word_cons; auto | exact IH].
    + destruct (split (d :: s')) as [|w ws] eqn:Hs.
      * repeat constructor. apply is_word_cons; auto.
      * inversion IH; subst. constructor; [|assumption].
        apply is_word_cons; auto.
Qed.

Lemma split_word_app (w rest : str) :
  is_word w = true ->
  match rest with [] => True | d :: _ => isspace d = true end ->
  split (w ++ rest) = w :: split rest.
Proof.
  induction w as [|c w IH]; [discriminate|].
  intros Hw Hrest. simpl in Hw. apply andb_true_iff in Hw as [Hc Hw'].
  apply negb_true_iff in Hc.
  change ((c :: w) ++ rest) with (c :: (w ++ rest)).
  rewrite split_cons, Hc.
  destruct w as [|c2 w'].
  - simpl. destruct rest as [|d r]; [reflexivity|]. now rewrite Hrest.
  - assert (Hw2 : is_word (c2 :: w') = true) by exact Hw'.
    change ((c2 :: w') ++ rest) with (c2 :: (w' ++ rest)) in *.
    simpl in Hw'. apply andb_true_iff in Hw' as [Hc2 _].
    apply negb_true_iff in Hc2. rewrite Hc2.
    now rewrite (IH Hw2 Hrest).
Qed.

Lemma split_join (ws : list str) :
  Forall (fun w => is_word w = true) ws -> split (join [SP] ws) = ws.
Proof.
  induction ws as [|w ws IH]; intros H; [reflexivity|].
  inversion H as [|? ? Hw Hws]; subst.
  destruct ws as [|w2 ws'].
  - simpl. rewrite <- (app_nil_r w) at 1.
    now rewrite split_word_app.
  - change (join [SP] (w :: w2 :: ws'))
      with (w ++ [SP] ++ join [SP] (w2 :: ws')).
    rewrite split_word_app; [|assumption|reflexivity].
    change ([SP] ++ join [SP] (w2 :: ws'))
      with (SP :: join [SP] (w2 :: ws')).
    rewrite split_cons. change (isspace SP) with true. cbv iota.
    now rewrite IH.
Qed.

Lemma split_nil_iff (s : str) : split s = [] <-> forallb isspace s = true.
Proof.
  induction s as [|c s IH]; [simpl; tauto|].
  rewrite split_cons. simpl. destruct (isspace c) eqn:Hc; simpl.
  - exact IH.
  - split; [|discriminate].
    destruct s as [|d s']; [discriminate|].
    destruct (isspace d); [discriminate|].
    destruct (split (d :: s')); discriminate.
Qed.

Lemma join_app (sep : str) (l1 l2 : list str) :
  l1 <> [] -> l2 <> [] ->
  join sep (l1 ++ l2) = join sep l1 ++ sep ++ join sep l2.
Proof.
  induction l1 as [|x l1 IH]; intros H1 H2; [congruence|].
  destruct l1 as [|y l1'].
  - destruct l2; [congruence | reflexivity].
  - change (join sep ((x :: y :: l1') ++ l2))
      with (x ++ sep ++ join sep ((y :: l1') ++ l2)).
    rewrite IH by (auto; discriminate).
    change (join sep (x :: y :: l1')) with (x ++ sep ++ join sep (y :: l1')).
    now rewrite <- !app_assoc.
Qed.

Lemma join_concat (sep : str) (wins : list (list str)) :
  Forall (fun w => w <> []) wins ->
  join sep (map (join sep) wins) = join sep (concat wins).
Proof.
  induction wins as [|w rest IH]; intros H; [reflexivity|].
  inversion H as [|? ? Hw Hrest]; subst.
  destruct rest as [|w2 rest'].
  - simpl. now rewrite app_nil_r.
  - change (join sep (map (join sep) (w :: w2 :: rest')))
      with (join sep w ++ sep ++ join sep (map (join sep) (w2 :: rest'))).
    rewrite IH by assumption.
    change (concat (w :: w2 :: rest')) with (w ++ concat (w2 :: rest')).
    rewrite join_app; auto.
    inversion Hrest; subst. simpl. destruct w2; [congruence | discriminate].
Qed.

Lemma firstn_plus (A : Type) (a b : nat) (l : list A) :
  firstn (a + b) l = firstn a l ++ firstn b (skipn a l).
Proof.
  revert l; induction a as [|a IH]; intros l; [reflexivity|].
  destruct l as [|x l]; simpl; [now rewrite firstn_nil | now rewrite IH].
Qed.

(* ===================================================================== *)
(** * Chunker: properties *)
(* ===================================================================== *)

Section ChunkerFacts.
Import Chunker.

(** The windows [words[i : i + k]] behind the chunks. *)
Lemma chunk_text_windows (text : str) (K : Z) :
  (0 < K)%Z ->
  chunk_text text K =
  Ok (map (fun j => join [SP]
                      (firstn (Z.to_nat K)
                              (skipn (j * Z.to_nat K) (split text))))
          (seq 0 ((length (split text) + Z.to_nat K - 1) / Z.to_nat K))).
Proof.
  intros HK. unfold chunk_text, range_step.
  destruct (Z.eqb_spec K 0); [lia|].
  destruct (Z.ltb_spec K 0); [lia|].
  rewrite map_map. f_equal. apply map_ext. intros j.
  unfold slice. do 2 f_equal. lia.
Qed.

Lemma windows_concat (A : Type) (k m : nat) (ws : list A) :
  concat (map (fun j => firstn k (skipn (j * k) ws)) (seq 0 m))
  = firstn (m * k) ws.
Proof.
  induction m as [|m IH]; [reflexivity|].
  rewrite seq_S, map_app, concat_app, IH. simpl.
  rewrite app_nil_r. replace (k + m * k) with (m * k + k) by lia.
  now rewrite firstn_plus.
Qed.

Lemma count_bounds (n k : nat) :
  0 < k ->
  n <= ((n + k - 1) / k) * k /\
  (forall j, j < (n + k - 1) / k -> j * k < n).
Proof.
  intros Hk.
  pose proof (Nat.div_mod_eq (n + k - 1) k) as E.
  pose proof (Nat.mod_upper_bound (n + k - 1) k ltac:(lia)) as B.
  split; [nia|]. intros j Hj. nia.
Qed.

Lemma Forall_firstn_skipn (A : Type) (P : A -> Prop) (a b : nat) (l : list A) :
  Forall P l -> Forall P (firstn a (skipn b l)).
Proof.
  intros H.
  assert (Hs : Forall P (skipn b l)).
  { clear a. revert l H. induction b as [|b IH]; intros l H; [exact H|].
    destruct l; [constructor|]. inversion H; subst. now apply IH. }
  revert Hs. generalize (skipn b l). clear.
  induction a as [|a IH]; intros l H; [constructor|].
  destruct l; [constructor|]. inversion H; subst.
  simpl. constructor; auto.
Qed.

(** C4: for every document and every chunk size K > 0, [chunk_text] runs to
    its end and yields a finite sequence of chunks; joining the chunks with
    single spaces gives the document with its white space collapsed
    ([" ".join(text.split())]); every chunk but possibly the last has
    exactly K words, every chunk has between 1 and K words; and a document
    that is empty or all white space yields no chunk at all. *)
Theorem chunk_text_spec (text : str) (K : Z) :
  (0 < K)%Z ->
  exists chunks : list str,
    chunk_text text K = Ok chunks /\
    join [SP] chunks = join [SP] (split text) /\
    (forall i c, nth_error chunks i = Some c -> S i < length chunks ->
                 len (split c) = K) /\
    Forall (fun c => (1 <= len (split c) <= K)%Z) chunks /\
    (forallb isspace text = true -> chunks = []).
Proof.
  intros HK. eexists. split; [apply chunk_text_windows; exact HK|].
  set (ws := split text). set (k := Z.to_nat K).
  set (m := (length ws + k - 1) / k).
  assert (Hk : 0 < k) by (unfold k; lia).
  destruct (count_bounds (length ws) k Hk) as [Hcover Hlow]. fold m in Hcover, Hlow.
  pose proof (split_words text) as Hwords. fold ws in Hwords.
  assert (Hwin : forall j, j < m ->
            split (join [SP] (firstn k (skipn (j * k) ws)))
            = firstn k (skipn (j * k) ws)).
  { intros j _. apply split_join. now apply Forall_firstn_skipn. }
  assert (Hlen : forall j, j < m ->
            length (firstn k (skipn (j * k) ws))
            = Nat.min k (length ws - j * k)).
  { intros j _. now rewrite length_firstn, length_skipn. }
  repeat split.
  - rewrite <- (map_map (fun j => firstn k (skipn (j * k) ws)) (join [SP])).
    rewrite join_concat.
    + rewrite windows_concat. now rewrite firstn_all2 by exact Hcover.
    + apply Forall_forall. intros w Hw. apply in_map_iff in Hw as (j & <- & Hj).
      apply in_seq in Hj. intros E. apply (f_equal (@length _)) in E.
      rewrite Hlen in E by lia. specialize (Hlow j ltac:(lia)). simpl in E. lia.
  - intros i c Hc Hi. rewrite length_map, length_seq in Hi.
    rewrite nth_error_map in Hc.
    rewrite nth_error_seq in Hc.
    destruct (Nat.ltb_spec i m) as [Him|Him]; [|lia]. simpl in Hc.
    injection Hc as <-. unfold len. rewrite Hwin, Hlen by lia.
    specialize (Hlow (S i) Hi). unfold k in *. lia.
  - apply Forall_forall. intros c Hc. apply in_map_iff in Hc as (j & <- & Hj).
    apply in_seq in Hj. unfold len. rewrite Hwin, Hlen by lia.
    specialize (Hlow j ltac:(lia)). unfold k in *. lia.
  - intros Hsp. apply split_nil_iff in Hsp. unfold m, ws. rewrite Hsp.
    simpl. rewrite Nat.div_small by lia. reflexivity.
Qed.

(** The witness: three words in chunks of two. *)
Lemma chunk_text_spec_witness :
  (0 < 2)%Z /\
  exists chunks : list str,
    chunk_text (lit "a  b c") 2 = Ok chunks /\
    join [SP] chunks = join [SP] (split (lit "a  b c")) /\
    (forall i c, nth_error chunks i = Some c -> S i < length chunks ->
                 len (split c) = 2%Z) /\
    Forall (fun c => (1 <= len (split c) <= 2)%Z) chunks /\
    (forallb isspace (lit "a  b c") = true -> chunks = []).
Proof.
  split; [lia | apply (chunk_text_spec (lit "a  b c") 2); lia].
Defined.

Example chunk_text_example :
  chunk_text (lit " one two   three four five ") 2
  = Ok [lit "one two"; lit "three four"; lit "five"].
Proof. reflexivity. Qed.

End ChunkerFacts.

(* ===================================================================== *)
(** * Text Normalizer: properties *)
(* ===================================================================== *)

Lemma str_find_cons (p : str) (c : ascii) (s : str) :
  str_find p (c :: s) =
  if startswith p (c :: s) then Some 0 else option_map S (str_find p s).
Proof. reflexivity. Qed.

Lemma str_find_nil (p : str) :
  str_find p [] = if startswith p [] then Some 0 else None.
Proof. reflexivity. Qed.

Lemma ascii_eqb_eq (a b : ascii) : ascii_eqb a b = true <-> a = b.
Proof. apply Ascii.eqb_eq. Qed.

Lemma str_find_Some (p s : str) (i : nat) :
  str_find p s = Some i ->
  startswith p (skipn i s) = true /\ i <= length s /\
  forall j, j < i -> startswith p (skipn j s) = false.
Proof.
  revert i. induction s as [|c s IH]; intros i.
  - rewrite str_find_nil. destruct (startswith p []) eqn:E; [|discriminate].
    intros [= <-]. repeat split; [exact E | lia | intros; lia].
  - rewrite str_find_cons. destruct (startswith p (c :: s)) eqn:E.
    + intros [= <-]. repeat split; [exact E | simpl; lia | intros; lia].
    + destruct (str_find p s) as [q|]; [|discriminate].
      intros [= <-]. destruct (IH q eq_refl) as (H1 & H2 & H3).
      repeat split; [exact H1 | simpl; lia |].
      intros [|j] Hj; [exact E | apply H3; lia].
Qed.

Lemma str_find_None (p s : str) :
  str_find p s = None ->
  forall j, j <= length s -> startswith p (skipn j s) = false.
Proof.
  induction s as [|c s IH].
  - rewrite str_find_nil. destruct (startswith p []) eqn:E; [discriminate|].
    intros _ j Hj. now destruct j.
  - rewrite str_find_cons. destruct (startswith p (c :: s)) eqn:E;
      [discriminate|].
    destruct (str_find p s); [discriminate|]. intros _ [|j] Hj; [exact E|].
    apply IH; [reflexivity | simpl in Hj; lia].
Qed.

Lemma earliest_Some (ps : list str) (s : str) (i : nat) :
  earliest ps s = Some i ->
  (exists p, In p ps /\ startswith p (skipn i s) = true) /\ i <= length s /\
  forall j p, j < i -> In p ps -> startswith p (skipn j s) = false.
Proof.
  revert i. induction ps as [|p ps IH]; intros i; [discriminate|].
  simpl. destruct (str_find p s) as [a|] eqn:Ea;
    destruct (earliest ps s) as [b|] eqn:Eb; simpl; try discriminate;
    intros [= <-].
  - destruct (str_find_Some _ _ _ Ea) as (A1 & A2 & A3).
    destruct (IH b eq_refl) as ((q & Q1 & Q2) & B2 & B3).
    repeat split.
    + destruct (Nat.le_ge_cases a b).
      * exists p. rewrite Nat.min_l by lia. auto.
      * exists q. rewrite Nat.min_r by lia. auto.
    + lia.
    + intros j p' Hj [<-|Hin]; [apply A3 | apply B3]; auto; lia.
  - destruct (str_find_Some _ _ _ Ea) as (A1 & A2 & A3).
    repeat split; [exists p; auto | lia |].
    intros j p' Hj [<-|Hin]; [apply A3; lia|].
    clear IH. revert p' Hin. induction ps as [|q ps IHps]; [intros ? []|].
    simpl in Eb. destruct (str_find q s) eqn:Eq; [destruct (earliest ps s); discriminate|].
    intros p' [<-|Hin]; [|now apply IHps].
    apply (str_find_None _ _ Eq). lia.
  - destruct (IH b eq_refl) as ((q & Q1 & Q2) & B2 & B3).
    repeat split; [exists q; auto | lia |].
    intros j p' Hj [<-|Hin]; [|now apply B3].
    apply (str_find_None _ _ Ea). lia.
Qed.

Lemma earliest_None (ps : list str) (s : str) :
  earliest ps s = None ->
  forall j p, j <= length s -> In p ps -> startswith p (skipn j s) = false.
Proof.
  induction ps as [|q ps IH]; [intros _ ? ? ? []|].
  simpl. destruct (str_find q s) eqn:Eq; [destruct (earliest ps s); discriminate|].
  simpl. intros E j p Hj [<-|Hin]; [|now apply IH].
  now apply (str_find_None _ _ Eq).
Qed.

Lemma min_opt_assoc (a b c : option nat) :
  min_opt (min_opt a b) c = min_opt a (min_opt b c).
Proof.
  destruct a, b, c; simpl; try reflexivity. now rewrite Nat.min_assoc.
Qed.

(** Cutting at a line feed does not change whether what follows the line
    feed of a marker is there. *)
Lemma startswith_tail_cut (r s : str) (i : nat) :
  ~ In NL r -> cut_ok i s ->
  startswith r (firstn i s) = startswith r s.
Proof.
  revert s i. induction r as [|y r IH]; intros s i Hr Hcut; [now destruct (firstn i s), s|].
  destruct s as [|d s]; [now rewrite firstn_nil|].
  destruct i as [|i].
  - simpl. destruct Hcut as [H|[t H]]; [discriminate|].
    simpl in H. injection H as -> _.
    destruct (ascii_eqb y NL) eqn:E; [|reflexivity].
    apply ascii_eqb_eq in E. subst. exfalso. apply Hr. now left.
  - simpl. f_equal. apply IH; [|exact Hcut].
    intros H. apply Hr. now right.
Qed.

Lemma startswith_marker_cut (m : str) (c : ascii) (s : str) (i : nat) :
  nl_headed m -> cut_ok i s ->
  startswith m (c :: firstn i s) = startswith m (c :: s).
Proof.
  intros (r & -> & Hr) Hcut. simpl. f_equal. now apply startswith_tail_cut.
Qed.

Lemma str_find_cut (m s : str) (i : nat) :
  nl_headed m -> cut_ok i s ->
  str_find m (firstn i s) =
  match str_find m s with
  | Some q => if q <? i then Some q else None
  | None => None
  end.
Proof.
  intros Hm. revert i. induction s as [|c s IH]; intros i Hcut.
  - rewrite firstn_nil. destruct Hm as (r & -> & _). reflexivity.
  - destruct i as [|i].
    + simpl firstn. destruct Hm as (r & -> & _).
      rewrite str_find_nil. simpl startswith.
      destruct (str_find (NL :: r) (c :: s)); reflexivity.
    + simpl firstn. rewrite !str_find_cons.
      rewrite (startswith_marker_cut m c s i Hm Hcut).
      destruct (startswith m (c :: s)); [reflexivity|].
      rewrite (IH i Hcut). destruct (str_find m s) as [q|]; [|reflexivity].
      simpl. change (S q <? S i) with (q <? i). now destruct (q <? i).
Qed.

Lemma cut_at_find (s m : str) :
  Normalizer.cut_at s m = truncate_at (str_find m s) s.
Proof.
  unfold Normalizer.cut_at, contains, split_head, slice_to.
  now destruct (str_find m s).
Qed.

Lemma find_cut_ok (m s : str) (q : nat) :
  nl_headed m -> str_find m s = Some q -> cut_ok q s.
Proof.
  intros (r & -> & _) H. apply str_find_Some in H as (H & _ & _).
  right. destruct (skipn q s) as [|d t]; [discriminate|].
  simpl in H. apply andb_true_iff in H as [H _].
  apply ascii_eqb_eq in H. subst. now exists t.
Qed.

Lemma cut_at_step (s m : str) (o : option nat) :
  nl_headed m -> cut_inv o s ->
  Normalizer.cut_at (truncate_at o s) m
  = truncate_at (min_opt o (str_find m s)) s /\
  cut_inv (min_opt o (str_find m s)) s.
Proof.
  intros Hm Hinv. rewrite cut_at_find. destruct o as [i|]; simpl.
  - simpl in Hinv. rewrite (str_find_cut m s i Hm Hinv).
    destruct (str_find m s) as [q|] eqn:Eq; simpl; [|auto].
    destruct (Nat.ltb_spec q i); simpl.
    + rewrite firstn_firstn. rewrite Nat.min_comm. split; [reflexivity|].
      rewrite Nat.min_r by lia. exact (find_cut_ok m s _ Hm Eq).
    + rewrite Nat.min_l by lia. auto.
  - split; [reflexivity|]. destruct (str_find m s) eqn:Eq; simpl; [|exact I].
    exact (find_cut_ok m s _ Hm Eq).
Qed.

Lemma fold_cut_at (ms : list str) (s : str) (o : option nat) :
  Forall nl_headed ms -> cut_inv o s ->
  fold_left Normalizer.cut_at ms (truncate_at o s)
  = truncate_at (min_opt o (earliest ms s)) s.
Proof.
  revert o. induction ms as [|m ms IH]; intros o Hms Hinv.
  - simpl. now destruct o.
  - inversion Hms; subst. simpl fold_left.
    destruct (cut_at_step s m o) as [E I]; auto.
    rewrite E, IH by assumption. simpl. now rewrite min_opt_assoc.
Qed.

Lemma markers_nl_headed : Forall nl_headed Normalizer.markers.
Proof.
  unfold Normalizer.markers.
  repeat constructor; eexists; (split; [reflexivity|]);
    simpl; intros H; repeat destruct H as [H|H]; try discriminate; exact H.
Qed.

Section NormalizerFacts.
Context {L : Libraries}.
Import Normalizer.

Lemma strip_quoted_and_signature_earliest (body : str) :
  strip_quoted_and_signature body
  = strip (truncate_at (earliest markers (unquoted (reply_fragments body)))
                       (unquoted (reply_fragments body))).
Proof.
  unfold strip_quoted_and_signature. f_equal.
  exact (fold_cut_at markers _ None markers_nl_headed I).
Qed.

(** C7: for every raw body, the normalizer joins the fragments that are not
    quoted with line feeds, in their order, cuts the text at the first
    place where one of the markers (line feed followed by [--], [Thanks],
    [Best regards] or [Sent from my]) occurs as a literal substring, and
    trims white space at both ends: no marker occurs before the cut, and the
    cut is at a marker or, when no marker occurs, at the end of the text. *)
Theorem strip_quoted_and_signature_spec (body : str) :
  unquoted (reply_fragments body)
  = join [NL] (map content
                   (filter (fun f => negb (quoted f)) (reply_fragments body)))
  /\
  markers = [NL :: lit "--"; NL :: lit "Thanks"; NL :: lit "Best regards";
             NL :: lit "Sent from my"] /\
  exists cut : nat,
    strip_quoted_and_signature body
    = strip (slice_to cut (unquoted (reply_fragments body))) /\
    cut <= length (unquoted (reply_fragments body)) /\
    (forall j m, j < cut -> In m markers ->
       startswith m (skipn j (unquoted (reply_fragments body))) = false) /\
    (cut = length (unquoted (reply_fragments body)) \/
     exists m, In m markers /\
       startswith m (skipn cut (unquoted (reply_fragments body))) = true).
Proof.
  split; [reflexivity|]. split; [reflexivity|].
  rewrite strip_quoted_and_signature_earliest.
  set (cleaned := unquoted (reply_fragments body)).
  destruct (earliest markers cleaned) as [i|] eqn:E.
  - apply earliest_Some in E as (Hocc & Hle & Hbefore).
    exists i. simpl. repeat split; auto.
  - exists (length cleaned). simpl. unfold slice_to. rewrite firstn_all.
    repeat split; auto.
    intros j m Hj Hm. apply (earliest_None _ _ E); [lia | exact Hm].
Qed.

End NormalizerFacts.

(** The scenario of the specification: the body stops before [Thanks]. *)
Example strip_signature_example :
  Normalizer.strip_quoted_and_signature
    (lit "Hi Bob," ++ [NL] ++ lit "see you." ++ [NL] ++ lit "Thanks,"
     ++ [NL] ++ lit "Alice")
  = lit "Hi Bob," ++ [NL] ++ lit "see you.".
Proof. reflexivity. Qed.

(** Every marker is tried, also after one has matched: a marker that comes
    later in the list but earlier in the text decides the cut. *)
Example strip_earliest_marker_example :
  Normalizer.strip_quoted_and_signature
    (lit "hi" ++ [NL] ++ lit "Thanks" ++ [NL] ++ lit "Bob" ++ [NL]
     ++ lit "-- sig")
  = lit "hi".
Proof. reflexivity. Qed.

(* ===================================================================== *)
(** * Attachment Extractor: properties *)
(* ===================================================================== *)

Section ExtractorFacts.
Context {L : Libraries}.
Import Extractor.

Lemma pages_loop_nil (pages : list page_outcome) (text : str) (seen : list nat) :
  pages_loop pages [] text seen = (text, seen).
Proof. reflexivity. Qed.

Lemma pages_loop_text (pages : list page_outcome) (i : nat) (rest : list nat)
    (text : str) (seen : list nat) (o : page_outcome) :
  nth_error pages i = Some o -> skip_failed o = o ->
  pages_loop pages (i :: rest) text seen =
  if (TEXT_LIMIT <? len (text ++ page_chunk o))%Z
  then (slice_to (Z.to_nat TEXT_LIMIT) (text ++ page_chunk o)
          ++ TRUNCATION_MARKER, seen ++ [i])
  else pages_loop pages rest (text ++ page_chunk o) (seen ++ [i]).
Proof.
  intros Hi Ho. cbn [pages_loop]. rewrite Hi.
  destruct o as [[[|c t]|]|e]; try discriminate;
    cbn [page_chunk]; rewrite ?app_nil_r; reflexivity.
Qed.

Lemma pages_loop_raises (pages : list page_outcome) (i : nat)
    (rest : list nat) (text : str) (seen : list nat) (e : exn) :
  nth_error pages i = Some (PageRaises e) ->
  pages_loop pages (i :: rest) text seen
  = pages_loop pages rest text (seen ++ [i]).
Proof. intros Hi. cbn [pages_loop]. now rewrite Hi. Qed.

Lemma pages_loop_out_of_range (pages : list page_outcome) (i : nat)
    (rest : list nat) (text : str) (seen : list nat) :
  nth_error pages i = None ->
  pages_loop pages (i :: rest) text seen
  = pages_loop pages rest text (seen ++ [i]).
Proof. intros Hi. cbn [pages_loop]. now rewrite Hi. Qed.

Lemma skip_failed_idem (o : page_outcome) :
  skip_failed (skip_failed o) = skip_failed o.
Proof. now destruct o. Qed.

(** A page that raises counts as a page without text, nothing more. *)
Lemma pages_loop_skip_failed (pages : list page_outcome) (todo : list nat)
    (text : str) (seen : list nat) :
  (len text <= TEXT_LIMIT)%Z ->
  pages_loop pages todo text seen
  = pages_loop (map skip_failed pages) todo text seen.
Proof.
  revert text seen. induction todo as [|i rest IH]; intros text seen Hle;
    [reflexivity|].
  destruct (nth_error pages i) as [o|] eqn:Hi.
  - assert (Hm : nth_error (map skip_failed pages) i = Some (skip_failed o))
      by (rewrite nth_error_map, Hi; reflexivity).
    rewrite (pages_loop_text _ _ _ _ _ _ Hm (skip_failed_idem o)).
    destruct o as [t|e].
    + rewrite (pages_loop_text _ _ _ _ _ _ Hi eq_refl). cbn [skip_failed].
      destruct (Z.ltb_spec TEXT_LIMIT (len (text ++ page_chunk (PageText t))));
        [reflexivity | now apply IH].
    + rewrite (pages_loop_raises _ _ _ _ _ _ Hi). cbn [skip_failed page_chunk].
      rewrite app_nil_r.
      destruct (Z.ltb_spec TEXT_LIMIT (len text)); [lia | now apply IH].
  - rewrite (pages_loop_out_of_range _ _ _ _ _ Hi).
    assert (Hm : nth_error (map skip_failed pages) i = None)
      by (rewrite nth_error_map, Hi; reflexivity).
    rewrite (pages_loop_out_of_range _ _ _ _ _ Hm). now apply IH.
Qed.

Lemma len_app (A : Type) (a b : list A) : len (a ++ b) = (len a + len b)%Z.
Proof. unfold len. rewrite length_app. lia. Qed.

Lemma len_truncated (text : str) :
  (TEXT_LIMIT < len text)%Z ->
  len (slice_to (Z.to_nat TEXT_LIMIT) text) = TEXT_LIMIT /\
  len (slice_to (Z.to_nat TEXT_LIMIT) text ++ TRUNCATION_MARKER)
  = (TEXT_LIMIT + len TRUNCATION_MARKER)%Z.
Proof.
  intros H. rewrite len_app. unfold len, slice_to in *.
  rewrite length_firstn. unfold TEXT_LIMIT in *. lia.
Qed.

(** The invariant of the loop: from a text within the limit it ends with a
    text within the limit or with a text cut to the limit and marked, and
    it has asked for a prefix of the pages it was given to read. *)
Lemma pages_loop_inv (pages : list page_outcome) (todo : list nat)
    (text : str) (seen : list nat) :
  (len text <= TEXT_LIMIT)%Z ->
  ((len (fst (pages_loop pages todo text seen)) <= TEXT_LIMIT)%Z \/
   exists full, (TEXT_LIMIT < len full)%Z /\
     fst (pages_loop pages todo text seen)
     = slice_to (Z.to_nat TEXT_LIMIT) full ++ TRUNCATION_MARKER) /\
  exists k, snd (pages_loop pages todo text seen) = seen ++ firstn k todo.
Proof.
  revert text seen. induction todo as [|i rest IH]; intros text seen Hle.
  - split; [left; exact Hle | exists 0; simpl; now rewrite app_nil_r].
  - rewrite (pages_loop_skip_failed pages (i :: rest) text seen Hle).
    destruct (nth_error (map skip_failed pages) i) as [o|] eqn:Hi.
    + assert (Ho : skip_failed o = o).
      { rewrite nth_error_map in Hi. destruct (nth_error pages i); [|discriminate].
        injection Hi as <-. apply skip_failed_idem. }
      rewrite (pages_loop_text _ _ _ _ _ _ Hi Ho).
      destruct (Z.ltb_spec TEXT_LIMIT (len (text ++ page_chunk o))) as [Hgt|Hok].
      * split; [right; eexists; split; [exact Hgt | reflexivity]|].
        exists 1. reflexivity.
      * rewrite <- (pages_loop_skip_failed pages rest _ (seen ++ [i]) Hok).
        destruct (IH (text ++ page_chunk o) (seen ++ [i]) Hok) as [H1 [k H2]].
        split; [exact H1|]. exists (S k). rewrite H2. simpl.
        now rewrite <- app_assoc.
    + rewrite (pages_loop_out_of_range _ _ _ _ _ Hi).
      rewrite <- (pages_loop_skip_failed pages rest _ (seen ++ [i]) Hle).
      destruct (IH text (seen ++ [i]) Hle) as [H1 [k H2]].
      split; [exact H1|]. exists (S k). rewrite H2. simpl.
      now rewrite <- app_assoc.
Qed.

Lemma firstn_seq (k a m : nat) : firstn k (seq a m) = seq a (Nat.min k m).
Proof.
  revert a m. induction k as [|k IH]; intros a [|m]; try reflexivity.
  simpl. now rewrite IH.
Qed.

Lemma len_pdf_failed (e : exn) : (len (pdf_failed e) <= 125)%Z.
Proof.
  unfold pdf_failed. rewrite !len_app. unfold slice_to.
  change (len (lit "[PDF processing failed: ")) with 24%Z.
  change (len (lit "]")) with 1%Z.
  unfold len. rewrite length_firstn. lia.
Qed.

Lemma len_docx_failed (e : exn) : (len (docx_failed e) <= 126)%Z.
Proof.
  unfold docx_failed. rewrite !len_app. unfold slice_to.
  change (len (lit "[DOCX processing failed: ")) with 25%Z.
  change (len (lit "]")) with 1%Z.
  unfold len. rewrite length_firstn. lia.
Qed.

Lemma len_marker : len TRUNCATION_MARKER = 38%Z.
Proof. reflexivity. Qed.

(** The loop of [extract_pages] never raises, reads the pages 0, 1, ... in
    order and no more than 50 of them, and keeps the text bounded. *)
Lemma extract_pages_bounded (reader : pdf_reader) (pages : list page_outcome) :
  pdf_pages reader = Ok pages ->
  exists text k,
    extract_pages reader = Ok (text, seq 0 k) /\
    k <= Nat.min PAGE_LIMIT (length pages) /\
    (len text <= TEXT_LIMIT + len TRUNCATION_MARKER)%Z.
Proof.
  intros Hp. unfold extract_pages. rewrite Hp. cbn [bind].
  set (m := Nat.min PAGE_LIMIT (length pages)).
  destruct (pages_loop_inv pages (seq 0 m) [] []) as [Hfst [k Hsnd]];
    [unfold len, TEXT_LIMIT; simpl; lia|].
  exists (fst (pages_loop pages (seq 0 m) [] [])), (Nat.min k m).
  split; [|split].
  - rewrite <- firstn_seq. rewrite <- (app_nil_l (firstn k (seq 0 m))).
    rewrite <- Hsnd. now destruct (pages_loop pages (seq 0 m) [] []).
  - lia.
  - destruct Hfst as [H|(full & Hfull & ->)].
    + rewrite len_marker. lia.
    + destruct (len_truncated full Hfull) as [_ ->]. lia.
Qed.

Lemma extract_pdf_total (data : bytes) :
  exists text read, extract_pdf data = Ok (text, read).
Proof.
  unfold extract_pdf.
  destruct (PdfReader data) as [reader|e]; cbn [bind try_except]; [|eauto].
  destruct (pdf_metadata reader) as [md|e]; cbn [bind try_except]; [|eauto].
  destruct (pdf_pages reader) as [pages|e] eqn:Hp.
  - destruct (extract_pages_bounded reader pages Hp) as (text & k & E & _).
    rewrite E. cbn [try_except]. eauto.
  - unfold extract_pages. rewrite Hp. cbn [bind try_except]. eauto.
Qed.

Lemma skipn_nth_error (A : Type) (l : list A) (a : nat) (x : A) :
  nth_error l a = Some x -> skipn a l = x :: skipn (S a) l.
Proof.
  revert a. induction l as [|y l IH]; intros [|a] H; try discriminate.
  - now injection H as ->.
  - cbn [skipn]. now apply IH.
Qed.

Lemma assemble_small (text : str) :
  (len text <= TEXT_LIMIT)%Z -> assemble text = text.
Proof.
  intros H. unfold assemble.
  destruct (Z.ltb_spec TEXT_LIMIT (len text)); [lia | reflexivity].
Qed.

Lemma assemble_prefix (text more : str) :
  (TEXT_LIMIT < len text)%Z ->
  assemble (text ++ more)
  = slice_to (Z.to_nat TEXT_LIMIT) text
    ++ TRUNCATION_MARKER.
Proof.
  intros H. unfold assemble. rewrite len_app.
  destruct (Z.ltb_spec TEXT_LIMIT (len text + len more));
    [|unfold len in *; lia].
  unfold slice_to. rewrite firstn_app.
  replace (Z.to_nat TEXT_LIMIT - length text) with 0
    by (unfold len in H; lia).
  cbn [firstn]. now rewrite app_nil_r.
Qed.

(** The page loop in closed form: the texts of the pages, each followed by
    a line feed, put end to end and cut once. *)
Lemma pages_loop_closed (pages : list page_outcome) (n : nat) :
  forall a text seen,
    a + n <= length pages ->
    (len text <= TEXT_LIMIT)%Z ->
    fst (pages_loop pages (seq a n) text seen)
    = assemble (text ++ concat (map page_chunk (firstn n (skipn a pages)))).
Proof.
  induction n as [|n IH]; intros a text seen Ha Hle.
  - cbn [seq firstn map concat pages_loop fst].
    now rewrite app_nil_r, assemble_small.
  - cbn [seq].
    destruct (nth_error pages a) as [o|] eqn:Hnth;
      [|apply nth_error_None in Hnth; lia].
    rewrite (skipn_nth_error _ _ _ _ Hnth). cbn [firstn map concat].
    rewrite app_assoc. destruct o as [t|e].
    + rewrite (pages_loop_text _ _ _ _ _ _ Hnth eq_refl).
      destruct (Z.ltb_spec TEXT_LIMIT
                  (len (text ++ page_chunk (PageText t)))) as [Hgt|Hok].
      * cbn [fst]. now rewrite assemble_prefix.
      * apply IH; [lia | exact Hok].
    + rewrite (pages_loop_raises _ _ _ _ _ _ Hnth). cbn [page_chunk].
      rewrite app_nil_r. apply IH; [lia | exact Hle].
Qed.

Lemma pages_loop_read (pages : list page_outcome) (n : nat) :
  forall a text seen,
    a + n <= length pages ->
    (len text <= TEXT_LIMIT)%Z ->
    snd (pages_loop pages (seq a n) text seen)
    = seen ++ seq a (pages_until (map page_chunk (firstn n (skipn a pages)))
                                 (len text)).
Proof.
  induction n as [|n IH]; intros a text seen Ha Hle.
  - cbn [seq firstn map pages_until pages_loop snd]. now rewrite app_nil_r.
  - cbn [seq].
    destruct (nth_error pages a) as [o|] eqn:Hnth;
      [|apply nth_error_None in Hnth; lia].
    rewrite (skipn_nth_error _ _ _ _ Hnth). cbn [firstn map pages_until].
    rewrite <- len_app. destruct o as [t|e].
    + rewrite (pages_loop_text _ _ _ _ _ _ Hnth eq_refl).
      destruct (Z.ltb_spec TEXT_LIMIT (len (text ++ page_chunk (PageText t))))
        as [Hgt|Hok]; [reflexivity|].
      rewrite IH; [|lia | exact Hok].
      rewrite <- app_assoc. reflexivity.
    + rewrite (pages_loop_raises _ _ _ _ _ _ Hnth). cbn [page_chunk].
      rewrite app_nil_r.
      destruct (Z.ltb_spec TEXT_LIMIT (len text)) as [Hgt|_]; [lia|].
      rewrite IH; [|lia | exact Hle].
      rewrite <- app_assoc. reflexivity.
Qed.

Lemma pages_until_le (chunks : list str) :
  forall l, pages_until chunks l <= length chunks.
Proof.
  induction chunks as [|c rest IH]; intros l; cbn [pages_until length];
    [lia|].
  destruct (TEXT_LIMIT <? l + len c)%Z; [lia|]. specialize (IH (l + len c)%Z).
  lia.
Qed.

(** The loop stops after the first page with which the text exceeds the
    limit, and not before. *)
Lemma pages_until_spec (chunks : list str) :
  forall l,
    (l <= TEXT_LIMIT)%Z ->
    (forall j, j < pages_until chunks l ->
       (l + len (concat (firstn j chunks)) <= TEXT_LIMIT)%Z) /\
    ((pages_until chunks l = length chunks /\
      (l + len (concat chunks) <= TEXT_LIMIT)%Z) \/
     (TEXT_LIMIT < l + len (concat (firstn (pages_until chunks l) chunks)))%Z).
Proof.
  induction chunks as [|c rest IH]; intros l Hl.
  - cbn [pages_until length concat firstn]. split; [intros j Hj; lia|].
    left. split; [reflexivity|]. change (len (@nil ascii)) with 0%Z. lia.
  - cbn [pages_until].
    destruct (Z.ltb_spec TEXT_LIMIT (l + len c)) as [Hgt|Hok].
    + split.
      * intros j Hj. assert (j = 0) as -> by lia. cbn [firstn concat].
        change (len (@nil ascii)) with 0%Z. lia.
      * right. cbn [firstn concat]. rewrite app_nil_r. exact Hgt.
    + destruct (IH (l + len c)%Z Hok) as [Hbefore Hend]. split.
      * intros [|j] Hj.
        -- cbn [firstn concat]. change (len (@nil ascii)) with 0%Z. lia.
        -- cbn [firstn concat]. rewrite len_app.
           specialize (Hbefore j ltac:(lia)). lia.
      * cbn [length firstn concat]. rewrite !len_app.
        destruct Hend as [[Hk Hle]|Hgt]; [left | right]; [|lia].
        split; [now rewrite Hk | lia].
Qed.

Lemma page_chunks_skip_failed (pages : list page_outcome) :
  page_chunks (map skip_failed pages) = page_chunks pages.
Proof.
  unfold page_chunks. rewrite firstn_map, map_map. apply map_ext.
  now intros [t|e].
Qed.

Lemma page_chunks_firstn (pages : list page_outcome) :
  map page_chunk
    (firstn (Nat.min PAGE_LIMIT (length pages)) (skipn 0 pages))
  = page_chunks pages.
Proof.
  unfold page_chunks. cbn [skipn]. f_equal.
  destruct (Nat.le_ge_cases PAGE_LIMIT (length pages)) as [H|H].
  - now rewrite Nat.min_l.
  - rewrite Nat.min_r by exact H. now rewrite !firstn_all2.
Qed.

(** [extract_pages] in closed form: the text and the pages read. *)
Lemma extract_pages_closed (reader : pdf_reader) (pages : list page_outcome) :
  pdf_pages reader = Ok pages ->
  extract_pages reader
  = Ok (assemble (concat (page_chunks pages)), seq 0 (read_count pages)).
Proof.
  intros Hp. unfold extract_pages. rewrite Hp. cbn [bind]. f_equal.
  set (m := Nat.min PAGE_LIMIT (length pages)).
  assert (Hm : 0 + m <= length pages) by (cbn [Nat.add]; apply Nat.le_min_r).
  assert (H0 : (len (@nil ascii) <= TEXT_LIMIT)%Z) by discriminate.
  pose proof (pages_loop_closed pages m 0 [] [] Hm H0) as Hfst.
  pose proof (pages_loop_read pages m 0 [] [] Hm H0) as Hsnd.
  unfold m in Hfst, Hsnd. rewrite page_chunks_firstn in Hfst, Hsnd.
  cbn [app] in Hfst, Hsnd. fold m in Hfst, Hsnd.
  destruct (pages_loop pages (seq 0 m) [] []) as [text seen].
  cbn [fst snd] in Hfst, Hsnd. now subst.
Qed.

Lemma read_count_le (pages : list page_outcome) :
  read_count pages <= Nat.min PAGE_LIMIT (length pages).
Proof.
  unfold read_count. pose proof (pages_until_le (page_chunks pages) 0) as H.
  unfold page_chunks in *. rewrite length_map, length_firstn in H. exact H.
Qed.

Lemma assemble_cases (chunks : list str) (k : nat) :
  (TEXT_LIMIT < len (concat (firstn k chunks)))%Z ->
  assemble (concat chunks)
  = slice_to (Z.to_nat TEXT_LIMIT) (concat (firstn k chunks))
    ++ TRUNCATION_MARKER /\
  len (slice_to (Z.to_nat TEXT_LIMIT) (concat (firstn k chunks)))
  = TEXT_LIMIT.
Proof.
  intros H. split.
  - rewrite <- (firstn_skipn k chunks) at 1. rewrite concat_app.
    now apply assemble_prefix.
  - now apply len_truncated.
Qed.

Lemma inline_pdf_cases (data : bytes) :
  (forall e, PdfReader data = Raise e ->
     Walker.inline_pdf data = Ok (pdf_failed e)) /\
  (forall reader e, PdfReader data = Ok reader ->
     pdf_pages reader = Raise e ->
     Walker.inline_pdf data = Ok (pdf_failed e)) /\
  (forall reader pages, PdfReader data = Ok reader ->
     pdf_pages reader = Ok pages ->
     Walker.inline_pdf data = Ok (assemble (concat (page_chunks pages)))).
Proof.
  unfold Walker.inline_pdf. repeat split.
  - intros e ->. reflexivity.
  - intros reader e -> H. cbn [bind]. unfold extract_pages. rewrite H.
    reflexivity.
  - intros reader pages -> H. cbn [bind].
    rewrite (extract_pages_closed reader pages H). reflexivity.
Qed.

Lemma extract_pdf_closed (data : bytes) (reader : pdf_reader)
    (md : option (list (str * str))) (pages : list page_outcome) :
  PdfReader data = Ok reader -> pdf_metadata reader = Ok md ->
  pdf_pages reader = Ok pages ->
  extract_pdf data
  = Ok (assemble (concat (page_chunks pages)), seq 0 (read_count pages)).
Proof.
  intros Hr Hmd Hp. unfold extract_pdf. rewrite Hr. cbn [bind].
  rewrite Hmd. cbn [bind]. rewrite (extract_pages_closed reader pages Hp).
  reflexivity.
Qed.

(** C3: for every PDF input, the extraction reads the pages 0, 1, ... in
    order and at most the first 50 of them, and what it returns is never
    longer than 100,000 characters plus the truncation marker.  When the
    document opens, the text is, in the standalone extractor and in the
    copy inside [walk_parts] alike, the texts of the first 50 pages, each
    followed by a line feed, put end to end and cut once: pages beyond the
    50th add nothing.  The loop reads the pages up to the first one with
    which the text exceeds 100,000 characters and none after it: before
    that page the text is within the limit; with it, the text is cut to
    exactly 100,000 characters, the marker is appended and the pages that
    remain are not asked for.  A page whose extraction raises is skipped:
    the result is the one of the same document with that page empty, the
    text of the other pages is kept and the loop goes on. *)
Theorem pdf_extraction_bounded (data : bytes) :
  (exists text k,
     extract_pdf data = Ok (text, seq 0 k) /\
     pages_read data = seq 0 k /\
     k <= PAGE_LIMIT /\
     (len text <= TEXT_LIMIT + len TRUNCATION_MARKER)%Z /\
     (forall filename, is_pdf filename = true ->
        extract_data data filename = Ok text)) /\
  (exists text,
     Walker.inline_pdf data = Ok text /\
     (len text <= TEXT_LIMIT + len TRUNCATION_MARKER)%Z) /\
  PAGE_LIMIT = 50 /\ TEXT_LIMIT = 100000%Z /\
  (forall reader pages,
     PdfReader data = Ok reader -> pdf_pages reader = Ok pages ->
     extract_pages reader
     = Ok (assemble (concat (page_chunks pages)), seq 0 (read_count pages)) /\
     Walker.inline_pdf data = Ok (assemble (concat (page_chunks pages))) /\
     (forall md, pdf_metadata reader = Ok md ->
        extract_pdf data
        = Ok (assemble (concat (page_chunks pages)),
              seq 0 (read_count pages)) /\
        pages_read data = seq 0 (read_count pages) /\
        (forall filename, is_pdf filename = true ->
           extract_data data filename
           = Ok (assemble (concat (page_chunks pages))))) /\
     page_chunks pages = map page_chunk (firstn 50 pages) /\
     read_count pages <= Nat.min 50 (length pages) /\
     (forall j, j < read_count pages ->
        (len (concat (firstn j (page_chunks pages))) <= TEXT_LIMIT)%Z) /\
     ((read_count pages = Nat.min 50 (length pages) /\
       (len (concat (page_chunks pages)) <= TEXT_LIMIT)%Z /\
       assemble (concat (page_chunks pages)) = concat (page_chunks pages)) \/
      ((TEXT_LIMIT
        < len (concat (firstn (read_count pages) (page_chunks pages))))%Z /\
       assemble (concat (page_chunks pages))
       = slice_to (Z.to_nat TEXT_LIMIT)
           (concat (firstn (read_count pages) (page_chunks pages)))
         ++ TRUNCATION_MARKER /\
       len (slice_to (Z.to_nat TEXT_LIMIT)
              (concat (firstn (read_count pages) (page_chunks pages))))
       = TEXT_LIMIT))) /\
  (forall reader reader' pages,
     pdf_pages reader = Ok pages ->
     pdf_pages reader' = Ok (map skip_failed pages) ->
     extract_pages reader = extract_pages reader') /\
  (forall pages i rest text seen t,
     nth_error pages i = Some (PageText (Some t)) -> t <> [] ->
     (TEXT_LIMIT < len (text ++ t ++ [NL]))%Z ->
     pages_loop pages (i :: rest) text seen
     = (slice_to (Z.to_nat TEXT_LIMIT) (text ++ t ++ [NL])
          ++ TRUNCATION_MARKER, seen ++ [i]) /\
     len (slice_to (Z.to_nat TEXT_LIMIT) (text ++ t ++ [NL])) = TEXT_LIMIT) /\
  (forall pages i rest text seen e,
     nth_error pages i = Some (PageRaises e) ->
     pages_loop pages (i :: rest) text seen
     = pages_loop pages rest text (seen ++ [i])).
Proof.
  split; [|split; [|split; [reflexivity|split; [reflexivity|
    split; [|split; [|split]]]]]].
  - assert (H : exists text k,
               extract_pdf data = Ok (text, seq 0 k) /\ k <= PAGE_LIMIT /\
               (len text <= TEXT_LIMIT + len TRUNCATION_MARKER)%Z).
    { assert (Hfail : forall e, exists text k,
                Ok (pdf_failed e, @nil nat) = Ok (text, seq 0 k) /\
                k <= PAGE_LIMIT /\
                (len text <= TEXT_LIMIT + len TRUNCATION_MARKER)%Z).
      { intros e. exists (pdf_failed e), 0. repeat split.
        - unfold PAGE_LIMIT. lia.
        - pose proof (len_pdf_failed e). rewrite len_marker.
          unfold TEXT_LIMIT. lia. }
      unfold extract_pdf.
      destruct (PdfReader data) as [reader|e]; cbn [bind try_except];
        [|apply Hfail].
      destruct (pdf_metadata reader) as [md|e]; cbn [bind try_except];
        [|apply Hfail].
      destruct (pdf_pages reader) as [pages|e] eqn:Hp.
      - destruct (extract_pages_bounded reader pages Hp)
          as (text & k & E & Hk & Hlen).
        rewrite E. cbn [try_except]. exists text, k. repeat split; auto. lia.
      - unfold extract_pages. rewrite Hp. cbn [bind try_except]. apply Hfail. }
    destruct H as (text & k & E & Hk & Hlen).
    exists text, k. repeat split; auto.
    + unfold pages_read. now rewrite E.
    + intros filename Hpdf. unfold extract_data. rewrite Hpdf, E. reflexivity.
  - unfold Walker.inline_pdf.
    destruct (PdfReader data) as [reader|e]; cbn [bind try_except].
    + destruct (pdf_pages reader) as [pages|e] eqn:Hp.
      * destruct (extract_pages_bounded reader pages Hp)
          as (text & k & E & _ & Hlen).
        rewrite E. cbn [bind try_except fst]. eauto.
      * unfold extract_pages. rewrite Hp. cbn [bind try_except].
        eexists. split; [reflexivity|].
        pose proof (len_pdf_failed e). rewrite len_marker.
        unfold TEXT_LIMIT. lia.
    + eexists. split; [reflexivity|].
      pose proof (len_pdf_failed e). rewrite len_marker.
      unfold TEXT_LIMIT. lia.
  - intros reader pages Hr Hp.
    split; [exact (extract_pages_closed reader pages Hp)|].
    split; [exact (proj2 (proj2 (inline_pdf_cases data)) reader pages Hr Hp)|].
    split.
    { intros md Hmd.
      pose proof (extract_pdf_closed data reader md pages Hr Hmd Hp) as E.
      split; [exact E|]. split; [unfold pages_read; now rewrite E|].
      intros filename Hpdf. unfold extract_data. rewrite Hpdf, E.
      reflexivity. }
    split; [reflexivity|]. split; [exact (read_count_le pages)|].
    assert (H0 : (0 <= TEXT_LIMIT)%Z) by discriminate.
    destruct (pages_until_spec (page_chunks pages) 0 H0) as [Hbefore Hend].
    split; [intros j Hj; exact (Hbefore j Hj)|].
    destruct Hend as [[Hk Hle]|Hgt].
    + left. split.
      * unfold read_count. rewrite Hk. unfold page_chunks.
        now rewrite length_map, length_firstn.
      * split; [exact Hle | now apply assemble_small].
    + right. split; [exact Hgt|]. now apply assemble_cases.
  - intros reader reader' pages Hp Hp'.
    rewrite (extract_pages_closed reader pages Hp).
    rewrite (extract_pages_closed reader' _ Hp').
    unfold read_count. now rewrite page_chunks_skip_failed.
  - intros pages i rest text seen t Hi Ht Hgt.
    destruct t as [|c t]; [congruence|].
    rewrite (pages_loop_text _ _ _ _ _ _ Hi eq_refl).
    change (page_chunk (PageText (Some (c :: t)))) with ((c :: t) ++ [NL]).
    apply Z.ltb_lt in Hgt as Hb. rewrite Hb.
    split; [reflexivity|]. now apply len_truncated.
  - intros pages i rest text seen e Hi. now apply pages_loop_raises with e.
Qed.

Lemma extract_pdf_cases (data : bytes) :
  (forall e, PdfReader data = Raise e ->
     extract_pdf data = Ok (pdf_failed e, [])) /\
  (forall reader e, PdfReader data = Ok reader ->
     pdf_metadata reader = Raise e ->
     extract_pdf data = Ok (pdf_failed e, [])) /\
  (forall reader md e, PdfReader data = Ok reader ->
     pdf_metadata reader = Ok md -> pdf_pages reader = Raise e ->
     extract_pdf data = Ok (pdf_failed e, [])) /\
  (forall reader md pages, PdfReader data = Ok reader ->
     pdf_metadata reader = Ok md -> pdf_pages reader = Ok pages ->
     extract_pdf data
     = Ok (pages_loop (map skip_failed pages)
             (seq 0 (Nat.min PAGE_LIMIT (length pages))) [] [])).
Proof.
  unfold extract_pdf, extract_pages. repeat split.
  - intros e ->. reflexivity.
  - intros reader e -> H. cbn [bind]. rewrite H. reflexivity.
  - intros reader md e -> H1 H2. cbn [bind]. rewrite H1. cbn [bind].
    rewrite H2. reflexivity.
  - intros reader md pages -> H1 H2. cbn [bind]. rewrite H1. cbn [bind].
    rewrite H2. cbn [bind try_except].
    rewrite pages_loop_skip_failed; [reflexivity|].
    unfold len, TEXT_LIMIT. simpl. lia.
Qed.

(** C2: for every attachment payload and every file name the extractor
    returns a text and never raises: for a name ending in [.pdf] a failure
    of the whole document (the reader, its metadata or its page list)
    gives the short placeholder [[PDF processing failed: ...]], and a
    failure of single pages gives the text of the other pages, as if the
    failing pages were empty; for a name ending in [.docx] a failure gives
    the placeholder [[DOCX processing failed: ...]]; any other name gives
    the empty text.  The placeholders are at most 126 characters long.
    The copy of the extractor written inside [walk_parts] does the same
    once the attachment is fetched and decoded: it does not raise, and it
    appends the placeholder, the text of the pages that could be read or
    the paragraphs, and nothing for a name with another extension. *)
Theorem extractor_never_raises (data : bytes) (filename : str) :
  (exists text,
     extract_data data filename = Ok text /\
     (is_pdf filename = true ->
        (forall e, PdfReader data = Raise e -> text = pdf_failed e) /\
        (forall reader e, PdfReader data = Ok reader ->
           pdf_metadata reader = Raise e -> text = pdf_failed e) /\
        (forall reader md e, PdfReader data = Ok reader ->
           pdf_metadata reader = Ok md -> pdf_pages reader = Raise e ->
           text = pdf_failed e) /\
        (forall reader md pages, PdfReader data = Ok reader ->
           pdf_metadata reader = Ok md -> pdf_pages reader = Ok pages ->
           text = assemble (concat (page_chunks pages)) /\
           text = assemble (concat (page_chunks (map skip_failed pages))))) /\
     (is_pdf filename = false -> is_docx filename = true ->
        (forall e, docx_paragraphs data = Raise e -> text = docx_failed e) /\
        (forall ps, docx_paragraphs data = Ok ps -> text = join [NL] ps)) /\
     (is_pdf filename = false -> is_docx filename = false -> text = [])) /\
  (forall e, (len (pdf_failed e) <= 125)%Z /\ (len (docx_failed e) <= 126)%Z) /\
  (forall p b aid, p_body p = Some b -> b_attachmentId b = Some aid ->
     urlsafe_b64decode aid = Ok data ->
     extract_attachment_text p filename = extract_data data filename) /\
  (exists pdf_text docx_text,
     Walker.inline_pdf data = Ok pdf_text /\
     extract_docx data = Ok docx_text /\
     (forall e, PdfReader data = Raise e -> pdf_text = pdf_failed e) /\
     (forall reader e, PdfReader data = Ok reader ->
        pdf_pages reader = Raise e -> pdf_text = pdf_failed e) /\
     (forall reader pages, PdfReader data = Ok reader ->
        pdf_pages reader = Ok pages ->
        pdf_text = assemble (concat (page_chunks pages)) /\
        pdf_text = assemble (concat (page_chunks (map skip_failed pages)))) /\
     (forall e, docx_paragraphs data = Raise e -> docx_text = docx_failed e) /\
     (forall ps, docx_paragraphs data = Ok ps -> docx_text = join [NL] ps) /\
     (forall service msg_id attach_id st att encoded,
        attachments_get service msg_id attach_id = Ok att ->
        att_data att = Some encoded ->
        urlsafe_b64decode encoded = Ok data ->
        Walker.fetch_and_extract service msg_id attach_id (Some filename) st
        = Ok (if is_pdf filename then (fst st, snd st ++ [pdf_text])
              else if is_docx filename then (fst st, snd st ++ [docx_text])
              else st))).
Proof.
  assert (Hdocx : exists text, extract_docx data = Ok text /\
            (forall e, docx_paragraphs data = Raise e -> text = docx_failed e) /\
            (forall ps, docx_paragraphs data = Ok ps -> text = join [NL] ps)).
  { unfold extract_docx. destruct (docx_paragraphs data) as [ps|e];
      cbn [bind try_except]; eexists; (split; [reflexivity|]);
      split; congruence. }
  split; [|split; [|split]].
  - unfold extract_data.
    destruct (is_pdf filename) eqn:Hpdf.
    + destruct (extract_pdf_total data) as (text & read & E).
      exists text. rewrite E. split; [reflexivity|].
      destruct (extract_pdf_cases data) as (C1 & C2 & C3 & _).
      split; [|split; intros; discriminate].
      intros _. split; [|split; [|split]].
      * intros e He. rewrite (C1 e He) in E. congruence.
      * intros reader e H1 H2. rewrite (C2 reader e H1 H2) in E. congruence.
      * intros reader md e H1 H2 H3. rewrite (C3 reader md e H1 H2 H3) in E.
        congruence.
      * intros reader md pages H1 H2 H3.
        rewrite (extract_pdf_closed data reader md pages H1 H2 H3) in E.
        rewrite page_chunks_skip_failed. split; congruence.
    + destruct (is_docx filename) eqn:Hdx.
      * destruct Hdocx as (text & E & H1 & H2). exists text.
        split; [exact E|]. split; [discriminate|]. split; [auto | discriminate].
      * exists []. split; [reflexivity|]. split; [discriminate|].
        split; [discriminate | reflexivity].
  - intros e. split; [apply len_pdf_failed | apply len_docx_failed].
  - intros p b aid Hb Ha Hd. unfold extract_attachment_text.
    rewrite Hb. cbn [getitem bind]. rewrite Ha. cbn [getitem bind].
    now rewrite Hd.
  - destruct Hdocx as (docx_text & Ed & D1 & D2).
    destruct (inline_pdf_cases data) as (P1 & P2 & P3).
    assert (Hpdf : exists pdf_text, Walker.inline_pdf data = Ok pdf_text).
    { unfold Walker.inline_pdf. destruct (PdfReader data) as [reader|e];
        cbn [bind try_except]; [|eauto].
      destruct (extract_pages reader); cbn [bind try_except]; eauto. }
    destruct Hpdf as [pdf_text Ep]. exists pdf_text, docx_text.
    split; [exact Ep|]. split; [exact Ed|].
    split; [intros e He; rewrite (P1 e He) in Ep; congruence|].
    split; [intros reader e H1 H2; rewrite (P2 reader e H1 H2) in Ep;
            congruence|].
    split.
    { intros reader pages H1 H2. rewrite (P3 reader pages H1 H2) in Ep.
      rewrite page_chunks_skip_failed. split; congruence. }
    split; [exact D1|]. split; [exact D2|].
    intros service msg_id attach_id st att encoded Hatt Henc Hdec.
    unfold Walker.fetch_and_extract. rewrite Hatt. cbn [bind].
    rewrite Henc. cbn [getitem bind]. rewrite Hdec.
    cbn [bind Walker.filename_lower]. unfold is_pdf, is_docx.
    destruct (endswith (lit ".pdf") (lower filename)).
    + now rewrite Ep.
    + destruct (endswith (lit ".docx") (lower filename)); [|reflexivity].
      now rewrite Ed.
Qed.

End ExtractorFacts.

(** The file name decides, whatever its case. *)
Example extract_data_pdf_example :
  Extractor.extract_data (lit "first second") (lit "Report.PDF")
  = Ok (lit "first" ++ [NL] ++ lit "second" ++ [NL]).
Proof. reflexivity. Qed.

Example extract_data_other_example :
  Extractor.extract_data (lit "first second") (lit "notes.txt") = Ok [].
Proof. reflexivity. Qed.

(** A page that raises is left out, the pages around it are kept. *)
Example pages_loop_failure_example :
  Extractor.pages_loop
    [PageText (Some (lit "a")); PageRaises (Exc LibraryError (lit "bad page"));
     PageText None; PageText (Some (lit "b"))]
    (seq 0 4) [] []
  = (lit "a" ++ [NL] ++ lit "b" ++ [NL], [0; 1; 2; 3]).
Proof. reflexivity. Qed.

(** Sixty pages: the first fifty are read. *)
Example extract_pages_cap_example :
  option_map snd
    (match Extractor.extract_pages
             (Reader (Ok None) (Ok (repeat (PageText (Some (lit "p"))) 60)))
     with Ok r => Some r | Raise _ => None end)
  = Some (seq 0 50).
Proof. vm_compute. reflexivity. Qed.

(** The copy inside [walk_parts] on a document of sixty pages, one word
    each: the text has the fifty first. *)
Example inline_pdf_cap_example :
  Walker.inline_pdf (concat (repeat (lit "p ") 60))
  = Ok (concat (repeat (lit "p" ++ [NL]) 50)).
Proof. vm_compute. reflexivity. Qed.

Example read_count_example :
  read_count (repeat (PageText (Some (lit "p"))) 60) = 50 /\
  read_count [PageText (Some (repeat "x"%char 100001));
              PageText (Some (lit "never read"))] = 1.
Proof. split; vm_compute; reflexivity. Qed.

(** A page of 100,001 characters: 100,000 are kept, the marker follows and
    the second page is not read. *)
Example pages_loop_truncation_example :
  let r := Extractor.pages_loop
             [PageText (Some (repeat "x"%char 100001));
              PageText (Some (lit "never read"))]
             (seq 0 2) [] [] in
  len (fst r) = 100038%Z /\ snd r = [0] /\
  skipn 100000 (fst r) = Extractor.TRUNCATION_MARKER.
Proof. vm_compute. repeat split. Qed.

(** What precedes the dispatch is outside every [try]: a part without an
    attachment id makes [extract_attachment_text] itself raise. *)
Example extract_attachment_text_decode_example :
  Extractor.extract_attachment_text
    (Part (Some (lit "application/pdf")) (Some (lit "a.pdf"))
          (Some (Body None None)) None)
    (lit "a.pdf")
  = Raise (Exc KeyError (lit "attachmentId")).
Proof. reflexivity. Qed.

(* ===================================================================== *)
(** * MIME Walker: properties *)
(* ===================================================================== *)

Lemma part_induction (P : part -> Prop) :
  (forall m f b, P (Part m f b None)) ->
  (forall m f b sub, Forall P sub -> P (Part m f b (Some sub))) ->
  forall p, P p.
Proof.
  intros Hleaf Hnode. fix IH 1. intros [m f b [sub|]]; [|apply Hleaf].
  apply Hnode. induction sub as [|q sub IHsub]; constructor;
    [apply IH | exact IHsub].
Qed.

Lemma raises_bind (A B : Type) (m : result A) (k : A -> result B) :
  raises m -> raises (x <- m ;; k x).
Proof. intros [e ->]. now exists e. Qed.

Lemma raises_bind_either (A B : Type) (m : result A) (k : A -> result B) :
  (forall a, m = Ok a -> raises (k a)) -> raises (x <- m ;; k x).
Proof. intros H. destruct m as [a|e]; [now apply H | now exists e]. Qed.

Section WalkerFacts.
Context {L : Libraries}.
Variable service : Service.
Variable msg_id : str.
Import Walker.

Lemma walk_part_unfold (p : part) (st : walk_state) :
  walk_part service msg_id p st =
  (st1 <- visit service msg_id p st ;;
   match p_parts p with
   | Some sub => walk_parts service msg_id sub st1
   | None => Ok st1
   end).
Proof.
  destruct p as [m f b [sub|]]; [|reflexivity].
  cbn [walk_part p_parts]. destruct (visit service msg_id _ st) as [st1|e];
    [|reflexivity].
  cbn [bind]. revert st1. induction sub as [|q sub IH]; intros st1;
    [reflexivity|].
  cbn [walk_parts]. destruct (walk_part service msg_id q st1); [|reflexivity].
  cbn [bind]. apply IH.
Qed.

Lemma preorder_unfold (p : part) :
  preorder p =
  p :: match p_parts p with
       | Some sub => preorder_list sub
       | None => []
       end.
Proof.
  destruct p as [m f b [sub|]]; reflexivity.
Qed.

Lemma visit_all_app (ps qs : list part) (st : walk_state) :
  visit_all service msg_id (ps ++ qs) st =
  (st' <- visit_all service msg_id ps st ;; visit_all service msg_id qs st').
Proof.
  revert st. induction ps as [|p ps IH]; intros st; [reflexivity|].
  cbn [app visit_all]. destruct (visit service msg_id p st); [|reflexivity].
  cbn [bind]. apply IH.
Qed.

(** The recursion of [walk_parts] is one pass over the parts in depth-first
    order. *)
Lemma walk_part_preorder (p : part) :
  forall st, walk_part service msg_id p st
             = visit_all service msg_id (preorder p) st.
Proof.
  induction p as [m f b|m f b sub IH] using part_induction; intros st;
    rewrite walk_part_unfold, preorder_unfold; cbn [p_parts visit_all].
  - destruct (visit service msg_id _ st); reflexivity.
  - destruct (visit service msg_id _ st) as [st1|e]; [|reflexivity].
    cbn [bind]. revert st1. induction IH as [|q sub Hq _ IHsub]; intros st1;
      [reflexivity|].
    unfold preorder_list. cbn [walk_parts flat_map].
    rewrite visit_all_app, Hq.
    destruct (visit_all service msg_id (preorder q) st1); [|reflexivity].
    cbn [bind]. apply IHsub.
Qed.

Lemma walk_parts_preorder (ps : list part) (st : walk_state) :
  walk_parts service msg_id ps st
  = visit_all service msg_id (preorder_list ps) st.
Proof.
  revert st. induction ps as [|q ps IH]; intros st; [reflexivity|].
  unfold preorder_list. cbn [walk_parts flat_map].
  rewrite visit_all_app, walk_part_preorder.
  destruct (visit_all service msg_id (preorder q) st); [|reflexivity].
  cbn [bind]. apply IH.
Qed.

(** A visit only appends: to the body text and to the attachment texts. *)
Lemma visit_appends (p : part) (st st' : walk_state) :
  visit service msg_id p st = Ok st' ->
  exists body texts,
    visit service msg_id p ([], []) = Ok (body, texts) /\
    st' = (fst st ++ body, snd st ++ texts) /\ length texts <= 1.
Proof.
  unfold visit.
  destruct (str_eqb _ TEXT_MIME).
  - destruct (p_body p) as [b|]; cbn [getitem bind]; [|discriminate].
    destruct (b_data b) as [[|c d]|].
    + intros [= <-]. exists [], []. rewrite !app_nil_r. destruct st; auto.
    + destruct (urlsafe_b64decode (c :: d)) as [raw|e]; cbn [bind];
        [|discriminate].
      intros [= <-]. exists (decode_ignore raw), []. cbn [fst snd].
      rewrite app_nil_r. auto.
    + intros [= <-]. exists [], []. rewrite !app_nil_r. destruct st; auto.
  - destruct (_ || _).
    + destruct (p_body p) as [b|]; cbn [getitem bind]; [|discriminate].
      destruct (b_attachmentId b) as [[|c aid]|].
      * intros [= <-]. exists [], []. rewrite !app_nil_r. destruct st; auto.
      * unfold fetch_and_extract.
        destruct (attachments_get service msg_id (c :: aid)) as [att|e];
          cbn [bind]; [|discriminate].
        destruct (att_data att) as [d|]; cbn [getitem bind]; [|discriminate].
        destruct (urlsafe_b64decode d) as [file_data|e]; cbn [bind];
          [|discriminate].
        destruct (filename_lower (p_filename p)) as [name|e]; cbn [bind];
          [|discriminate].
        destruct (endswith (lit ".pdf") name).
        -- destruct (inline_pdf file_data) as [text|e]; cbn [bind];
             [|discriminate].
           intros [= <-]. exists [], [text]. cbn [fst snd].
           rewrite app_nil_r. auto.
        -- destruct (endswith (lit ".docx") name).
           ++ destruct (Extractor.extract_docx file_data) as [text|e];
                cbn [bind]; [|discriminate].
              intros [= <-]. exists [], [text]. cbn [fst snd].
              rewrite app_nil_r. auto.
           ++ intros [= <-]. exists [], []. rewrite !app_nil_r.
              destruct st; auto.
      * intros [= <-]. exists [], []. rewrite !app_nil_r. destruct st; auto.
    + intros [= <-]. exists [], []. rewrite !app_nil_r. destruct st; auto.
Qed.

Lemma visit_all_appends (ps : list part) (st st' : walk_state) :
  visit_all service msg_id ps st = Ok st' ->
  fst st' = fst st ++ flat_map (body_of service msg_id) ps /\
  snd st' = snd st ++ flat_map (texts_of service msg_id) ps.
Proof.
  revert st. induction ps as [|p ps IH]; intros st.
  - intros [= <-]. cbn [flat_map]. now rewrite !app_nil_r.
  - cbn [visit_all]. destruct (visit service msg_id p st) as [st1|e] eqn:Hv;
      cbn [bind]; [|discriminate].
    intros H. apply IH in H as [H1 H2].
    destruct (visit_appends p st st1 Hv) as (body & texts & E & -> & _).
    cbn [fst snd] in H1, H2. cbn [flat_map]. unfold body_of, texts_of.
    rewrite E. cbn [fst snd]. now rewrite H1, H2, <- !app_assoc.
Qed.

(** C6, as amended: the Composite Document is the header block (Subject,
    From, To, Date, one per line), a blank line and the normalized body;
    the section [Attachments:] follows if and only if at least one
    attachment text was collected, be it empty, and lists the collected
    texts, one per line, in the order in which a depth-first traversal of
    the parts meets them. *)
Theorem composite_document_spec (msg : message) (st : walk_state) :
  messages_get service msg_id = Ok msg ->
  collect service msg_id (m_payload msg) = Ok st ->
  exists details,
    get_email_details service msg_id = Ok details /\
    d_text details =
      (lit "Subject: " ++ d_subject details ++ [NL]
       ++ lit "From: " ++ d_sender details ++ [NL]
       ++ lit "To: " ++ d_to details ++ [NL]
       ++ lit "Date: " ++ d_date details ++ [NL] ++ [NL])
      ++ Normalizer.strip_quoted_and_signature (fst st)
      ++ match snd st with
         | [] => []
         | _ :: _ =>
             [NL; NL] ++ lit "Attachments:" ++ [NL] ++ join [NL] (snd st)
         end /\
    (forall ps, pl_parts (m_payload msg) = Some ps ->
       snd st = flat_map (texts_of service msg_id) (preorder_list ps) /\
       fst st = flat_map (body_of service msg_id) (preorder_list ps)).
Proof.
  intros Hmsg Hst. unfold get_email_details. rewrite Hmsg. cbn [bind].
  rewrite Hst. cbn [bind]. eexists. split; [reflexivity|].
  cbn [d_text d_subject d_sender d_to d_date]. split.
  - unfold compose, header_block, attachments_section.
    destruct (snd st); rewrite <- ?app_assoc; cbn [app];
      rewrite ?app_nil_r; reflexivity.
  - intros ps Hps. unfold collect in Hst. rewrite Hps in Hst.
    rewrite walk_parts_preorder in Hst.
    apply visit_all_appends in Hst as [H1 H2]. cbn [fst snd app] in H1, H2.
    auto.
Qed.

Lemma visit_nameless (p : part) (st : walk_state) :
  nameless_attachment p ->
  raises (visit service msg_id p st) /\
  (forall b aid att d file_data,
     p_body p = Some b -> b_attachmentId b = Some aid ->
     attachments_get service msg_id aid = Ok att ->
     att_data att = Some d -> urlsafe_b64decode d = Ok file_data ->
     visit service msg_id p st
     = Raise (Exc AttributeError
                  (lit "'NoneType' object has no attribute 'lower'"))).
Proof.
  intros (Hmime & Hname & b & c & aid & Hb & Ha).
  assert (E : visit service msg_id p st
              = fetch_and_extract service msg_id (c :: aid) None st).
  { unfold visit. rewrite Hb, Hname.
    destruct Hmime as [-> | ->].
    - change (str_eqb PDF_MIME TEXT_MIME) with false.
      change (str_eqb PDF_MIME PDF_MIME || str_eqb PDF_MIME DOCX_MIME)
        with true.
      cbv iota. cbn [getitem bind]. now rewrite Ha.
    - change (str_eqb DOCX_MIME TEXT_MIME) with false.
      change (str_eqb DOCX_MIME PDF_MIME || str_eqb DOCX_MIME DOCX_MIME)
        with true.
      cbv iota. cbn [getitem bind]. now rewrite Ha. }
  rewrite E. unfold fetch_and_extract. split.
  - apply raises_bind_either. intros att _.
    apply raises_bind_either. intros d _.
    apply raises_bind_either. intros file_data _.
    apply raises_bind. eexists. reflexivity.
  - intros b' aid' att d file_data Hb' Ha' Hatt Hd Hdec.
    rewrite Hb in Hb'. injection Hb' as <-. rewrite Ha in Ha'.
    injection Ha' as <-. rewrite Hatt. cbn [bind]. rewrite Hd.
    cbn [getitem bind]. rewrite Hdec. reflexivity.
Qed.

Lemma walk_reaches_raises (p : part) (ps : list part) :
  reaches p ps -> nameless_attachment p ->
  forall st, raises (walk_parts service msg_id ps st).
Proof.
  intros Hr Hp. induction Hr as [ps|q ps sub Hsub _ IH|q ps _ IH]; intros st;
    cbn [walk_parts].
  - apply raises_bind. rewrite walk_part_unfold. apply raises_bind.
    now apply visit_nameless.
  - apply raises_bind. rewrite walk_part_unfold, Hsub.
    apply raises_bind_either. intros st1 _. apply IH.
  - apply raises_bind_either. intros st1 _. apply IH.
Qed.

Lemma build_points_raises (ids : list str) :
  raises (get_email_details service msg_id) -> In msg_id ids ->
  forall points counter,
    raises (Pipeline.build_points service ids points counter).
Proof.
  intros Hraise. induction ids as [|i rest IH]; intros Hin points counter;
    [destruct Hin|].
  cbn [Pipeline.build_points]. destruct Hin as [-> | Hin].
  - apply raises_bind. unfold Pipeline.ingest_message. now apply raises_bind.
  - apply raises_bind_either. intros r _. now apply IH.
Qed.

(** C10: when a message contains, at any depth, a part declared as PDF or
    DOCX that carries an attachment id and has no file name,
    [get_email_details] raises: once the attachment is fetched and decoded
    the exception is the [AttributeError] of [.lower()] on [None]; no
    placeholder or empty text is produced, the loop of [main] over any
    list that contains the message raises, and so does [main].  The
    extraction itself is chosen by the file name alone: it is done when
    the name ends, in any case, in [.pdf] or [.docx], and no text is added
    otherwise. *)
Theorem nameless_attachment_aborts (msg : message) (ps : list part) (p : part) :
  messages_get service msg_id = Ok msg ->
  pl_parts (m_payload msg) = Some ps ->
  reaches p ps ->
  nameless_attachment p ->
  raises (get_email_details service msg_id) /\
  (forall st b aid att d file_data,
     p_body p = Some b -> b_attachmentId b = Some aid ->
     attachments_get service msg_id aid = Ok att ->
     att_data att = Some d -> urlsafe_b64decode d = Ok file_data ->
     visit service msg_id p st
     = Raise (Exc AttributeError
                  (lit "'NoneType' object has no attribute 'lower'"))) /\
  (forall ids points counter, In msg_id ids ->
     raises (Pipeline.build_points service ids points counter)) /\
  (forall qdrant w ids,
     fst (Sync.fetch_new_messages service 50 w) = Ok ids -> In msg_id ids ->
     raises (fst (Pipeline.main service qdrant w))) /\
  (forall attach_id f st att d file_data,
     attachments_get service msg_id attach_id = Ok att ->
     att_data att = Some d -> urlsafe_b64decode d = Ok file_data ->
     (Extractor.is_pdf f = false -> Extractor.is_docx f = false ->
      fetch_and_extract service msg_id attach_id (Some f) st = Ok st) /\
     (Extractor.is_pdf f = true ->
      fetch_and_extract service msg_id attach_id (Some f) st
      = (text <- inline_pdf file_data ;; Ok (fst st, snd st ++ [text]))) /\
     (Extractor.is_pdf f = false -> Extractor.is_docx f = true ->
      fetch_and_extract service msg_id attach_id (Some f) st
      = (text <- Extractor.extract_docx file_data ;;
         Ok (fst st, snd st ++ [text])))).
Proof.
  intros Hmsg Hps Hreach Hp.
  assert (Hraise : raises (get_email_details service msg_id)).
  { unfold get_email_details. rewrite Hmsg. cbn [bind]. apply raises_bind.
    unfold collect. rewrite Hps. now apply walk_reaches_raises with p. }
  split; [exact Hraise|]. split; [|split; [|split]].
  - intros st. now apply visit_nameless.
  - intros ids points counter Hin. now apply build_points_raises.
  - intros qdrant w ids Hfetch Hin. unfold Pipeline.main.
    destruct (Sync.fetch_new_messages service 50 w) as [fetched w1].
    cbn [fst] in *. subst fetched. cbn [bind].
    apply raises_bind_either. intros names _.
    apply raises_bind_either. intros _ _.
    apply raises_bind. now apply build_points_raises.
  - intros attach_id f st att d file_data Hatt Hd Hdec.
    unfold fetch_and_extract, Extractor.is_pdf, Extractor.is_docx.
    rewrite Hatt. cbn [bind]. rewrite Hd. cbn [getitem bind]. rewrite Hdec.
    cbn [bind filename_lower].
    repeat split.
    + intros -> ->. reflexivity.
    + intros ->. reflexivity.
    + intros -> ->. reflexivity.
Qed.

End WalkerFacts.

(** The witness: message [m3] of the example mailbox, with a text part, a
    PDF and a nested DOCX. *)
Lemma composite_document_spec_witness :
  exists details,
    Walker.get_email_details example_service (lit "m3") = Ok details /\
    Walker.d_text details =
      (lit "Subject: " ++ Walker.d_subject details ++ [NL]
       ++ lit "From: " ++ Walker.d_sender details ++ [NL]
       ++ lit "To: " ++ Walker.d_to details ++ [NL]
       ++ lit "Date: " ++ Walker.d_date details ++ [NL] ++ [NL])
      ++ Normalizer.strip_quoted_and_signature (lit "Hello")
      ++ [NL; NL] ++ lit "Attachments:" ++ [NL]
      ++ join [NL] [lit "p1" ++ [NL] ++ lit "p2" ++ [NL]; lit "paragraph"].
Proof.
  assert (Hmsg : messages_get example_service (lit "m3")
                 = Ok (example_message (lit "m3"))) by reflexivity.
  assert (Hst : Walker.collect example_service (lit "m3")
                  (m_payload (example_message (lit "m3")))
                = Ok (lit "Hello",
                      [lit "p1" ++ [NL] ++ lit "p2" ++ [NL]; lit "paragraph"]))
    by (vm_compute; reflexivity).
  destruct (composite_document_spec example_service (lit "m3")
              (example_message (lit "m3")) _ Hmsg Hst) as (details & E & T & _).
  exists details. split; [exact E | exact T].
Defined.

(** The counterexample to C6 as it is worded: message [m1] has one PDF
    attachment from which no text comes out; the only attachment text is
    empty, and the document still ends with the section [Attachments:]. *)
Lemma composite_claim_counterexample : ~ composite_claim.
Proof.
  intros H.
  specialize (H example_libraries example_service (lit "m1")
                (example_message (lit "m1")) ([], [[]]) _
                eq_refl eq_refl eq_refl).
  vm_compute in H. discriminate H.
Qed.

Example composite_empty_attachment_example :
  option_map Walker.d_text
    (match Walker.get_email_details example_service (lit "m1") with
     | Ok d => Some d | Raise _ => None end)
  = Some (lit "Subject: Hi" ++ [NL] ++ lit "From: a@x" ++ [NL]
          ++ lit "To: b@x" ++ [NL] ++ lit "Date: today" ++ [NL; NL]
          ++ [NL; NL] ++ lit "Attachments:" ++ [NL]).
Proof. reflexivity. Qed.

(** The witness: message [m2] of the example mailbox, whose PDF part
    without file name lies below a multipart part. *)
Lemma nameless_attachment_aborts_witness :
  raises (Walker.get_email_details example_service (lit "m2")) /\
  raises (Pipeline.build_points example_service [lit "m3"; lit "m2"] [] 0).
Proof.
  pose (p := Part (Some (lit "application/pdf")) None
                  (Some (Body None (Some (lit "two")))) None).
  assert (Hr : reaches p [Part (Some (lit "multipart/mixed")) (Some [])
                               (Some (Body None None)) (Some [p])]).
  { apply reaches_below with [p]; [reflexivity | apply reaches_here]. }
  assert (Hn : nameless_attachment p).
  { split; [left; reflexivity|]. split; [reflexivity|].
    eexists _, _, _. split; reflexivity. }
  destruct (nameless_attachment_aborts example_service (lit "m2")
              (example_message (lit "m2")) _ p eq_refl eq_refl Hr Hn)
    as (H1 & _ & H3 & _).
  split; [exact H1 | apply H3; right; left; reflexivity].
Defined.

Example nameless_attachment_example :
  Walker.get_email_details example_service (lit "m2")
  = Raise (Exc AttributeError
               (lit "'NoneType' object has no attribute 'lower'")).
Proof. reflexivity. Qed.

(* ===================================================================== *)
(** * Sync Tracker: properties *)
(* ===================================================================== *)

Section SyncFacts.
Variable service : Service.
Import Sync.

(** With a cursor and a change log that answers without any event, the
    tracker takes the branch of the fallback listing: [not message_ids]
    holds of the empty list as it does of [None]. *)
Lemma empty_history_falls_back (cursor : str) (h : history_response)
    (max_results : Z) (w : world) :
  history_file w = Some cursor ->
  history_list service (strip cursor) = Ok h ->
  match hr_history h with Some hs => history_ids hs | None => Ok [] end
  = Ok [] ->
  incremental service w = (Some [], log (CallHistoryList (strip cursor)) w) /\
  fallback_invoked (snd (fetch_new_messages service max_results w)) = true /\
  (forall lr ids prof hid,
     messages_list service max_results = Ok lr ->
     ids_of (get_messages (lr_messages lr)) = Ok ids ->
     getProfile service = Ok prof -> pr_historyId prof = Some hid ->
     fst (fetch_new_messages service max_results w) = Ok ids).
Proof.
  intros Hfile Hlist Hids.
  assert (Hinc : incremental service w
                 = (Some [], log (CallHistoryList (strip cursor)) w)).
  { unfold incremental. rewrite Hfile, Hlist. cbn [bind try_except].
    rewrite Hids. reflexivity. }
  split; [exact Hinc|]. unfold fetch_new_messages. rewrite Hinc.
  unfold listing. cbn [not_]. split.
  - destruct (messages_list service max_results) as [lr|e]; cbn [bind].
    + destruct (ids_of _) as [ids|e]; cbn [snd].
      * unfold save_cursor. destruct (getProfile service) as [prof|e].
        -- destruct (pr_historyId prof); cbn [snd]; unfold fallback_invoked;
             cbn [calls log]; rewrite !existsb_app; cbn [existsb];
             now rewrite ?orb_true_r.
        -- cbn [snd]. unfold fallback_invoked. cbn [calls log].
           rewrite !existsb_app. cbn [existsb]. now rewrite ?orb_true_r.
      * unfold fallback_invoked. cbn [calls log].
        rewrite !existsb_app. cbn [existsb]. now rewrite ?orb_true_r.
    + cbn [snd]. unfold fallback_invoked. cbn [calls log].
      rewrite !existsb_app. cbn [existsb]. now rewrite ?orb_true_r.
  - intros lr ids prof hid Hl Hi Hp Hh. rewrite Hl. cbn [bind]. rewrite Hi.
    unfold save_cursor. rewrite Hp, Hh. reflexivity.
Qed.

End SyncFacts.

(** C1: a run with the cursor [100], a change log that answers without any
    event and a mailbox whose listing holds [m3].  The tracker sends the
    fallback listing and returns [m3]; the claim has it return the empty
    set without listing. *)
Example fetch_new_messages_empty_history :
  Sync.fetch_new_messages example_service 50 (Sync.World (Some (lit "100")) [])
  = (Ok [lit "m3"],
     Sync.World (Some (lit "101"))
       [Sync.CallHistoryList (lit "100"); Sync.CallMessagesList 50;
        Sync.CallGetProfile]).
Proof. reflexivity. Qed.

(** Without a cursor, or when the change log raises, the listing is the
    documented fallback. *)
Example fetch_new_messages_first_run :
  Sync.fetch_new_messages example_service 50 (Sync.World None [])
  = (Ok [lit "m3"],
     Sync.World (Some (lit "101"))
       [Sync.CallMessagesList 50; Sync.CallGetProfile]).
Proof. reflexivity. Qed.

(* ===================================================================== *)
(** * Ingestion Pipeline: properties *)
(* ===================================================================== *)

Section PipelineFacts.
Context {L : Libraries}.
Variable service : Service.
Import Pipeline.

(** The points the inner loop adds: one per chunk, numbered from the
    counter, each with the embedding of its chunk and all with the same
    payload. *)
Lemma embed_chunks_spec (details : Walker.details) (chunks : list str) :
  forall points counter result,
    embed_chunks details chunks points counter = Ok result ->
    exists new,
      fst result = points ++ new /\
      snd result = (counter + len chunks)%Z /\
      Forall (fun pt => pt_payload pt = details) new /\
      map pt_id new
      = map (fun i => (counter + Z.of_nat i)%Z) (seq 0 (length chunks)) /\
      Forall2 (fun chunk pt => encode chunk = Ok (pt_vector pt)) chunks new.
Proof.
  induction chunks as [|chunk rest IH]; intros points counter result.
  - intros [= <-]. exists []. cbn [fst snd]. rewrite app_nil_r.
    repeat split; auto. unfold len. simpl. lia.
  - cbn [embed_chunks]. destruct (encode chunk) as [vec|e] eqn:Hvec;
      cbn [bind]; [|discriminate].
    intros H. apply IH in H as (new & H1 & H2 & H3 & H4 & H5).
    exists (Point counter vec details :: new). repeat split.
    + rewrite H1, <- app_assoc. reflexivity.
    + rewrite H2. unfold len. cbn [length]. lia.
    + constructor; [reflexivity | exact H3].
    + cbn [map length seq pt_id]. f_equal; [lia|]. rewrite H4.
      rewrite <- seq_shift, map_map. apply map_ext. intros i. lia.
    + constructor; [exact Hvec | exact H5].
Qed.

(** C5: for every message that is ingested, the points made from its
    chunks, one per chunk, all carry the same payload: the dictionary of
    the message, with its metadata and the text of the whole Composite
    Document, the very text that was cut into chunks, not the chunk.  The
    points differ by their vector, the embedding of their own chunk, and
    by their identifier, the successive values of the counter. *)
Theorem ingest_message_payload (msg_id : str) (points : list PointStruct)
    (counter : Z) (result : list PointStruct * Z) :
  ingest_message service msg_id points counter = Ok result ->
  exists details chunks new,
    Walker.get_email_details service msg_id = Ok details /\
    Chunker.chunk_text (Walker.d_text details) 200 = Ok chunks /\
    fst result = points ++ new /\
    snd result = (counter + len new)%Z /\
    length new = length chunks /\
    Forall (fun pt => pt_payload pt = details /\
                      Walker.d_text (pt_payload pt) = Walker.d_text details)
           new /\
    map pt_id new
    = map (fun i => (counter + Z.of_nat i)%Z) (seq 0 (length new)) /\
    Forall2 (fun chunk pt => encode chunk = Ok (pt_vector pt)) chunks new.
Proof.
  unfold ingest_message.
  destruct (Walker.get_email_details service msg_id) as [details|e];
    cbn [bind]; [|discriminate].
  destruct (Chunker.chunk_text (Walker.d_text details) INGEST_CHUNK_SIZE)
    as [chunks|e] eqn:Hchunks; cbn [bind]; [|discriminate].
  intros H. apply embed_chunks_spec in H as (new & H1 & H2 & H3 & H4 & H5).
  assert (Hlen : length new = length chunks).
  { apply (f_equal (@length _)) in H4.
    now rewrite !length_map, length_seq in H4. }
  exists details, chunks, new. repeat split; auto.
  - rewrite H2. unfold len. now rewrite Hlen.
  - apply Forall_forall. intros pt Hpt.
    rewrite Forall_forall in H3. rewrite (H3 pt Hpt). auto.
  - now rewrite Hlen.
Qed.

End PipelineFacts.

(** The witness: a message of 408 words, ingested when the counter is at
    7: three chunks, so three points numbered 7, 8 and 9, with the
    embeddings of chunks of different lengths and with one payload. *)
Lemma ingest_message_payload_witness :
  map Pipeline.pt_id (fst long_points) = [7; 8; 9]%Z /\
  exists details chunks new,
    Walker.get_email_details long_service (lit "m4") = Ok details /\
    Chunker.chunk_text (Walker.d_text details) 200 = Ok chunks /\
    fst long_points = [] ++ new /\
    snd long_points = (7 + len new)%Z /\
    length new = length chunks /\
    Forall (fun pt => Pipeline.pt_payload pt = details /\
                      Walker.d_text (Pipeline.pt_payload pt)
                      = Walker.d_text details) new /\
    map Pipeline.pt_id new
    = map (fun i => (7 + Z.of_nat i)%Z) (seq 0 (length new)) /\
    Forall2 (fun chunk pt => encode chunk = Ok (Pipeline.pt_vector pt))
            chunks new.
Proof.
  split.
  - reflexivity.
  - apply (ingest_message_payload long_service (lit "m4") [] 7 long_points).
    reflexivity.
Defined.

Example ingest_message_example :
  option_map (fun r => (map Pipeline.pt_id (fst r), snd r))
    (match Pipeline.build_points example_service [lit "m3"; lit "m1"] [] 0
     with Ok r => Some r | Raise _ => None end)
  = Some ([0; 1]%Z, 2%Z).
Proof. vm_compute. reflexivity. Qed.

(* ===================================================================== *)
(** * Query Engine: properties *)
(* ===================================================================== *)

Lemma startswith_spec (p s : str) :
  startswith p s = true <-> exists post, s = p ++ post.
Proof.
  revert s. induction p as [|x p IH]; intros s.
  - split; [intros _; now exists s | reflexivity].
  - destruct s as [|y s]; cbn [startswith].
    + split; [discriminate | intros [post H]; discriminate].
    + rewrite andb_true_iff, ascii_eqb_eq, IH. split.
      * intros [-> [post ->]]. now exists post.
      * intros [post H]. injection H as -> ->. split; [reflexivity|].
        now exists post.
Qed.

(** [needle in s] is the substring test. *)
Lemma contains_spec (needle s : str) :
  contains needle s = true <-> substring_of needle s.
Proof.
  unfold contains, substring_of. split.
  - destruct (str_find needle s) as [i|] eqn:E; [|discriminate]. intros _.
    apply str_find_Some in E as (H & _ & _).
    apply startswith_spec in H as [post H].
    exists (firstn i s), post. rewrite <- H. symmetry. apply firstn_skipn.
  - intros (pre & post & ->).
    destruct (str_find needle (pre ++ needle ++ post)) eqn:E; [reflexivity|].
    pose proof (str_find_None _ _ E (length pre)) as H.
    rewrite skipn_app, skipn_all, Nat.sub_diag in H. cbn [skipn app] in H.
    assert (Hs : startswith needle (needle ++ post) = true)
      by (apply startswith_spec; now exists post).
    rewrite H in Hs; [discriminate | rewrite length_app; lia].
Qed.

Lemma apply_filters_filter (conds : list Query.condition)
    (points : list Query.point) :
  Query.apply_filters conds points = filter (Query.matches conds) points.
Proof.
  destruct conds as [|c conds]; [|reflexivity].
  cbn [Query.apply_filters]. induction points as [|p points IH];
    [reflexivity|].
  cbn [filter Query.matches forallb]. now rewrite <- IH.
Qed.

Lemma condition_of_spec (name : string) (filter : option str)
    (key expected : str) :
  In (key, expected) (Query.condition_of name filter) <->
  key = lit name /\ filter = Some expected /\ expected <> [].
Proof.
  unfold Query.condition_of. destruct filter as [[|c v]|]; cbn [In].
  - split; [tauto | intros (_ & [= <-] & H); congruence].
  - split.
    + intros [[= <- <-]|[]]. repeat split. discriminate.
    + intros (-> & [= <-] & _). now left.
  - split; [tauto | intros (_ & [=] & _)].
Qed.

Lemma get_missing (d : Query.dict) (key : str) (default : Query.value) :
  ~ In key (Query.keys d) -> Query.get d key default = default.
Proof.
  induction d as [|[k v] d IH]; intros H; [reflexivity|].
  cbn [Query.get]. destruct (str_eqb k key) eqn:E.
  - apply str_eqb_spec in E. subst. exfalso. apply H. now left.
  - apply IH. intros Hin. apply H. now right.
Qed.

Lemma filter_incl_length (A : Type) (f : A -> bool) (l : list A) :
  incl (filter f l) l /\ length (filter f l) <= length l.
Proof.
  split; [apply incl_filter | apply filter_length_le].
Qed.

(** C8: the scroll query fetches one page from the store and filters it
    afterwards: a point of the page is kept if and only if, for each filter
    given among subject, sender, url and category, the value of the filter,
    in lower case, is a substring of the lower-cased field of the payload
    when that field is a string, and equals the field when it is not; a
    missing field counts as the empty string.  The points kept are points
    of the page, so at most [limit] when the page has at most [limit]
    points.  In the scenario of the specification the sender filter
    [john@example.com] keeps two of the three points. *)
Theorem scroll_filter_spec (client : Query.Client) (collection_name : str)
    (limit offset : Z)
    (filter_subject filter_sender filter_url filter_category : option str) :
  Query.selected client collection_name limit offset
    filter_subject filter_sender filter_url filter_category
  = (page <- Query.scroll client collection_name limit offset ;;
     Ok (filter (Query.matches
                   (Query.filter_conditions filter_subject filter_sender
                      filter_url filter_category)) page)) /\
  (forall p,
     Query.matches (Query.filter_conditions filter_subject filter_sender
                      filter_url filter_category) p = true <->
     forall key expected,
       In (key, expected)
          (Query.filter_conditions filter_subject filter_sender filter_url
             filter_category) ->
       match Query.get (Query.payload p) key (Query.VStr []) with
       | Query.VStr actual => substring_of (lower expected) (lower actual)
       | other => other = Query.VStr expected
       end) /\
  (forall key expected,
     In (key, expected)
        (Query.filter_conditions filter_subject filter_sender filter_url
           filter_category) <->
     expected <> [] /\
     ((key = lit "subject" /\ filter_subject = Some expected) \/
      (key = lit "sender" /\ filter_sender = Some expected) \/
      (key = lit "url" /\ filter_url = Some expected) \/
      (key = lit "category" /\ filter_category = Some expected))) /\
  (forall p key, ~ In key (Query.keys (Query.payload p)) ->
     Query.get (Query.payload p) key (Query.VStr []) = Query.VStr []) /\
  (forall page,
     Query.scroll client collection_name limit offset = Ok page ->
     exists kept,
       Query.selected client collection_name limit offset
         filter_subject filter_sender filter_url filter_category = Ok kept /\
       incl kept page /\
       ((len page <= limit)%Z -> (len kept <= limit)%Z)) /\
  filter (Query.matches
            (Query.filter_conditions None (Some (lit "john@example.com"))
               None None)) scenario_points
  = [sender_point 1 "John Doe <john@example.com>";
     sender_point 3 "J <JOHN@EXAMPLE.COM>"].
Proof.
  split; [|split; [|split; [|split; [|split]]]].
  - unfold Query.selected. destruct (Query.scroll _ _ _ _); [|reflexivity].
    cbn [bind]. now rewrite apply_filters_filter.
  - intros p. unfold Query.matches. rewrite forallb_forall. split.
    + intros H key expected Hin. specialize (H _ Hin).
      unfold Query.condition_holds in H. cbn [fst snd] in H.
      destruct (Query.get (Query.payload p) key (Query.VStr []));
        try discriminate H.
      now apply contains_spec.
    + intros H [key expected] Hin. specialize (H _ _ Hin).
      unfold Query.condition_holds. cbn [fst snd].
      destruct (Query.get (Query.payload p) key (Query.VStr []));
        try discriminate H.
      now apply contains_spec.
  - intros key expected. unfold Query.filter_conditions.
    rewrite !in_app_iff, !condition_of_spec. tauto.
  - intros p key. apply get_missing.
  - intros page Hpage. eexists. unfold Query.selected. rewrite Hpage.
    cbn [bind]. split; [reflexivity|]. rewrite apply_filters_filter.
    destruct (filter_incl_length _ (Query.matches
      (Query.filter_conditions filter_subject filter_sender filter_url
         filter_category)) page) as [Hincl Hlen].
    split; [exact Hincl|]. unfold len. lia.
  - vm_compute. reflexivity.
Qed.

(** The scenario as a run of [query_all_points] with the CSV encoding. *)
Example query_sender_example :
  Query.query_all_points example_client (lit "gmail_embeddings_full") 100 0
    None (Some (lit "john@example.com")) None None (lit "csv")
  = Query.Printed
      [lit "Found 2 points (limit: 100, offset: 0)"; repeat "-"%char 80;
       lit "id," ++ [DQ] ++ lit "sender" ++ [DQ];
       lit "1," ++ [DQ] ++ lit "John Doe <john@example.com>" ++ [DQ];
       lit "3," ++ [DQ] ++ lit "J <JOHN@EXAMPLE.COM>" ++ [DQ]].
Proof. vm_compute. reflexivity. Qed.

(** The filters see the page only: with [limit = 1] the third point is
    not found. *)
Example query_page_window_example :
  Query.selected example_client (lit "gmail_embeddings_full") 1 0
    None (Some (lit "john@example.com")) None None
  = Ok [sender_point 1 "John Doe <john@example.com>"].
Proof. vm_compute. reflexivity. Qed.

(** ** The order of the keys *)

Lemma N_of_ascii_inj (x y : ascii) : N_of_ascii x = N_of_ascii y -> x = y.
Proof.
  intros H. rewrite <- (ascii_N_embedding x), <- (ascii_N_embedding y).
  now rewrite H.
Qed.

Lemma str_ltb_cons (x y : ascii) (a b : str) :
  str_ltb (x :: a) (y :: b) =
  if (N_of_ascii x <? N_of_ascii y)%N then true
  else if (N_of_ascii y <? N_of_ascii x)%N then false
  else str_ltb a b.
Proof. reflexivity. Qed.

Lemma str_lt_trans (a b c : str) : str_lt a b -> str_lt b c -> str_lt a c.
Proof.
  unfold str_lt. revert b c. induction a as [|x a IH]; intros [|y b] [|z c];
    try discriminate; try reflexivity.
  rewrite !str_ltb_cons.
  destruct (N.ltb_spec (N_of_ascii x) (N_of_ascii y));
    destruct (N.ltb_spec (N_of_ascii y) (N_of_ascii z));
    destruct (N.ltb_spec (N_of_ascii x) (N_of_ascii z));
    destruct (N.ltb_spec (N_of_ascii y) (N_of_ascii x));
    destruct (N.ltb_spec (N_of_ascii z) (N_of_ascii y));
    destruct (N.ltb_spec (N_of_ascii z) (N_of_ascii x));
    try discriminate; try reflexivity; try lia.
  apply IH.
Qed.

Lemma str_lt_total (a b : str) :
  str_ltb a b = false -> str_eqb a b = false -> str_lt b a.
Proof.
  unfold str_lt. revert b. induction a as [|x a IH]; intros [|y b];
    try discriminate; try reflexivity.
  rewrite !str_ltb_cons. cbn [str_eqb].
  destruct (N.ltb_spec (N_of_ascii x) (N_of_ascii y)); [discriminate|].
  destruct (N.ltb_spec (N_of_ascii y) (N_of_ascii x)); [reflexivity|].
  assert (x = y) by (apply N_of_ascii_inj; lia). subst y.
  unfold ascii_eqb. rewrite Ascii.eqb_refl. cbn [andb]. apply IH.
Qed.

Lemma str_lt_irrefl (a : str) : ~ str_lt a a.
Proof.
  unfold str_lt. induction a as [|x a IH]; [discriminate|].
  rewrite str_ltb_cons. rewrite N.ltb_irrefl. exact IH.
Qed.

Lemma insert_key_In (k y : str) (l : list str) :
  In y (Query.insert_key k l) <-> y = k \/ In y l.
Proof.
  induction l as [|x l IH]; cbn [Query.insert_key In]; [intuition|].
  destruct (str_ltb k x); [cbn [In]; intuition|].
  destruct (str_eqb k x) eqn:E.
  - apply str_eqb_spec in E. subst. cbn [In]. intuition.
  - cbn [In]. rewrite IH. intuition.
Qed.

Lemma insert_key_sorted (k : str) (l : list str) :
  StronglySorted str_lt l -> StronglySorted str_lt (Query.insert_key k l).
Proof.
  induction 1 as [|x l Hl IH Hx]; cbn [Query.insert_key].
  - repeat constructor.
  - destruct (str_ltb k x) eqn:Hlt.
    + constructor; [now constructor|]. constructor; [exact Hlt|].
      apply Forall_forall. intros y Hy. rewrite Forall_forall in Hx.
      apply str_lt_trans with x; [exact Hlt | now apply Hx].
    + destruct (str_eqb k x) eqn:Heq; [now constructor|].
      constructor; [exact IH|]. apply Forall_forall. intros y Hy.
      apply insert_key_In in Hy as [-> | Hy].
      * now apply str_lt_total.
      * rewrite Forall_forall in Hx. now apply Hx.
Qed.

Lemma fold_insert_sorted (ks : list str) :
  StronglySorted str_lt (fold_right Query.insert_key [] ks) /\
  (forall k, In k (fold_right Query.insert_key [] ks) <-> In k ks).
Proof.
  induction ks as [|k ks [IH1 IH2]]; cbn [fold_right].
  - split; [constructor | tauto].
  - split; [now apply insert_key_sorted|].
    intros y. rewrite insert_key_In, IH2. cbn [In]. intuition.
Qed.

(** [sorted_keys] is the sorted list, without repetition, of the keys of
    all the payloads. *)
Lemma sorted_keys_spec (points : list Query.point) :
  StronglySorted str_lt (Query.sorted_keys points) /\
  (forall k, In k (Query.sorted_keys points) <->
             exists p, In p points /\ In k (Query.keys (Query.payload p))).
Proof.
  unfold Query.sorted_keys.
  destruct (fold_insert_sorted
              (flat_map (fun p => Query.keys (Query.payload p)) points))
    as [H1 H2].
  split; [exact H1|]. intros k. rewrite H2, in_flat_map. reflexivity.
Qed.

Lemma csv_field_wrapped (p : Query.point) (key : str) :
  wrapped (Query.csv_field p key).
Proof.
  unfold Query.csv_field, Query.quote, wrapped.
  destruct (Query.get (Query.payload p) key (Query.VStr [])); eauto.
Qed.

(** The [replace] of the CSV fields: every double quote of [s] becomes
    two. *)
Lemma replace_quotes (s : str) :
  replace_char DQ [DQ; DQ] s
  = flat_map (fun c => if ascii_eqb c DQ then [DQ; DQ] else [c]) s.
Proof.
  induction s as [|c s IH]; [reflexivity|].
  cbn [replace_char flat_map]. now rewrite IH.
Qed.

(** C9, as amended: the CSV encoding of a result set that is not empty
    prints a header, [id] without quotes followed by the keys of all the
    payloads, sorted and without repetition, each in double quotes; and
    one row per point, which begins with [str(id)] without quotes and goes
    on with one field per key, every one of them wrapped in double
    quotes: a string value with each of its double quotes doubled, any
    other value as [str(value)], a key that the payload lacks as the empty
    quoted string.  Header and rows are joined by commas. *)
Theorem csv_lines_spec (p0 : Query.point) (rest : list Query.point) :
  Query.csv_lines (p0 :: rest)
  = (lit "id," ++ join (lit ",")
                    (map (fun key => [DQ] ++ key ++ [DQ])
                         (Query.sorted_keys (p0 :: rest))))
    :: map (fun p => join (lit ",")
                       (Query.str_of_id (Query.id p)
                        :: map (Query.csv_field p)
                               (Query.sorted_keys (p0 :: rest))))
           (p0 :: rest) /\
  StronglySorted str_lt (Query.sorted_keys (p0 :: rest)) /\
  (forall key, In key (Query.sorted_keys (p0 :: rest)) <->
     exists p, In p (p0 :: rest) /\ In key (Query.keys (Query.payload p))) /\
  (forall p key, wrapped (Query.csv_field p key)) /\
  (forall p key s,
     Query.get (Query.payload p) key (Query.VStr []) = Query.VStr s ->
     Query.csv_field p key
     = [DQ] ++ flat_map (fun c => if ascii_eqb c DQ then [DQ; DQ] else [c]) s
       ++ [DQ]) /\
  (forall p key v,
     Query.get (Query.payload p) key (Query.VStr []) = v ->
     (forall s, v <> Query.VStr s) ->
     Query.csv_field p key = [DQ] ++ Query.str_of v ++ [DQ]) /\
  (forall p key, ~ In key (Query.keys (Query.payload p)) ->
     Query.csv_field p key = [DQ; DQ]) /\
  (forall client limit offset,
     Query.render client (lit "csv") (p0 :: rest)
     = Query.csv_lines (p0 :: rest) /\
     (forall f1 f2 f3 f4,
        Query.selected client (lit "c") limit offset f1 f2 f3 f4
        = Ok (p0 :: rest) ->
        Query.query_all_points client (lit "c") limit offset f1 f2 f3 f4
          (lit "csv")
        = Query.Printed
            (Query.found_line (S (length rest)) limit offset
             :: repeat "-"%char 80 :: Query.csv_lines (p0 :: rest)))).
Proof.
  destruct (sorted_keys_spec (p0 :: rest)) as [Hsorted Hkeys].
  split; [reflexivity|]. split; [exact Hsorted|]. split; [exact Hkeys|].
  split; [apply csv_field_wrapped|]. split; [|split; [|split; [|split]]].
  - intros p key s H. unfold Query.csv_field. rewrite H.
    now rewrite replace_quotes.
  - intros p key v H Hv. unfold Query.csv_field. rewrite H.
    destruct v; try reflexivity. now destruct (Hv s).
  - intros p key H. unfold Query.csv_field.
    now rewrite (get_missing _ _ _ H).
  - reflexivity.
  - intros f1 f2 f3 f4 H. unfold Query.query_all_points. rewrite H.
    reflexivity.
Qed.

(** The scenario of the specification: two points, the second without
    [sender]. *)
Example csv_scenario_example :
  Query.csv_lines csv_scenario_points
  = [ lit "id," ++ [DQ] ++ lit "sender" ++ [DQ; ","%char; DQ] ++ lit "subject"
      ++ [DQ];
      lit "1," ++ [DQ] ++ lit "a@x" ++ [DQ; ","%char; DQ] ++ lit "Hi" ++ [DQ];
      lit "2," ++ [DQ; DQ; ","%char; DQ] ++ [DQ; DQ] ++ lit "B" ++ [DQ; DQ]
      ++ [DQ] ].
Proof. vm_compute. reflexivity. Qed.

(** The counterexample to C9 as it is worded: in the row of the first
    point of the scenario the first field is [1], the identifier, and it
    is not in double quotes. *)
Lemma csv_claim_counterexample : ~ csv_claim.
Proof.
  intros H.
  specialize (H csv_scenario_points
                (Query.Record_ (Query.IdInt 1)
                   [(lit "subject", Query.VStr (lit "Hi"));
                    (lit "sender", Query.VStr (lit "a@x"))])
                (or_introl eq_refl)).
  inversion H as [|field fields [inner Hfield] _]; subst.
  vm_compute in Hfield. destruct inner; discriminate Hfield.
Qed.

(* ===================================================================== *)
(** * Further properties: Text Normalizer *)
(* ===================================================================== *)

Lemma lstrip_decompose (s : str) :
  exists pre, s = pre ++ lstrip s /\ forallb isspace pre = true.
Proof.
  induction s as [|c s (pre & E & H)]; [now exists []|].
  cbn [lstrip]. destruct (isspace c) eqn:Hc.
  - exists (c :: pre). cbn [app forallb]. rewrite Hc, H. split; [|reflexivity].
    now rewrite <- E.
  - now exists [].
Qed.

Lemma lstrip_head (s : str) :
  match lstrip s with [] => True | c :: _ => isspace c = false end.
Proof.
  induction s as [|c s IH]; [exact I|].
  cbn [lstrip]. destruct (isspace c) eqn:Hc; [exact IH | exact Hc].
Qed.

Lemma rstrip_decompose (s : str) :
  exists post, s = rstrip s ++ post /\ forallb isspace post = true.
Proof.
  unfold rstrip. destruct (lstrip_decompose (rev s)) as (pre & E & H).
  exists (rev pre). split.
  - rewrite <- rev_app_distr, <- E. symmetry. apply rev_involutive.
  - rewrite forallb_forall in *. intros c Hc. apply H. now apply in_rev.
Qed.

Lemma strip_decompose (s : str) :
  exists pre post, s = pre ++ strip s ++ post.
Proof.
  unfold strip. destruct (lstrip_decompose s) as (pre & E & _).
  destruct (rstrip_decompose (lstrip s)) as (post & E' & _).
  exists pre, post. now rewrite <- E', <- E.
Qed.

Lemma substring_of_strip (needle s : str) :
  substring_of needle (strip s) -> substring_of needle s.
Proof.
  intros (a & b & E). destruct (strip_decompose s) as (pre & post & Hs).
  exists (pre ++ a), (b ++ post). rewrite Hs at 1. rewrite E.
  now rewrite <- !app_assoc.
Qed.

Lemma startswith_at (pre needle post : str) :
  startswith needle (skipn (length pre) (pre ++ needle ++ post)) = true.
Proof.
  rewrite skipn_app, skipn_all, Nat.sub_diag. cbn [skipn app].
  apply startswith_spec. now exists post.
Qed.

Lemma truncate_has_no_marker (ms : list str) (s m : str) :
  In m ms -> m <> [] ->
  ~ substring_of m (truncate_at (earliest ms s) s).
Proof.
  intros Hin Hm (pre & post & E).
  destruct (earliest ms s) as [i|] eqn:He; cbn [truncate_at] in E.
  - apply earliest_Some in He as (_ & Hle & Hbefore).
    assert (Hs : s = pre ++ m ++ (post ++ skipn i s)).
    { rewrite <- (firstn_skipn i s) at 1. rewrite E.
      now rewrite <- !app_assoc. }
    assert (Hlen : length (firstn i s) = i)
      by (rewrite length_firstn; lia).
    rewrite E, !length_app in Hlen.
    assert (0 < length m) by (destruct m; [congruence | simpl; lia]).
    pose proof (Hbefore (length pre) m ltac:(lia) Hin) as Hf.
    rewrite Hs, startswith_at in Hf. discriminate.
  - pose proof (earliest_None _ _ He (length pre) m) as Hf.
    rewrite E in Hf at 2. rewrite startswith_at in Hf.
    rewrite E, length_app in Hf. discriminate Hf; [lia | exact Hin].
Qed.

Section NormalizerMore.
Context {L : Libraries}.
Import Normalizer.

(** X1: whatever the body, none of the four signature markers occurs in
    what the normalizer returns. *)
Theorem normalized_has_no_marker (body m : str) :
  In m markers ->
  contains m (strip_quoted_and_signature body) = false.
Proof.
  intros Hin. destruct (contains m _) eqn:E; [|reflexivity].
  apply contains_spec in E. rewrite strip_quoted_and_signature_earliest in E.
  apply substring_of_strip in E.
  exfalso. revert E. apply truncate_has_no_marker; [exact Hin|].
  unfold markers in Hin. cbn [In] in Hin.
  intros ->. repeat destruct Hin as [Hin|Hin]; try discriminate Hin.
  exact Hin.
Qed.

(** X2: when the reply parser gives the body back as text that is not
    quoted and no marker occurs in it, the normalizer returns the body
    with the white space at its ends removed, and nothing else changed. *)
Theorem normalized_clean_body (body : str) :
  unquoted (reply_fragments body) = body ->
  (forall m, In m markers -> contains m body = false) ->
  strip_quoted_and_signature body = strip body.
Proof.
  intros Huq Hno. rewrite strip_quoted_and_signature_earliest, Huq.
  assert (E : earliest markers body = None).
  { assert (G : forall ms, (forall m, In m ms -> contains m body = false) ->
                           earliest ms body = None).
    { induction ms as [|m ms IH]; intros H; [reflexivity|].
      cbn [earliest]. rewrite IH by (intros; apply H; now right).
      pose proof (H m (or_introl eq_refl)) as Hm. unfold contains in Hm.
      destruct (str_find m body); [discriminate | reflexivity]. }
    now apply G. }
  now rewrite E.
Qed.

(** X3: what the normalizer returns never begins and never ends with a
    white-space character. *)
Theorem normalized_is_trimmed (body : str) :
  match strip_quoted_and_signature body with
  | [] => True
  | c :: _ => isspace c = false
  end /\
  match rev (strip_quoted_and_signature body) with
  | [] => True
  | c :: _ => isspace c = false
  end.
Proof.
  unfold strip_quoted_and_signature.
  generalize (fold_left cut_at markers (unquoted (reply_fragments body))).
  intros s. unfold strip. split.
  - destruct (rstrip_decompose (lstrip s)) as (post & E & _).
    pose proof (lstrip_head s) as H. rewrite E in H.
    destruct (rstrip (lstrip s)); [exact I | exact H].
  - unfold rstrip. rewrite rev_involutive. apply lstrip_head.
Qed.

End NormalizerMore.

(** The witnesses of X1 and X2. *)
Lemma normalized_has_no_marker_witness :
  contains (NL :: lit "Thanks")
    (Normalizer.strip_quoted_and_signature
       (lit "ok" ++ [NL] ++ lit "Thanks, A")) = false.
Proof.
  apply (normalized_has_no_marker _ (NL :: lit "Thanks")).
  right. left. reflexivity.
Defined.

Lemma normalized_clean_body_witness :
  Normalizer.strip_quoted_and_signature (lit "  see you soon ")
  = strip (lit "  see you soon ").
Proof.
  apply (normalized_clean_body (lit "  see you soon ")); [reflexivity|].
  intros m Hm. unfold Normalizer.markers in Hm. cbn [In] in Hm.
  repeat destruct Hm as [<-|Hm]; try reflexivity. destruct Hm.
Defined.

(* ===================================================================== *)
(** * Further properties: Attachment Extractor and Chunker *)
(* ===================================================================== *)

Section ExtractorMore.
Context {L : Libraries}.
Import Extractor.

(** X4: the text extracted from a PDF is the text of its first 50 pages,
    each page's text followed by a line feed (pages without text and pages
    that raise add nothing), put end to end; when that is longer than
    100,000 characters the result is its first 100,000 characters followed
    by the truncation marker. *)
Theorem extract_pages_closed_form (reader : pdf_reader)
    (pages : list page_outcome) :
  pdf_pages reader = Ok pages ->
  exists k,
    extract_pages reader
    = Ok (assemble (concat (map page_chunk (firstn 50 pages))), seq 0 k) /\
    (forall data md filename,
       PdfReader data = Ok reader -> pdf_metadata reader = Ok md ->
       is_pdf filename = true ->
       extract_data data filename
       = Ok (assemble (concat (map page_chunk (firstn 50 pages))))).
Proof.
  intros Hp. destruct (extract_pages_bounded reader pages Hp)
    as (text & k & E & _ & _).
  assert (Ht : text = assemble (concat (map page_chunk (firstn 50 pages)))).
  { unfold extract_pages in E. rewrite Hp in E. cbn [bind] in E.
    set (m := Nat.min PAGE_LIMIT (length pages)) in *.
    assert (Hloop : pages_loop pages (seq 0 m) [] [] = (text, seq 0 k))
      by congruence.
    assert (Hfst : fst (pages_loop pages (seq 0 m) [] []) = text)
      by now rewrite Hloop.
    rewrite <- Hfst.
    rewrite pages_loop_closed;
      [|cbn [Nat.add]; apply Nat.le_min_r | unfold len, TEXT_LIMIT; simpl; lia].
    cbn [skipn app]. do 3 f_equal.
    unfold m, PAGE_LIMIT.
    destruct (Nat.le_ge_cases 50 (length pages)).
    - now rewrite Nat.min_l.
    - rewrite Nat.min_r by assumption.
      now rewrite !firstn_all2 by lia. }
  exists k. subst text. split; [exact E|].
  intros data md filename Hr Hmd Hpdf. unfold extract_data, extract_pdf.
  rewrite Hpdf, Hr. cbn [bind]. rewrite Hmd. cbn [bind]. rewrite E.
  reflexivity.
Qed.

End ExtractorMore.

(** The witness of X4: a reader of three pages, the second of which
    raises. *)
Lemma extract_pages_closed_form_witness :
  exists k,
    Extractor.extract_pages
      (Reader (Ok None)
         (Ok [PageText (Some (lit "a"));
              PageRaises (Exc LibraryError (lit "bad"));
              PageText (Some (lit "b"))]))
    = Ok (assemble (lit "a" ++ [NL] ++ lit "b" ++ [NL]), seq 0 k).
Proof.
  destruct (extract_pages_closed_form
              (Reader (Ok None)
                 (Ok [PageText (Some (lit "a"));
                      PageRaises (Exc LibraryError (lit "bad"));
                      PageText (Some (lit "b"))]))
              _ eq_refl) as (k & E & _).
  exists k. exact E.
Defined.

Section ChunkerMore.
Import Chunker.

(** X5: for a chunk size K > 0 the chunks hold the words of the document,
    all of them, once each and in their order: splitting every chunk into
    words and putting the lists end to end gives back the words of the
    document.  The number of chunks is the number of words divided by K,
    rounded up. *)
Theorem chunk_text_words (text : str) (K : Z) :
  (0 < K)%Z ->
  exists chunks,
    chunk_text text K = Ok chunks /\
    concat (map split chunks) = split text /\
    len chunks = ((len (split text) + K - 1) / K)%Z.
Proof.
  intros HK. eexists. split; [apply chunk_text_windows; exact HK|].
  set (ws := split text). set (k := Z.to_nat K).
  assert (Hk : 0 < k) by (unfold k; lia).
  destruct (count_bounds (length ws) k Hk) as [Hcover _].
  split.
  - rewrite map_map.
    rewrite (map_ext _ (fun j => firstn k (skipn (j * k) ws))).
    + rewrite windows_concat. now apply firstn_all2.
    + intros j. apply split_join. apply Forall_firstn_skipn.
      apply split_words.
  - unfold len. rewrite length_map, length_seq.
    rewrite Nat2Z.inj_div. f_equal; unfold k; lia.
Qed.

End ChunkerMore.

Lemma chunk_text_words_witness :
  (0 < 2)%Z /\
  exists chunks,
    Chunker.chunk_text (lit " a b  c ") 2 = Ok chunks /\
    concat (map split chunks) = split (lit " a b  c ") /\
    len chunks = ((len (split (lit " a b  c ")) + 2 - 1) / 2)%Z.
Proof.
  split; [lia | apply (chunk_text_words (lit " a b  c ") 2); lia].
Defined.

(* ===================================================================== *)
(** * Further properties: Sync Tracker *)
(* ===================================================================== *)

Lemma ids_of_refs (ids : list str) :
  Sync.ids_of (map (fun i => MsgRef (Some i)) ids) = Ok ids.
Proof.
  induction ids as [|i ids IH]; [reflexivity|].
  cbn [map Sync.ids_of ref_id getitem bind]. now rewrite IH.
Qed.

(** X6: the identifiers taken from the change log are those of its
    records, record after record and in the order of each record; an
    identifier named twice is returned twice. *)
Theorem history_ids_in_order (idss : list (list str)) :
  Sync.history_ids (map record_of idss) = Ok (concat idss).
Proof.
  induction idss as [|ids idss IH]; [reflexivity|].
  cbn [map Sync.history_ids record_of h_messages Sync.get_messages].
  rewrite ids_of_refs. cbn [bind]. rewrite IH. reflexivity.
Qed.

Section SyncMore.
Variable service : Service.
Import Sync.

(** X7: with a cursor and a change log that answers with at least one
    message, the tracker returns the messages of the change log, does not
    send the fallback listing, and stores the watermark of the profile as
    the new cursor. *)
Theorem incremental_sync (cursor : str) (h : history_response)
    (hs : list history_record) (i : str) (ids : list str)
    (prof : profile) (hid : str) (max_results : Z) (w : world) :
  history_file w = Some cursor ->
  history_list service (strip cursor) = Ok h ->
  hr_history h = Some hs ->
  history_ids hs = Ok (i :: ids) ->
  getProfile service = Ok prof ->
  pr_historyId prof = Some hid ->
  fetch_new_messages service max_results w
  = (Ok (i :: ids),
     World (Some hid)
       (calls w ++ [CallHistoryList (strip cursor)] ++ [CallGetProfile])).
Proof.
  intros Hfile Hlist Hh Hids Hprof Hhid.
  unfold fetch_new_messages, incremental. rewrite Hfile, Hlist.
  cbn [bind try_except]. rewrite Hh, Hids. cbn [bind try_except].
  unfold listing. cbn [not_]. unfold save_cursor. rewrite Hprof, Hhid.
  cbn [log calls]. now rewrite <- app_assoc.
Qed.

(** X8: when the request to the change log raises, whatever the
    exception, the tracker falls back: it returns the identifiers of the
    listing of the most recent messages and stores the watermark of the
    profile as the new cursor. *)
Theorem expired_cursor_falls_back (cursor : str) (e : exn)
    (lr : list_response) (ids : list str) (prof : profile) (hid : str)
    (max_results : Z) (w : world) :
  history_file w = Some cursor ->
  history_list service (strip cursor) = Raise e ->
  messages_list service max_results = Ok lr ->
  ids_of (get_messages (lr_messages lr)) = Ok ids ->
  getProfile service = Ok prof ->
  pr_historyId prof = Some hid ->
  fetch_new_messages service max_results w
  = (Ok ids,
     World (Some hid)
       (calls w ++ [CallHistoryList (strip cursor)]
        ++ [CallMessagesList max_results] ++ [CallGetProfile])).
Proof.
  intros Hfile Hlist Hl Hids Hprof Hhid.
  unfold fetch_new_messages, incremental. rewrite Hfile, Hlist.
  cbn [bind try_except]. unfold listing. cbn [not_]. rewrite Hl.
  cbn [bind]. rewrite Hids. unfold save_cursor. rewrite Hprof, Hhid.
  cbn [log calls]. now rewrite <- !app_assoc.
Qed.

(** The cursor file at the end of [fetch_new_messages]. *)
Lemma profile_sent_app (w w' : world) (sent : list api_call) :
  calls w' = calls w ++ sent ->
  profile_sent w w'
  = existsb (fun c => match c with CallGetProfile => true | _ => false end)
            sent.
Proof.
  intros E. unfold profile_sent. rewrite E, skipn_app, skipn_all, Nat.sub_diag.
  reflexivity.
Qed.

(** The world after the incremental step and the listing: the cursor file
    is untouched and the profile has not been asked for. *)
Lemma before_save_cursor (max_results : Z) (w : world) :
  exists sent,
    calls (snd (listing service max_results (fst (incremental service w))
                  (snd (incremental service w))))
    = calls w ++ sent /\
    existsb (fun c => match c with CallGetProfile => true | _ => false end)
            sent = false /\
    history_file (snd (listing service max_results
                         (fst (incremental service w))
                         (snd (incremental service w))))
    = history_file w.
Proof.
  assert (Hinc : exists sent,
            calls (snd (incremental service w)) = calls w ++ sent /\
            existsb (fun c => match c with CallGetProfile => true | _ => false
                              end) sent = false /\
            history_file (snd (incremental service w)) = history_file w).
  { unfold incremental. destruct (history_file w) as [cursor|] eqn:E.
    - exists [CallHistoryList (strip cursor)]. cbn [snd log calls history_file].
      auto.
    - exists []. cbn [snd]. rewrite app_nil_r. auto. }
  destruct Hinc as (sent & Hc & Hs & Hf).
  destruct (incremental service w) as [message_ids w1]. cbn [fst snd] in *.
  unfold listing. destruct (not_ message_ids).
  - exists (sent ++ [CallMessagesList max_results]).
    cbn [snd log calls history_file]. rewrite Hc, <- app_assoc.
    split; [reflexivity|]. split; [|exact Hf].
    rewrite existsb_app, Hs. reflexivity.
  - exists sent. cbn [snd]. auto.
Qed.

Lemma cursor_of_fetch (max_results : Z) (w : world) :
  match fst (fetch_new_messages service max_results w) with
  | Ok _ =>
      exists prof hid,
        getProfile service = Ok prof /\ pr_historyId prof = Some hid /\
        history_file (snd (fetch_new_messages service max_results w))
        = Some hid
  | Raise _ =>
      match getProfile service with
      | Ok prof =>
          match pr_historyId prof with
          | None =>
              if profile_sent w (snd (fetch_new_messages service max_results w))
              then history_file
                     (snd (fetch_new_messages service max_results w))
                   = Some []
              else history_file
                     (snd (fetch_new_messages service max_results w))
                   = history_file w
          | Some _ =>
              history_file (snd (fetch_new_messages service max_results w))
              = history_file w
          end
      | Raise _ =>
          history_file (snd (fetch_new_messages service max_results w))
          = history_file w
      end
  end.
Proof.
  unfold fetch_new_messages.
  destruct (before_save_cursor max_results w) as (sent & Hc & Hs & Hf).
  destruct (incremental service w) as [message_ids w1]. cbn [fst snd] in *.
  destruct (listing service max_results message_ids w1) as [listed w2].
  cbn [fst snd] in *. destruct listed as [ids|e].
  - unfold save_cursor. destruct (getProfile service) as [prof|e];
      [|cbn [fst snd log history_file]; exact Hf].
    destruct (pr_historyId prof) as [hid|] eqn:Hhid; cbn [fst snd].
    + exists prof, hid. auto.
    + rewrite (profile_sent_app w _ (sent ++ [CallGetProfile])).
      * rewrite existsb_app. cbn [existsb]. rewrite orb_true_r. reflexivity.
      * cbn [calls log]. rewrite Hc, <- app_assoc. reflexivity.
  - cbn [fst snd]. rewrite (profile_sent_app w w2 sent Hc), Hs.
    destruct (getProfile service) as [prof|e']; [|exact Hf].
    destruct (pr_historyId prof); exact Hf.
Qed.

(** X9: whenever the tracker returns, the cursor file holds the watermark
    the profile request has just given, by whichever way the identifiers
    were found.  When it raises, the cursor file is as it was, with one
    exception: when the profile request was sent and answered without
    [historyId], the file, already opened for writing, is left empty.  An
    exception of the history request, of the listing or of the profile
    request itself leaves the file untouched. *)
Theorem cursor_after_fetch (max_results : Z) (w : world) :
  match fst (fetch_new_messages service max_results w) with
  | Ok _ =>
      exists prof hid,
        getProfile service = Ok prof /\ pr_historyId prof = Some hid /\
        history_file (snd (fetch_new_messages service max_results w))
        = Some hid
  | Raise _ =>
      match getProfile service with
      | Ok prof =>
          match pr_historyId prof with
          | None =>
              if profile_sent w (snd (fetch_new_messages service max_results w))
              then history_file
                     (snd (fetch_new_messages service max_results w))
                   = Some []
              else history_file
                     (snd (fetch_new_messages service max_results w))
                   = history_file w
          | Some _ =>
              history_file (snd (fetch_new_messages service max_results w))
              = history_file w
          end
      | Raise _ =>
          history_file (snd (fetch_new_messages service max_results w))
          = history_file w
      end
  end.
Proof. exact (cursor_of_fetch max_results w). Qed.

(** X10: the tracker sends at most three requests and in this order: the
    change log, with the cursor read from the file and trimmed, if and
    only if the cursor file exists; then the listing, at most once, and
    always when there is no cursor file; then the profile, at most once
    and always when the tracker returns. *)
Theorem fetch_request_order (max_results : Z) (w : world) :
  exists lst prof,
    calls (snd (fetch_new_messages service max_results w))
    = calls w
      ++ match history_file w with
         | Some cursor => [CallHistoryList (strip cursor)]
         | None => []
         end
      ++ lst ++ prof /\
    (lst = [] \/ lst = [CallMessagesList max_results]) /\
    (prof = [] \/ prof = [CallGetProfile]) /\
    (history_file w = None -> lst = [CallMessagesList max_results]) /\
    (forall ids, fst (fetch_new_messages service max_results w) = Ok ids ->
                 prof = [CallGetProfile]).
Proof.
  unfold fetch_new_messages.
  assert (Hinc : calls (snd (incremental service w))
                 = calls w ++ match history_file w with
                              | Some cursor => [CallHistoryList (strip cursor)]
                              | None => []
                              end /\
                 (history_file w = None ->
                  fst (incremental service w) = None)).
  { unfold incremental. destruct (history_file w); cbn [snd fst log calls].
    - split; [reflexivity | discriminate].
    - now rewrite app_nil_r. }
  destruct (incremental service w) as [message_ids w1].
  cbn [fst snd] in Hinc. destruct Hinc as [Hcalls Hnone].
  unfold listing. destruct (not_ message_ids) eqn:Hnot.
  - destruct (messages_list service max_results) as [lr|e]; cbn [bind].
    + destruct (ids_of _) as [ids|e].
      * unfold save_cursor. destruct (getProfile service) as [prof|e].
        -- destruct (pr_historyId prof); cbn [fst snd calls log];
             exists [CallMessagesList max_results], [CallGetProfile];
             rewrite Hcalls, <- !app_assoc; repeat split; auto;
             discriminate.
        -- cbn [fst snd calls log].
           exists [CallMessagesList max_results], [CallGetProfile].
           rewrite Hcalls, <- !app_assoc. repeat split; auto.
      * cbn [fst snd calls log]. exists [CallMessagesList max_results], [].
        rewrite Hcalls, <- !app_assoc. repeat split; auto. discriminate.
    + cbn [fst snd calls log]. exists [CallMessagesList max_results], [].
      rewrite Hcalls, <- !app_assoc. repeat split; auto. discriminate.
  - assert (Hsome : history_file w = None -> False).
    { intros H. rewrite (Hnone H) in Hnot. discriminate. }
    unfold save_cursor. destruct (getProfile service) as [prof|e].
    + destruct (pr_historyId prof); cbn [fst snd calls log];
        exists [], [CallGetProfile]; rewrite Hcalls, <- !app_assoc;
        repeat split; auto; try discriminate; intros H; now destruct Hsome.
    + cbn [fst snd calls log]. exists [], [CallGetProfile].
      rewrite Hcalls, <- !app_assoc. repeat split; auto.
      intros H; now destruct Hsome.
Qed.

End SyncMore.

(** The witnesses of X7 and X8. *)
Lemma incremental_sync_witness :
  Sync.fetch_new_messages history_service 50 (Sync.World (Some (lit " 7 ")) [])
  = (Ok [lit "m1"; lit "m3"; lit "m1"],
     Sync.World (Some (lit "202"))
       ([] ++ [Sync.CallHistoryList (strip (lit " 7 "))]
        ++ [Sync.CallGetProfile])).
Proof.
  apply (incremental_sync history_service (lit " 7 ")
           (HistoryResponse
              (Some [record_of [lit "m1"]; History None;
                     record_of [lit "m3"; lit "m1"]]))
           [record_of [lit "m1"]; History None;
            record_of [lit "m3"; lit "m1"]]
           (lit "m1") [lit "m3"; lit "m1"]
           (Profile (Some (lit "202"))) (lit "202") 50
           (Sync.World (Some (lit " 7 ")) []));
    reflexivity.
Defined.

Lemma expired_cursor_falls_back_witness :
  Sync.fetch_new_messages expired_service 50 (Sync.World (Some (lit "7")) [])
  = (Ok [lit "m3"],
     Sync.World (Some (lit "303"))
       ([] ++ [Sync.CallHistoryList (strip (lit "7"))]
        ++ [Sync.CallMessagesList 50] ++ [Sync.CallGetProfile])).
Proof.
  apply (expired_cursor_falls_back expired_service (lit "7")
           (Exc LibraryError (lit "404"))
           (ListResponse (Some [MsgRef (Some (lit "m3"))]))
           [lit "m3"] (Profile (Some (lit "303"))) (lit "303") 50
           (Sync.World (Some (lit "7")) []));
    reflexivity.
Defined.

(* ===================================================================== *)
(** * Further properties: MIME Walker *)
(* ===================================================================== *)

Section WalkerMore.
Context {L : Libraries}.
Variable service : Service.
Variable msg_id : str.
Import Walker.

Lemma inline_pdf_total (file_data : bytes) :
  exists text, inline_pdf file_data = Ok text.
Proof.
  unfold inline_pdf.
  destruct (PdfReader file_data) as [reader|e]; cbn [bind try_except];
    [|eauto].
  destruct (Extractor.extract_pages reader) as [r|e]; cbn [bind try_except];
    eauto.
Qed.

Lemma extract_docx_total (file_data : bytes) :
  exists text, Extractor.extract_docx file_data = Ok text.
Proof.
  unfold Extractor.extract_docx.
  destruct (docx_paragraphs file_data) as [ps|e]; cbn [bind try_except];
    eauto.
Qed.

Lemma body_of_plain_text (p : part) :
  body_of service msg_id p = plain_text p.
Proof.
  unfold body_of, plain_text, visit, mime_of. cbv zeta.
  destruct (str_eqb _ TEXT_MIME).
  - destruct (p_body p) as [b|]; cbn [getitem bind]; [|reflexivity].
    destruct (b_data b) as [[|c d]|]; [reflexivity| |reflexivity].
    destruct (urlsafe_b64decode (c :: d)); reflexivity.
  - destruct (_ || _); [|reflexivity].
    destruct (p_body p) as [b|]; cbn [getitem bind]; [|reflexivity].
    destruct (b_attachmentId b) as [[|c aid]|]; try reflexivity.
    unfold fetch_and_extract.
    destruct (attachments_get service msg_id (c :: aid)) as [att|e];
      cbn [bind]; [|reflexivity].
    destruct (att_data att) as [d|]; cbn [getitem bind]; [|reflexivity].
    destruct (urlsafe_b64decode d) as [file_data|e]; cbn [bind];
      [|reflexivity].
    destruct (filename_lower (p_filename p)) as [name|e]; cbn [bind];
      [|reflexivity].
    destruct (endswith (lit ".pdf") name).
    + destruct (inline_pdf file_data); reflexivity.
    + destruct (endswith (lit ".docx") name); [|reflexivity].
      destruct (Extractor.extract_docx file_data); reflexivity.
Qed.

(** X11: the body text of a message with parts is made of its parts
    declared [text/plain] and of nothing else: the document is the header
    block, then the normalized concatenation, in depth-first order, of
    the decoded data of these parts, then the section of the attachments
    if there is one.  Parts of any other type, HTML among them, and the
    attachments add nothing to the body. *)
Theorem body_text_is_plain_text (msg : message) (ps : list part)
    (d : details) :
  messages_get service msg_id = Ok msg ->
  pl_parts (m_payload msg) = Some ps ->
  get_email_details service msg_id = Ok d ->
  exists attachments_text,
    d_text d
    = header_block (d_subject d) (d_sender d) (d_to d) (d_date d)
      ++ Normalizer.strip_quoted_and_signature
           (concat (map plain_text (preorder_list ps)))
      ++ match attachments_text with
         | [] => []
         | _ :: _ => attachments_section attachments_text
         end.
Proof.
  intros Hmsg Hps. unfold get_email_details. rewrite Hmsg. cbn [bind].
  unfold collect. rewrite Hps.
  destruct (walk_parts service msg_id ps ([], [])) as [st|e] eqn:Hst;
    cbn [bind]; [|discriminate].
  intros [= <-]. cbn [d_text d_subject d_sender d_to d_date].
  rewrite walk_parts_preorder in Hst.
  apply visit_all_appends in Hst as [Hbody _]. cbn [fst app] in Hbody.
  rewrite Hbody, flat_map_concat_map.
  rewrite (map_ext _ _ body_of_plain_text).
  exists (snd st). unfold compose.
  destruct (snd st); rewrite <- ?app_assoc, ?app_nil_r; reflexivity.
Qed.

Lemma text_not_attachment (p : part) :
  str_eqb (mime_of p) TEXT_MIME = true -> declared_attachment p = false.
Proof.
  intros H. apply str_eqb_spec in H. unfold declared_attachment.
  rewrite H. reflexivity.
Qed.

Lemma visit_count (p : part) (st st' : walk_state) :
  visit service msg_id p st = Ok st' ->
  length (snd st') = length (snd st) + (if extracted p then 1 else 0).
Proof.
  unfold visit, extracted. fold (mime_of p). cbv zeta.
  destruct (str_eqb (mime_of p) TEXT_MIME) eqn:Htext.
  - rewrite (text_not_attachment p Htext). cbn [andb].
    destruct (p_body p) as [b|]; cbn [getitem bind]; [|discriminate].
    destruct (b_data b) as [[|c d]|]; try (intros [= <-]; lia).
    destruct (urlsafe_b64decode (c :: d)); cbn [bind]; [|discriminate].
    intros [= <-]. cbn [snd]. lia.
  - unfold declared_attachment.
    destruct (_ || _); cbn [andb]; [|intros [= <-]; lia].
    destruct (p_body p) as [b|]; cbn [getitem bind]; [|discriminate].
    destruct (b_attachmentId b) as [[|c aid]|]; cbn [truthy andb];
      try (intros [= <-]; lia).
    unfold fetch_and_extract.
    destruct (attachments_get service msg_id (c :: aid)) as [att|e];
      cbn [bind]; [|discriminate].
    destruct (att_data att) as [data|]; cbn [getitem bind]; [|discriminate].
    destruct (urlsafe_b64decode data) as [file_data|e]; cbn [bind];
      [|discriminate].
    destruct (p_filename p) as [f|]; cbn [filename_lower bind];
      [|discriminate].
    unfold Extractor.is_pdf, Extractor.is_docx.
    destruct (endswith (lit ".pdf") (lower f)); cbn [orb].
    + destruct (inline_pdf_total file_data) as [text ->]. cbn [bind].
      intros [= <-]. cbn [snd]. rewrite length_app. reflexivity.
    + destruct (endswith (lit ".docx") (lower f)).
      * destruct (extract_docx_total file_data) as [text ->]. cbn [bind].
        intros [= <-]. cbn [snd]. rewrite length_app. reflexivity.
      * intros [= <-]. lia.
Qed.

Lemma visit_all_count (ps : list part) (st st' : walk_state) :
  visit_all service msg_id ps st = Ok st' ->
  length (snd st') = length (snd st) + length (filter extracted ps).
Proof.
  revert st. induction ps as [|p ps IH]; intros st.
  - intros [= <-]. cbn [filter length]. lia.
  - cbn [visit_all]. destruct (visit service msg_id p st) as [st1|e] eqn:Hv;
      cbn [bind]; [|discriminate].
    intros H. apply IH in H. apply visit_count in Hv. rewrite H, Hv.
    cbn [filter]. destruct (extracted p); cbn [length]; lia.
Qed.

Lemma visit_texts (p : part) (st st' : walk_state) :
  visit service msg_id p st = Ok st' ->
  if extracted p
  then exists text, texts_of service msg_id p = [text] /\
                    snd st' = snd st ++ [text]
  else snd st' = snd st.
Proof.
  intros Hv. pose proof (visit_count p st st' Hv) as Hc.
  destruct (visit_appends service msg_id p st st' Hv)
    as (body & texts & E & -> & Hlen).
  cbn [snd] in *. rewrite length_app in Hc. unfold texts_of. rewrite E.
  cbn [snd]. destruct (extracted p).
  - destruct texts as [|t [|t' texts]]; cbn [length] in Hc, Hlen; try lia.
    now exists t.
  - destruct texts as [|t texts]; cbn [length] in Hc; [|lia].
    apply app_nil_r.
Qed.

Lemma visit_all_texts (ps : list part) (st st' : walk_state) :
  visit_all service msg_id ps st = Ok st' ->
  exists texts,
    snd st' = snd st ++ texts /\
    Forall2 (fun p text => texts_of service msg_id p = [text])
            (filter extracted ps) texts.
Proof.
  revert st. induction ps as [|p ps IH]; intros st.
  - intros [= <-]. exists []. split; [now rewrite app_nil_r | constructor].
  - cbn [visit_all]. destruct (visit service msg_id p st) as [st1|e] eqn:Hv;
      cbn [bind]; [|discriminate].
    intros H. apply IH in H as (texts & E & F).
    apply visit_texts in Hv. cbn [filter]. destruct (extracted p).
    + destruct Hv as (text & Ht & E1). exists (text :: texts). split.
      * rewrite E, E1, <- app_assoc. reflexivity.
      * now constructor.
    + exists texts. split; [now rewrite E, Hv | exact F].
Qed.

(** X12: whenever the parts of a message are walked to the end, the
    attachment texts collected are, one for one and in depth-first order,
    those of the parts that are declared as PDF or DOCX, carry an
    attachment id and have a file name in [.pdf] or [.docx], be the
    extraction a text or a placeholder for a failure; no other part gives
    an attachment text, and a message without parts has none. *)
Theorem one_text_per_attachment (pl : payload) (st : walk_state) :
  collect service msg_id pl = Ok st ->
  Forall2 (fun p text => texts_of service msg_id p = [text])
          (filter extracted (parts_of pl)) (snd st) /\
  length (snd st) = length (filter extracted (parts_of pl)).
Proof.
  intros H.
  assert (F : Forall2 (fun p text => texts_of service msg_id p = [text])
                      (filter extracted (parts_of pl)) (snd st)).
  { revert H. unfold collect, parts_of. destruct (pl_parts pl) as [ps|].
    - rewrite walk_parts_preorder. intros H.
      apply visit_all_texts in H as (texts & E & F). cbn [snd app] in E.
      now rewrite E.
    - destruct (pl_body pl) as [b|]; cbn [getitem bind]; [|discriminate].
      destruct (b_data b) as [[|c d]|]; try (intros [= <-]; constructor).
      destruct (urlsafe_b64decode (c :: d)); cbn [bind]; [|discriminate].
      intros [= <-]. constructor. }
  split; [exact F|]. symmetry. exact (Forall2_length F).
Qed.

Lemma visit_other (p : part) (st : walk_state) :
  other_part p = true -> visit service msg_id p st = Ok st.
Proof.
  unfold other_part, declared_attachment, visit. fold (mime_of p). cbv zeta.
  intros H. apply andb_true_iff in H as [H1 H2].
  apply negb_true_iff in H1, H2. now rewrite H1, H2.
Qed.

(** X13: parts that are declared neither as [text/plain] nor as PDF nor
    as DOCX are passed over: a tree made of such parts only, at any
    depth, leaves the texts as they were and does not raise, even where a
    part has no [body]. *)
Theorem other_parts_ignored (ps : list part) (st : walk_state) :
  Forall (fun p => other_part p = true) (preorder_list ps) ->
  walk_parts service msg_id ps st = Ok st.
Proof.
  rewrite walk_parts_preorder. induction 1 as [|p l Hp _ IH];
    [reflexivity|].
  cbn [visit_all]. rewrite (visit_other p st Hp). exact IH.
Qed.

Lemma walk_reaches_failure (p : part) (ps : list part) :
  reaches p ps -> (forall st, raises (visit service msg_id p st)) ->
  forall st, raises (walk_parts service msg_id ps st).
Proof.
  intros Hr Hp. induction Hr as [ps|q ps sub Hsub _ IH|q ps _ IH]; intros st;
    cbn [walk_parts].
  - apply raises_bind. rewrite walk_part_unfold. apply raises_bind.
    apply Hp.
  - apply raises_bind. rewrite walk_part_unfold, Hsub.
    apply raises_bind_either. intros st1 _. apply IH.
  - apply raises_bind_either. intros st1 _. apply IH.
Qed.

(** X14: the download of an attachment is not protected: when the
    request for the attachment of a part declared as PDF or DOCX raises,
    wherever the part lies in the message, [get_email_details] raises,
    and so does the loop of [main] over any list that has the message. *)
Theorem attachment_fetch_failure_aborts (msg : message) (ps : list part)
    (p : part) (b : part_body) (c : ascii) (aid : str) :
  messages_get service msg_id = Ok msg ->
  pl_parts (m_payload msg) = Some ps ->
  reaches p ps ->
  declared_attachment p = true ->
  p_body p = Some b ->
  b_attachmentId b = Some (c :: aid) ->
  raises (attachments_get service msg_id (c :: aid)) ->
  raises (get_email_details service msg_id) /\
  (forall ids points counter, In msg_id ids ->
     raises (Pipeline.build_points service ids points counter)).
Proof.
  intros Hmsg Hps Hreach Hdecl Hb Haid Hfetch.
  assert (Hvisit : forall st, raises (visit service msg_id p st)).
  { intros st. unfold visit. fold (mime_of p). cbv zeta.
    destruct (str_eqb (mime_of p) TEXT_MIME) eqn:Htext.
    - rewrite (text_not_attachment p Htext) in Hdecl. discriminate.
    - unfold declared_attachment in Hdecl. rewrite Hdecl, Hb.
      cbn [getitem bind]. rewrite Haid. unfold fetch_and_extract.
      now apply raises_bind. }
  assert (Hraise : raises (get_email_details service msg_id)).
  { unfold get_email_details. rewrite Hmsg. cbn [bind]. apply raises_bind.
    unfold collect. rewrite Hps. now apply walk_reaches_failure with p. }
  split; [exact Hraise|].
  intros ids points counter Hin.
  exact (build_points_raises service msg_id ids Hraise Hin points counter).
Qed.

Lemma inline_pdf_as_extractor (file_data : bytes) :
  (forall reader, PdfReader file_data = Ok reader ->
                  exists md, pdf_metadata reader = Ok md) ->
  inline_pdf file_data
  = (r <- Extractor.extract_pdf file_data ;; Ok (fst r)).
Proof.
  intros Hmd. unfold inline_pdf, Extractor.extract_pdf.
  destruct (PdfReader file_data) as [reader|e]; [|reflexivity].
  destruct (Hmd reader eq_refl) as [md Emd]. cbn [bind]. rewrite Emd.
  cbn [bind]. destruct (Extractor.extract_pages reader); reflexivity.
Qed.

(** X15: the extraction written out inside [walk_parts] agrees with
    [extract_attachment_text]: once the attachment is fetched and
    decoded, and unless reading the metadata of the PDF raises (the
    walker does not read them), the walker appends exactly the text the
    extractor returns for that payload and file name, when the name ends
    in [.pdf] or [.docx], and appends nothing otherwise. *)
Theorem walker_extracts_as_extractor (attach_id f : str) (st : walk_state)
    (att : attachment) (data : str) (file_data : bytes) :
  attachments_get service msg_id attach_id = Ok att ->
  att_data att = Some data ->
  urlsafe_b64decode data = Ok file_data ->
  (forall reader, PdfReader file_data = Ok reader ->
                  exists md, pdf_metadata reader = Ok md) ->
  fetch_and_extract service msg_id attach_id (Some f) st
  = (text <- Extractor.extract_data file_data f ;;
     Ok (if Extractor.is_pdf f || Extractor.is_docx f
         then (fst st, snd st ++ [text])
         else st)).
Proof.
  intros Hatt Hdata Hdec Hmd. unfold fetch_and_extract.
  rewrite Hatt. cbn [bind]. rewrite Hdata. cbn [getitem bind].
  rewrite Hdec. cbn [bind filename_lower].
  unfold Extractor.extract_data, Extractor.is_pdf, Extractor.is_docx.
  destruct (endswith (lit ".pdf") (lower f)); cbn [orb].
  - rewrite (inline_pdf_as_extractor file_data Hmd).
    destruct (Extractor.extract_pdf file_data); reflexivity.
  - destruct (endswith (lit ".docx") (lower f)); reflexivity.
Qed.

Lemma find_rev_last (hs : list (str * str)) (name : str) :
  (forall h, In h hs -> fst h <> name) ->
  List.find (fun h => str_eqb (fst h) name) hs = None.
Proof.
  induction hs as [|h hs IH]; intros H; [reflexivity|].
  cbn [List.find]. destruct (str_eqb (fst h) name) eqn:E.
  - apply str_eqb_spec in E. exfalso. apply (H h); [now left | exact E].
  - apply IH. intros h' Hin. apply H. now right.
Qed.

Lemma find_app (A : Type) (f : A -> bool) (l1 l2 : list A) :
  List.find f (l1 ++ l2)
  = match List.find f l1 with
    | Some x => Some x
    | None => List.find f l2
    end.
Proof.
  induction l1 as [|x l1 IH]; [reflexivity|].
  cbn [app List.find]. destruct (f x); [reflexivity | exact IH].
Qed.

(** X16: among several headers of the same name the last one is used;
    names are compared exactly, letter case included, and a header that
    is not there reads as the empty string. *)
Theorem headers_get_last (pre post : list (str * str)) (name v : str) :
  (forall h, In h post -> fst h <> name) ->
  headers_get (pre ++ (name, v) :: post) name = v /\
  headers_get post name = [].
Proof.
  intros H.
  assert (Hpost : List.find (fun h => str_eqb (fst h) name) (rev post) = None).
  { apply find_rev_last. intros h Hin. apply H. now apply in_rev. }
  unfold headers_get. split; [|now rewrite Hpost].
  rewrite rev_app_distr. cbn [rev]. rewrite <- app_assoc, find_app, Hpost.
  cbn [app List.find fst snd]. now rewrite str_eqb_refl.
Qed.

End WalkerMore.

Lemma body_text_is_plain_text_witness :
  exists attachments_text,
    Walker.d_text
      (Walker.Details (lit "m3") (Some (lit "t3")) (lit "Hi") (lit "a@x")
         (lit "b@x") (lit "today")
         (Walker.compose (lit "Hi") (lit "a@x") (lit "b@x") (lit "today")
            (lit "Hello")
            [lit "p1" ++ [NL] ++ lit "p2" ++ [NL]; lit "paragraph"]))
    = Walker.header_block (lit "Hi") (lit "a@x") (lit "b@x") (lit "today")
      ++ Normalizer.strip_quoted_and_signature (lit "Hello")
      ++ match attachments_text with
         | [] => []
         | _ :: _ => Walker.attachments_section attachments_text
         end.
Proof.
  assert (Hmsg : messages_get example_service (lit "m3")
                 = Ok (example_message (lit "m3"))) by reflexivity.
  assert (Hps : pl_parts (m_payload (example_message (lit "m3")))
                = Some (match pl_parts (m_payload (example_message (lit "m3")))
                        with Some ps => ps | None => [] end))
    by reflexivity.
  assert (Hd : Walker.get_email_details example_service (lit "m3")
               = Ok (Walker.Details (lit "m3") (Some (lit "t3")) (lit "Hi")
                       (lit "a@x") (lit "b@x") (lit "today")
                       (Walker.compose (lit "Hi") (lit "a@x") (lit "b@x")
                          (lit "today") (lit "Hello")
                          [lit "p1" ++ [NL] ++ lit "p2" ++ [NL];
                           lit "paragraph"])))
    by (vm_compute; reflexivity).
  exact (body_text_is_plain_text example_service (lit "m3") _ _ _ Hmsg Hps Hd).
Defined.

Lemma one_text_per_attachment_witness :
  Forall2 (fun p text => texts_of example_service (lit "m3") p = [text])
          (filter extracted
             (parts_of (m_payload (example_message (lit "m3")))))
          [lit "p1" ++ [NL] ++ lit "p2" ++ [NL]; lit "paragraph"] /\
  length [lit "p1" ++ [NL] ++ lit "p2" ++ [NL]; lit "paragraph"]
  = length (filter extracted
              (parts_of (m_payload (example_message (lit "m3"))))).
Proof.
  apply (one_text_per_attachment example_service (lit "m3")
           (m_payload (example_message (lit "m3")))
           (lit "Hello",
            [lit "p1" ++ [NL] ++ lit "p2" ++ [NL]; lit "paragraph"])).
  vm_compute. reflexivity.
Defined.

Lemma other_parts_ignored_witness :
  Walker.walk_parts example_service (lit "m9") html_parts ([], [])
  = Ok ([], []).
Proof.
  apply (other_parts_ignored example_service (lit "m9") html_parts ([], [])).
  repeat constructor.
Defined.

Lemma attachment_fetch_failure_aborts_witness :
  raises (Walker.get_email_details broken_attachment_service (lit "m3")) /\
  (forall ids points counter, In (lit "m3") ids ->
     raises (Pipeline.build_points broken_attachment_service ids points
               counter)).
Proof.
  pose (p := Part (Some (lit "application/pdf")) (Some (lit "A.PDF"))
                  (Some (Body None (Some (lit "two")))) None).
  apply (attachment_fetch_failure_aborts broken_attachment_service (lit "m3")
           (example_message (lit "m3"))
           (match pl_parts (m_payload (example_message (lit "m3"))) with
            | Some ps => ps
            | None => []
            end)
           p (Body None (Some (lit "two"))) "t"%char (lit "wo")).
  - reflexivity.
  - reflexivity.
  - apply reaches_next. apply reaches_here.
  - reflexivity.
  - reflexivity.
  - reflexivity.
  - eexists. reflexivity.
Defined.

Lemma walker_extracts_as_extractor_witness :
  Walker.fetch_and_extract example_service (lit "m3") (lit "two")
    (Some (lit "A.PDF")) (lit "Hello", [])
  = (text <- Extractor.extract_data (lit "p1 p2") (lit "A.PDF") ;;
     Ok (if Extractor.is_pdf (lit "A.PDF") || Extractor.is_docx (lit "A.PDF")
         then (fst (lit "Hello", @nil str),
               snd (lit "Hello", @nil str) ++ [text])
         else (lit "Hello", []))).
Proof.
  apply (walker_extracts_as_extractor example_service (lit "m3") (lit "two")
           (lit "A.PDF") (lit "Hello", []) (Attachment (Some (lit "p1 p2")))
           (lit "p1 p2") (lit "p1 p2")).
  - reflexivity.
  - reflexivity.
  - reflexivity.
  - intros reader [= <-]. eexists. reflexivity.
Defined.

Lemma headers_get_last_witness :
  Walker.headers_get
    ([(lit "Subject", lit "first")] ++ (lit "Subject", lit "second")
     :: [(lit "subject", lit "third")]) (lit "Subject")
  = lit "second" /\
  Walker.headers_get [(lit "subject", lit "third")] (lit "Subject") = [].
Proof.
  apply (headers_get_last [(lit "Subject", lit "first")]
           [(lit "subject", lit "third")] (lit "Subject") (lit "second")).
  intros h [<- | []]. discriminate.
Defined.

(* ===================================================================== *)
(** * Further properties: Ingestion Pipeline *)
(* ===================================================================== *)

Section PipelineMore.
Context {L : Libraries}.
Variable service : Service.
Import Pipeline.

(** The Composite Document begins with [Subject:]: it has at least one
    word, and the message at least one chunk. *)
Lemma details_of_message (msg_id : str) (d : Walker.details) :
  Walker.get_email_details service msg_id = Ok d ->
  Walker.d_id d = msg_id /\ split (Walker.d_text d) <> [].
Proof.
  unfold Walker.get_email_details.
  destruct (messages_get service msg_id) as [msg|e]; cbn [bind];
    [|discriminate].
  destruct (Walker.collect service msg_id (m_payload msg)) as [st|e];
    cbn [bind]; [|discriminate].
  intros [= <-]. cbn [Walker.d_id Walker.d_text]. split; [reflexivity|].
  intros H. apply split_nil_iff in H. unfold Walker.compose in H.
  destruct (snd st); discriminate H.
Qed.

Lemma chunk_text_nonempty (text : str) (chunks : list str) :
  split text <> [] ->
  Chunker.chunk_text text INGEST_CHUNK_SIZE = Ok chunks -> chunks <> [].
Proof.
  intros Hw. rewrite chunk_text_windows by reflexivity.
  remember (Z.to_nat INGEST_CHUNK_SIZE) as k eqn:Hk.
  assert (Hpos : 0 < k) by (subst k; apply Nat.lt_0_succ).
  destruct (count_bounds (length (split text)) k Hpos) as [Hcover _].
  remember ((length (split text) + k - 1) / k) as m eqn:Hm.
  intros [= <-] H. apply map_eq_nil in H.
  destruct m as [|m]; [|discriminate H].
  destruct (split text); [congruence | cbn [length] in Hcover; lia].
Qed.

Lemma chunk_text_count (text : str) (chunks : list str) :
  Chunker.chunk_text text INGEST_CHUNK_SIZE = Ok chunks ->
  length chunks = (length (split text) + 199) / 200.
Proof.
  rewrite chunk_text_windows by reflexivity. intros [= <-].
  rewrite length_map, length_seq.
  generalize (length (split text)). intros n.
  change ((n + 200 - 1) / 200 = (n + 199) / 200).
  rewrite <- (Nat.add_sub_assoc n 200 1) by (apply le_n_S, Nat.le_0_l).
  reflexivity.
Qed.

Lemma map_seq_from (A : Type) (f : nat -> A) (a n : nat) :
  map f (seq a n) = map (fun i => f (a + i)) (seq 0 n).
Proof.
  rewrite <- (Nat.add_0_r a) at 1. generalize 0 as b.
  induction n as [|n IH]; intros b; [reflexivity|].
  cbn [seq map]. f_equal. rewrite <- Nat.add_succ_r. apply IH.
Qed.

Lemma NoDup_map_of_nat (l : list nat) : NoDup l -> NoDup (map Z.of_nat l).
Proof.
  induction 1 as [|a l Ha _ IH]; cbn [map]; constructor; [|exact IH].
  intros Hin. apply in_map_iff in Hin as (x & E & Hx).
  apply Nat2Z.inj in E. now subst.
Qed.

(** One message: its group of points, numbered from the counter. *)
Lemma ingest_message_group (msg_id : str) (points : list PointStruct)
    (counter : Z) (r : list PointStruct * Z) :
  ingest_message service msg_id points counter = Ok r ->
  exists new,
    fst r = points ++ new /\ snd r = (counter + len new)%Z /\
    group_of service msg_id new /\
    map pt_id new
    = map (fun i => (counter + Z.of_nat i)%Z) (seq 0 (length new)).
Proof.
  unfold ingest_message.
  destruct (Walker.get_email_details service msg_id) as [d|e] eqn:Hd;
    cbn [bind]; [|discriminate].
  destruct (Chunker.chunk_text (Walker.d_text d) INGEST_CHUNK_SIZE)
    as [chunks|e] eqn:Hchunks; cbn [bind]; [|discriminate].
  destruct (details_of_message msg_id d Hd) as [Hid Hwords].
  pose proof (chunk_text_nonempty _ _ Hwords Hchunks) as Hne.
  pose proof (chunk_text_count _ _ Hchunks) as Hcount.
  intros H. apply embed_chunks_spec in H as (new & H1 & H2 & H3 & H4 & _).
  assert (Hlen : length new = length chunks).
  { apply (f_equal (@length _)) in H4.
    now rewrite !length_map, length_seq in H4. }
  exists new. split; [exact H1|]. split.
  { rewrite H2. unfold len. now rewrite Hlen. }
  split; [|now rewrite Hlen].
  exists d. split; [exact Hd|]. split; [exact H3|]. split.
  { apply Forall_forall. intros pt Hpt. rewrite Forall_forall in H3.
    unfold message_of. now rewrite (H3 pt Hpt). }
  split; [|now rewrite Hlen].
  intros ->. destruct chunks; [congruence | discriminate Hlen].
Qed.

(** The whole loop: one group per message, in the order of the
    messages, numbered through. *)
Lemma build_points_groups (ids : list str) :
  forall points counter r,
    build_points service ids points counter = Ok r ->
    exists groups,
      fst r = points ++ concat groups /\
      snd r = (counter + len (concat groups))%Z /\
      Forall2 (group_of service) ids groups /\
      map pt_id (concat groups)
      = map (fun i => (counter + Z.of_nat i)%Z)
            (seq 0 (length (concat groups))).
Proof.
  induction ids as [|msg_id ids IH]; intros points counter r.
  - intros [= <-]. exists []. cbn [concat fst snd length seq map].
    rewrite app_nil_r. repeat split; [unfold len; cbn [length]; lia|].
    constructor.
  - cbn [build_points].
    destruct (ingest_message service msg_id points counter) as [r1|e] eqn:H1;
      cbn [bind]; [|discriminate].
    intros H. apply IH in H as (groups & G1 & G2 & G3 & G4).
    apply ingest_message_group in H1 as (new & N1 & N2 & N3 & N5).
    exists (new :: groups). cbn [concat]. repeat split.
    + now rewrite G1, N1, <- app_assoc.
    + rewrite G2, N2. unfold len. rewrite length_app. lia.
    + constructor; [exact N3 | exact G3].
    + rewrite map_app, length_app, seq_app, map_app, N5, G4. f_equal.
      cbn [Nat.add]. rewrite (map_seq_from _ _ (length new)).
      apply map_ext. intros i. rewrite N2. unfold len. lia.
Qed.

(** X17: the identifiers of the points of a run are 0, 1, 2, ... in the
    order in which the points were made; they are all different, and the
    counter ends at the number of points. *)
Theorem batch_numbering (ids : list str) (r : list PointStruct * Z) :
  build_points service ids [] 0 = Ok r ->
  map pt_id (fst r) = map Z.of_nat (seq 0 (length (fst r))) /\
  snd r = len (fst r) /\
  NoDup (map pt_id (fst r)).
Proof.
  intros H. apply build_points_groups in H as (groups & G1 & G2 & _ & G4).
  cbn [app] in G1. rewrite G1, G2, G4. cbn [Z.add].
  split; [reflexivity|]. split; [reflexivity|].
  apply NoDup_map_of_nat, seq_NoDup.
Qed.

(** X18: the batch of a run is made of one group of points per message,
    in the order of the fetched identifiers.  No group is empty, since a
    Composite Document has at least the word [Subject:]; the points of a
    group all have the dictionary of their message as payload, with its
    identifier, and there is one of them for each run of 200 words of
    the Composite Document. *)
Theorem batch_by_message (ids : list str) (r : list PointStruct * Z) :
  build_points service ids [] 0 = Ok r ->
  exists groups,
    fst r = concat groups /\ Forall2 (group_of service) ids groups.
Proof.
  intros H. apply build_points_groups in H as (groups & G1 & _ & G3 & _).
  exists groups. split; [exact G1 | exact G3].
Qed.

Lemma batch_empty_iff (ids : list str) (r : list PointStruct * Z) :
  build_points service ids [] 0 = Ok r -> (fst r = [] <-> ids = []).
Proof.
  intros H. apply build_points_groups in H as (groups & G1 & _ & G3 & _).
  cbn [app] in G1. rewrite G1. split.
  - intros Hnil. destruct G3 as [|i g rest gs (d & _ & _ & _ & Hg & _) _];
      [reflexivity|].
    cbn [concat] in Hnil. destruct g; [now destruct Hg | discriminate].
  - intros ->. now inversion G3.
Qed.

(** X19: when [main] returns, the identifiers were fetched, the
    collection was there or has been created, every message was read and
    embedded, and what [main] has built is the batch of all the messages.
    The batch is empty exactly when no identifier was fetched; when it is
    not, the store has accepted it, whole, in one request. *)
Theorem main_writes_batch (qdrant : Qdrant) (w : Sync.world)
    (batch : list PointStruct) :
  fst (main service qdrant w) = Ok batch ->
  exists ids names r,
    fst (Sync.fetch_new_messages service 50 w) = Ok ids /\
    get_collections qdrant = Ok names /\
    (~ In COLLECTION_NAME names ->
     create_collection qdrant COLLECTION_NAME embedding_dimension = Ok tt) /\
    build_points service ids [] 0 = Ok r /\
    batch = fst r /\
    (ids = [] -> batch = []) /\
    (ids <> [] ->
     batch <> [] /\ upsert qdrant COLLECTION_NAME batch = Ok tt).
Proof.
  unfold main.
  destruct (Sync.fetch_new_messages service 50 w) as [fetched w1].
  cbn [fst]. destruct fetched as [ids|e]; cbn [bind]; [|discriminate].
  destruct (get_collections qdrant) as [names|e]; cbn [bind];
    [|discriminate].
  destruct (if existsb (str_eqb COLLECTION_NAME) names then Ok tt
            else create_collection qdrant COLLECTION_NAME embedding_dimension)
    as [[]|e] eqn:Hc; cbn [bind]; [|discriminate].
  destruct (build_points service ids [] 0) as [r|e] eqn:Hr; cbn [bind];
    [|discriminate].
  intros H. exists ids, names, r.
  split; [reflexivity|]. split; [reflexivity|]. split.
  { intros Hn. destruct (existsb _ names) eqn:Hex; [|exact Hc].
    exfalso. apply Hn. apply existsb_exists in Hex as (x & Hx & E).
    apply str_eqb_spec in E. now subst. }
  split; [exact Hr|].
  pose proof (batch_empty_iff ids r Hr) as Hiff.
  destruct (fst r) as [|pt pts] eqn:Hfst.
  - injection H as <-. split; [reflexivity|]. split; [reflexivity|].
    intros Hids. destruct Hids. now apply Hiff.
  - destruct (upsert qdrant COLLECTION_NAME (pt :: pts)) as [[]|e] eqn:Hup;
      cbn [bind] in H; [|discriminate].
    injection H as <-. split; [reflexivity|]. split.
    + intros Hids. apply Hiff in Hids. discriminate.
    + intros _. split; [discriminate | exact Hup].
Qed.

End PipelineMore.

(** The witnesses: a run over the messages [m3] and [m1] of the example
    mailbox, and a first run of [main] on it. *)
Lemma batch_numbering_witness :
  map Pipeline.pt_id (fst example_batch)
  = map Z.of_nat (seq 0 (length (fst example_batch))) /\
  snd example_batch = len (fst example_batch) /\
  NoDup (map Pipeline.pt_id (fst example_batch)).
Proof.
  apply (batch_numbering example_service [lit "m3"; lit "m1"] example_batch).
  reflexivity.
Defined.

Lemma batch_by_message_witness :
  exists groups,
    fst example_batch = concat groups /\
    Forall2 (group_of example_service) [lit "m3"; lit "m1"] groups.
Proof.
  apply (batch_by_message example_service [lit "m3"; lit "m1"] example_batch).
  reflexivity.
Defined.

Lemma main_writes_batch_witness :
  exists ids names r,
    fst (Sync.fetch_new_messages example_service 50 (Sync.World None []))
    = Ok ids /\
    Pipeline.get_collections example_qdrant = Ok names /\
    (~ In Pipeline.COLLECTION_NAME names ->
     Pipeline.create_collection example_qdrant Pipeline.COLLECTION_NAME
       embedding_dimension = Ok tt) /\
    Pipeline.build_points example_service ids [] 0 = Ok r /\
    example_run_batch = fst r /\
    (ids = [] -> example_run_batch = []) /\
    (ids <> [] ->
     example_run_batch <> [] /\
     Pipeline.upsert example_qdrant Pipeline.COLLECTION_NAME example_run_batch
     = Ok tt).
Proof.
  apply (main_writes_batch example_service example_qdrant
           (Sync.World None []) example_run_batch).
  reflexivity.
Defined.

(* ===================================================================== *)
(** * Further properties: Query Engine *)
(* ===================================================================== *)

Section QueryMore.
Import Query.

Lemma matches_app (c1 c2 : list condition) (p : point) :
  matches (c1 ++ c2) p = matches c1 p && matches c2 p.
Proof. unfold matches. apply forallb_app. Qed.

Lemma filter_andb (A : Type) (f g : A -> bool) (l : list A) :
  filter (fun x => f x && g x) l = filter g (filter f l).
Proof.
  induction l as [|x l IH]; [reflexivity|].
  cbn [filter]. destruct (f x); cbn [andb filter]; [|exact IH].
  destruct (g x); now rewrite IH.
Qed.

Lemma apply_filters_app (c1 c2 : list condition) (points : list point) :
  apply_filters (c1 ++ c2) points
  = apply_filters c2 (apply_filters c1 points).
Proof.
  rewrite !apply_filters_filter, <- filter_andb.
  apply filter_ext. intros p. apply matches_app.
Qed.

Lemma apply_filters_comm (c1 c2 : list condition) (points : list point) :
  apply_filters c1 (apply_filters c2 points)
  = apply_filters c2 (apply_filters c1 points).
Proof.
  rewrite !apply_filters_filter, <- !filter_andb.
  apply filter_ext. intros p. apply andb_comm.
Qed.

(** X20: the filters are conjunctive and independent: a query with
    several filters keeps what is left after filtering by subject, then
    by sender, then by url, then by category; filtering by two lists of
    conditions one after the other is filtering by both, in either
    order. *)
Theorem filters_compose (client : Client) (collection_name : str)
    (limit offset : Z)
    (filter_subject filter_sender filter_url filter_category : option str) :
  selected client collection_name limit offset
    filter_subject filter_sender filter_url filter_category
  = (page <- scroll client collection_name limit offset ;;
     Ok (apply_filters (condition_of "category" filter_category)
           (apply_filters (condition_of "url" filter_url)
              (apply_filters (condition_of "sender" filter_sender)
                 (apply_filters (condition_of "subject" filter_subject)
                    page))))) /\
  (forall c1 c2 points,
     apply_filters (c1 ++ c2) points
     = apply_filters c2 (apply_filters c1 points) /\
     apply_filters c1 (apply_filters c2 points)
     = apply_filters c2 (apply_filters c1 points)).
Proof.
  split.
  - unfold selected, filter_conditions.
    destruct (scroll client collection_name limit offset) as [page|e];
      [|reflexivity].
    cbn [bind]. now rewrite !apply_filters_app.
  - intros c1 c2 points. split;
      [apply apply_filters_app | apply apply_filters_comm].
Qed.

Lemma condition_on_missing (p : point) (key : string) (filter : option str) :
  truthy filter = true ->
  get (payload p) (lit key) (VStr []) = VStr [] ->
  matches (condition_of key filter) p = false.
Proof.
  intros Hf H. destruct filter as [[|c v]|]; try discriminate Hf.
  unfold matches, condition_of. cbn [forallb].
  unfold condition_holds. cbn [fst snd]. rewrite H. reflexivity.
Qed.

(** X21: the payloads written by the ingestion pipeline have no [url]
    and no [category]: a non-empty url or category filter rejects every
    point whose payload is the dictionary of a message, whatever the
    other filters; on a page made of such points the query prints that
    no points were found. *)
Theorem url_category_reject_ingested
    (filter_subject filter_sender filter_url filter_category : option str) :
  truthy filter_url = true \/ truthy filter_category = true ->
  (forall p, ingested p ->
     matches (filter_conditions filter_subject filter_sender filter_url
                filter_category) p = false) /\
  (forall client collection_name limit offset output_format page,
     scroll client collection_name limit offset = Ok page ->
     Forall ingested page ->
     query_all_points client collection_name limit offset
       filter_subject filter_sender filter_url filter_category output_format
     = Printed [lit "No points found in the collection."]).
Proof.
  intros Hfilter.
  assert (Hnone : forall p, ingested p ->
            matches (filter_conditions filter_subject filter_sender
                       filter_url filter_category) p = false).
  { intros p [d Hd]. unfold filter_conditions. rewrite !matches_app.
    destruct Hfilter as [Hf | Hf].
    - rewrite (condition_on_missing p "url" filter_url Hf);
        [now rewrite !andb_false_r | now rewrite Hd].
    - rewrite (condition_on_missing p "category" filter_category Hf);
        [now rewrite !andb_false_r | now rewrite Hd]. }
  split; [exact Hnone|].
  intros client collection_name limit offset output_format page Hpage Hing.
  unfold query_all_points, selected. rewrite Hpage. cbn [bind].
  rewrite apply_filters_filter.
  replace (filter _ page) with (@nil point); [reflexivity|].
  symmetry. clear Hpage. induction Hing as [|p page Hp _ IH]; [reflexivity|].
  cbn [filter]. now rewrite (Hnone p Hp).
Qed.

Lemma replace_quotes_injective (s1 s2 : str) :
  replace_char DQ [DQ; DQ] s1 = replace_char DQ [DQ; DQ] s2 -> s1 = s2.
Proof.
  revert s2. induction s1 as [|c1 s1 IH]; intros [|c2 s2];
    cbn [replace_char].
  - reflexivity.
  - destruct (ascii_eqb c2 DQ); discriminate.
  - destruct (ascii_eqb c1 DQ); discriminate.
  - destruct (ascii_eqb c1 DQ) eqn:E1; destruct (ascii_eqb c2 DQ) eqn:E2;
      cbn [app].
    + apply ascii_eqb_eq in E1, E2. subst. intros [= H]. f_equal. now apply IH.
    + apply ascii_eqb_eq in E1. subst. intros [= <- _].
      unfold ascii_eqb in E2. now rewrite Ascii.eqb_refl in E2.
    + apply ascii_eqb_eq in E2. subst. intros [= -> _].
      unfold ascii_eqb in E1. now rewrite Ascii.eqb_refl in E1.
    + intros [= -> H]. f_equal. now apply IH.
Qed.

(** X22: the CSV escaping of string values loses nothing: two string
    values that give the same CSV field are the same string. *)
Theorem csv_string_field_injective (p1 p2 : point) (k1 k2 s1 s2 : str) :
  get (payload p1) k1 (VStr []) = VStr s1 ->
  get (payload p2) k2 (VStr []) = VStr s2 ->
  csv_field p1 k1 = csv_field p2 k2 ->
  s1 = s2.
Proof.
  unfold csv_field, quote. intros -> -> H. cbn [app] in H.
  injection H as H. apply app_inv_tail in H.
  now apply replace_quotes_injective.
Qed.

Lemma sorted_head_not_in (x : str) (l : list str) :
  StronglySorted str_lt (x :: l) -> ~ In x l.
Proof.
  intros H Hin. apply StronglySorted_inv in H as [_ H].
  rewrite Forall_forall in H. now apply (str_lt_irrefl x), H.
Qed.

Lemma sorted_unique (l1 l2 : list str) :
  StronglySorted str_lt l1 -> StronglySorted str_lt l2 ->
  (forall k, In k l1 <-> In k l2) -> l1 = l2.
Proof.
  revert l2. induction l1 as [|x l1 IH]; intros [|y l2] H1 H2 Hin.
  - reflexivity.
  - destruct (proj2 (Hin y) (or_introl eq_refl)).
  - destruct (proj1 (Hin x) (or_introl eq_refl)).
  - pose proof (sorted_head_not_in _ _ H1) as Nx.
    pose proof (sorted_head_not_in _ _ H2) as Ny.
    pose proof (StronglySorted_inv H1) as [S1 F1].
    pose proof (StronglySorted_inv H2) as [S2 F2].
    rewrite Forall_forall in F1, F2.
    assert (x = y) as <-.
    { destruct (proj1 (Hin x) (or_introl eq_refl)) as [E | Hx]; [now symmetry|].
      destruct (proj2 (Hin y) (or_introl eq_refl)) as [E | Hy]; [exact E|].
      exfalso. apply (str_lt_irrefl x).
      apply str_lt_trans with y; [now apply F1 | now apply F2]. }
    f_equal. apply IH; [exact S1 | exact S2 |]. intros k. split; intros Hk.
    + destruct (proj1 (Hin k) (or_intror Hk)) as [E | Hk']; [|exact Hk'].
      subst k. now destruct Nx.
    + destruct (proj2 (Hin k) (or_intror Hk)) as [E | Hk']; [|exact Hk'].
      subst k. now destruct Ny.
Qed.

(** X23: the CSV header depends only on the set of the keys: two result
    sets whose payloads have the same keys, in whatever order of points
    and of keys, give the same columns in the same order. *)
Theorem csv_header_order_independent (points points' : list point) :
  (forall k, (exists p, In p points /\ In k (keys (payload p))) <->
             (exists p, In p points' /\ In k (keys (payload p)))) ->
  sorted_keys points = sorted_keys points' /\
  csv_header (sorted_keys points) = csv_header (sorted_keys points').
Proof.
  intros H.
  destruct (sorted_keys_spec points) as [S1 K1].
  destruct (sorted_keys_spec points') as [S2 K2].
  assert (E : sorted_keys points = sorted_keys points').
  { apply sorted_unique; [exact S1 | exact S2 |].
    intros k. now rewrite K1, K2. }
  split; [exact E | now rewrite E].
Qed.

(** X24: in the table encoding a string value is shown whole when it
    has at most 200 characters, and as its first 200 characters followed
    by three dots otherwise: never more than 203 characters. *)
Theorem display_value_bounded (s : str) :
  (len (display_value (VStr s)) <= 203)%Z /\
  ((len s <= 200)%Z -> display_value (VStr s) = s) /\
  ((200 < len s)%Z ->
   display_value (VStr s) = firstn 200 s ++ lit "..." /\
   len (display_value (VStr s)) = 203%Z).
Proof.
  unfold display_value, slice_to, len.
  destruct (Z.ltb_spec 200 (Z.of_nat (length s))) as [Hlong | Hshort].
  - assert (Hlen : length (firstn 200 s ++ lit "...") = 203).
    { rewrite length_app, length_firstn.
      change (length (lit "...")) with 3.
      rewrite Nat.min_l; [reflexivity|]. apply Nat2Z.inj_le.
      apply Z.lt_le_incl. exact Hlong. }
    change (Z.to_nat 200) with 200. rewrite Hlen.
    split; [discriminate|]. split; [intros Hs|intros _; now split].
    exfalso. now apply (Z.lt_irrefl 200), (Z.lt_le_trans _ _ _ Hlong).
  - split; [now apply (Z.le_trans _ 200)|]. split; [reflexivity|].
    intros Hs. exfalso.
    now apply (Z.lt_irrefl 200), (Z.lt_le_trans _ _ _ Hs).
Qed.

Lemma lower_nil_iff (a b : str) : lower a = lower b -> (a = [] <-> b = []).
Proof.
  destruct a, b; cbn [lower map]; intros H; try discriminate H;
    split; congruence.
Qed.

Lemma condition_of_lower (key : string) (a b : option str) (p : point) :
  option_map lower a = option_map lower b ->
  matches (condition_of key a) p = matches (condition_of key b) p.
Proof.
  destruct a as [a|], b as [b|]; cbn [option_map]; try discriminate;
    [|reflexivity].
  intros [= H]. unfold condition_of.
  destruct a as [|x a], b as [|y b]; try discriminate H; [reflexivity|].
  unfold matches. cbn [forallb]. unfold condition_holds. cbn [fst snd].
  destruct (get (payload p) (lit key) (VStr [])); try reflexivity.
  now rewrite H.
Qed.

(** X25: the filters ignore the case of their own letters too: two
    queries whose filters differ only by letter case select the same
    points. *)
Theorem filters_ignore_case (client : Client) (collection_name : str)
    (limit offset : Z) (s s' e e' u u' c c' : option str) :
  option_map lower s = option_map lower s' ->
  option_map lower e = option_map lower e' ->
  option_map lower u = option_map lower u' ->
  option_map lower c = option_map lower c' ->
  selected client collection_name limit offset s e u c
  = selected client collection_name limit offset s' e' u' c'.
Proof.
  intros Hs He Hu Hc. unfold selected.
  destruct (scroll client collection_name limit offset) as [page|x];
    [|reflexivity].
  cbn [bind]. f_equal. rewrite !apply_filters_filter.
  apply filter_ext. intros p. unfold filter_conditions.
  rewrite !matches_app.
  rewrite (condition_of_lower "subject" s s' p Hs).
  rewrite (condition_of_lower "sender" e e' p He).
  rewrite (condition_of_lower "url" u u' p Hu).
  now rewrite (condition_of_lower "category" c c' p Hc).
Qed.

End QueryMore.

Lemma url_category_reject_ingested_witness :
  (forall p, ingested p ->
     Query.matches (Query.filter_conditions (Some (lit "Hi")) None
                      (Some (lit "mail.google.com")) None) p = false) /\
  (forall client collection_name limit offset output_format page,
     Query.scroll client collection_name limit offset = Ok page ->
     Forall ingested page ->
     Query.query_all_points client collection_name limit offset
       (Some (lit "Hi")) None (Some (lit "mail.google.com")) None
       output_format
     = Query.Printed [lit "No points found in the collection."]).
Proof.
  apply (url_category_reject_ingested (Some (lit "Hi")) None
           (Some (lit "mail.google.com")) None).
  left. reflexivity.
Defined.

Example url_filter_on_ingested_example :
  Query.query_all_points ingested_client (lit "gmail_embeddings_full") 100 0
    None None (Some (lit "mail.google.com")) None (lit "table")
  = Query.Printed [lit "No points found in the collection."].
Proof. reflexivity. Qed.

Lemma csv_string_field_injective_witness :
  lit "say " ++ [DQ] ++ lit "hi" ++ [DQ]
  = lit "say " ++ [DQ] ++ lit "hi" ++ [DQ].
Proof.
  apply (csv_string_field_injective
           (Query.Record_ (Query.IdInt 1)
              [(lit "subject",
                Query.VStr (lit "say " ++ [DQ] ++ lit "hi" ++ [DQ]))])
           (Query.Record_ (Query.IdInt 2)
              [(lit "sender", Query.VStr (lit "a@x"));
               (lit "subject",
                Query.VStr (lit "say " ++ [DQ] ++ lit "hi" ++ [DQ]))])
           (lit "subject") (lit "subject")).
  - reflexivity.
  - reflexivity.
  - vm_compute. reflexivity.
Defined.

Lemma csv_header_order_independent_witness :
  Query.sorted_keys csv_scenario_points
  = Query.sorted_keys (rev csv_scenario_points) /\
  Query.csv_header (Query.sorted_keys csv_scenario_points)
  = Query.csv_header (Query.sorted_keys (rev csv_scenario_points)).
Proof.
  apply (csv_header_order_independent csv_scenario_points
           (rev csv_scenario_points)).
  intros k. split; intros (p & Hp & Hk); exists p; split;
    try exact Hk; [apply in_rev in Hp | apply in_rev]; exact Hp.
Defined.

Lemma filters_ignore_case_witness :
  Query.selected example_client (lit "gmail_embeddings_full") 100 0
    None (Some (lit "John@Example.COM")) None None
  = Query.selected example_client (lit "gmail_embeddings_full") 100 0
      None (Some (lit "john@example.com")) None None.
Proof.
  apply (filters_ignore_case example_client (lit "gmail_embeddings_full")
           100 0); reflexivity.
Defined.

(* ===================================================================== *)
(** * Further properties: Authentication *)
(* ===================================================================== *)

Section AuthFacts.
Import Auth.
Variable pickle_load : bytes -> result (option credentials).
Variable pickle_dump : credentials -> bytes.
Hypothesis pickle_round_trip :
  forall c, pickle_load (pickle_dump c) = Ok (Some c).

Lemma renew_keeps_file (refresh : credentials -> result credentials)
    (run_local_server : result credentials) (creds : option credentials)
    (w : world) :
  token_pickle (snd (renew refresh run_local_server creds w))
  = token_pickle w.
Proof.
  unfold renew. destruct creds as [c|]; [|reflexivity].
  destruct (expired c && truthy (refresh_token c)); reflexivity.
Qed.

Lemma load_after_authentication
    (refresh : credentials -> result credentials)
    (run_local_server : result credentials) (w w' : world)
    (creds : option credentials) :
  gmail_authenticate pickle_load pickle_dump refresh run_local_server w
  = (Ok creds, w') ->
  load pickle_load w' = Ok creds.
Proof.
  unfold gmail_authenticate.
  destruct (load pickle_load w) as [loaded|e] eqn:Hload; [|discriminate].
  destruct (stale loaded).
  - destruct (renew refresh run_local_server loaded w) as [renewed w1].
    destruct renewed as [c|e]; [|discriminate].
    intros [= <- <-]. unfold load. cbn [token_pickle].
    apply pickle_round_trip.
  - now intros [= <- <-].
Qed.

(** X26: provided that unpickling gives back what was pickled, after a
    run of [gmail_authenticate] that returns, [token.pickle] holds the
    credentials that were returned, which are an object and not [None];
    after a run that raises, [token.pickle] is as it was. *)
Theorem token_file_after_authentication
    (refresh : credentials -> result credentials)
    (run_local_server : result credentials) (w : world) :
  match fst (gmail_authenticate pickle_load pickle_dump refresh
               run_local_server w) with
  | Ok creds =>
      creds <> None /\
      load pickle_load
        (snd (gmail_authenticate pickle_load pickle_dump refresh
                run_local_server w)) = Ok creds
  | Raise _ =>
      token_pickle
        (snd (gmail_authenticate pickle_load pickle_dump refresh
                run_local_server w)) = token_pickle w
  end.
Proof.
  destruct (gmail_authenticate pickle_load pickle_dump refresh
              run_local_server w) as [[creds|e] w'] eqn:Hrun; cbn [fst snd].
  - split; [|exact (load_after_authentication _ _ _ _ _ Hrun)].
    revert Hrun. unfold gmail_authenticate.
    destruct (load pickle_load w) as [loaded|e]; [|discriminate].
    destruct (stale loaded) eqn:Hstale.
    + destruct (renew refresh run_local_server loaded w) as [renewed w1].
      destruct renewed as [c|e]; [|discriminate]. now intros [= <- _].
    + intros [= <- _] ->. discriminate Hstale.
  - revert Hrun. unfold gmail_authenticate.
    destruct (load pickle_load w) as [loaded|e']; [|now intros [= _ <-]].
    destruct (stale loaded); [|discriminate].
    pose proof (renew_keeps_file refresh run_local_server loaded w) as Hfile.
    destruct (renew refresh run_local_server loaded w) as [renewed w1].
    destruct renewed as [c|e']; [discriminate|]. now intros [= _ <-].
Qed.

(** X27: credentials read from [token.pickle] that are valid when they
    are read are returned as they are: no refresh, no flow in the browser,
    whatever these would do, and the file is not written.  Otherwise one
    renewal step is taken and only one: a refresh when credentials were
    read that are expired and have a refresh token, the flow in the
    browser in every other case; nothing is renewed when the file cannot
    be unpickled. *)
Theorem renewal_only_when_stale
    (refresh : credentials -> result credentials)
    (run_local_server : result credentials) (w : world) :
  steps (snd (gmail_authenticate pickle_load pickle_dump refresh
                run_local_server w))
  = steps w
    ++ match load pickle_load w with
       | Raise _ => []
       | Ok None => [Flow]
       | Ok (Some c) =>
           if valid c then []
           else if expired c && truthy (refresh_token c) then [Refresh]
                else [Flow]
       end /\
  (forall c, load pickle_load w = Ok (Some c) -> valid c = true ->
     forall refresh' run_local_server',
       gmail_authenticate pickle_load pickle_dump refresh' run_local_server' w
       = (Ok (Some c), w)).
Proof.
  split.
  - unfold gmail_authenticate.
    destruct (load pickle_load w) as [[c|]|e]; cbn [stale renew snd];
      [| |now rewrite app_nil_r].
    + destruct (valid c); cbn [negb snd]; [now rewrite app_nil_r|].
      destruct (expired c && truthy (refresh_token c)).
      * destruct (refresh c); reflexivity.
      * destruct run_local_server; reflexivity.
    + destruct run_local_server; reflexivity.
  - intros c Hload Hvalid refresh' run_local_server'.
    unfold gmail_authenticate. rewrite Hload. cbn [stale].
    now rewrite Hvalid.
Qed.

End AuthFacts.

Lemma token_file_after_authentication_witness :
  match fst (Auth.gmail_authenticate example_load example_dump
               example_refresh
               (Raise (Exc LibraryError (lit "no browser")))
               (Auth.World
                  (Some (example_dump
                           (Auth.Credentials false true (Some (lit "r")))))
                  [])) with
  | Ok creds =>
      creds <> None /\
      Auth.load example_load
        (snd (Auth.gmail_authenticate example_load example_dump
                example_refresh
                (Raise (Exc LibraryError (lit "no browser")))
                (Auth.World
                   (Some (example_dump
                            (Auth.Credentials false true (Some (lit "r")))))
                   []))) = Ok creds
  | Raise _ =>
      Auth.token_pickle
        (snd (Auth.gmail_authenticate example_load example_dump
                example_refresh
                (Raise (Exc LibraryError (lit "no browser")))
                (Auth.World
                   (Some (example_dump
                            (Auth.Credentials false true (Some (lit "r")))))
                   [])))
      = Auth.token_pickle
          (Auth.World
             (Some (example_dump
                      (Auth.Credentials false true (Some (lit "r")))))
             [])
  end.
Proof.
  apply (token_file_after_authentication example_load example_dump).
  intros [[] [] [t|]]; reflexivity.
Defined.

(* ===================================================================== *)
(** * Further properties: the run *)
(* ===================================================================== *)

Section RunFacts.
Context {L : Libraries}.
Variable service : Service.

(** X28: the cursor is stored before any message is read: once the
    identifiers are fetched, the cursor file holds the watermark of the
    profile at the end of [main], whether the rest of the run succeeds or
    raises; [main] changes nothing else in the cursor file or in the
    requests of the tracker.  A run that fails on a message leaves the
    cursor moved past that message. *)
Theorem cursor_moves_before_ingestion (qdrant : Pipeline.Qdrant)
    (w : Sync.world) (ids : list str) :
  fst (Sync.fetch_new_messages service 50 w) = Ok ids ->
  snd (Pipeline.main service qdrant w)
  = snd (Sync.fetch_new_messages service 50 w) /\
  exists prof hid,
    getProfile service = Ok prof /\ pr_historyId prof = Some hid /\
    Sync.history_file (snd (Pipeline.main service qdrant w)) = Some hid.
Proof.
  intros Hfetch.
  assert (Hsnd : snd (Pipeline.main service qdrant w)
                 = snd (Sync.fetch_new_messages service 50 w)).
  { unfold Pipeline.main.
    now destruct (Sync.fetch_new_messages service 50 w). }
  split; [exact Hsnd|]. rewrite Hsnd.
  pose proof (cursor_of_fetch service 50 w) as H. rewrite Hfetch in H.
  exact H.
Qed.

End RunFacts.

(** The witness: a run on the mailbox whose attachments cannot be
    downloaded raises on the message [m3], and the cursor file holds the
    new watermark. *)
Lemma cursor_moves_before_ingestion_witness :
  raises (fst (Pipeline.main broken_attachment_service example_qdrant
                 (Sync.World (Some (lit "7")) []))) /\
  snd (Pipeline.main broken_attachment_service example_qdrant
         (Sync.World (Some (lit "7")) []))
  = snd (Sync.fetch_new_messages broken_attachment_service 50
           (Sync.World (Some (lit "7")) [])) /\
  exists prof hid,
    getProfile broken_attachment_service = Ok prof /\
    pr_historyId prof = Some hid /\
    Sync.history_file
      (snd (Pipeline.main broken_attachment_service example_qdrant
              (Sync.World (Some (lit "7")) []))) = Some hid.
Proof.
  split.
  - eexists. vm_compute. reflexivity.
  - apply (cursor_moves_before_ingestion broken_attachment_service
             example_qdrant (Sync.World (Some (lit "7")) []) [lit "m3"]).
    vm_compute. reflexivity.
Defined.
